(** * harbour-scraper: identity resolution and record lifecycle

    A shallow embedding of the parts of [cleanup_jobs.py] and
    [harbour_scraper.py] that decide whether a job record is skipped,
    inserted or deleted, together with the properties the specification
    states about them.

    Conventions of the embedding.
    - A Python [str] is a [string] whose characters are read as the code
      points U+0000..U+00FF.
    - A Firestore document is a [gmap string pyval]; the [Jobs] collection
      is a [gmap] from document id to document, so ids are unique as in
      Firestore.  Field values are strings or null, the only values the
      scraper writes and the ones the code guards with [or ""].
    - A [date] is compared and shifted through its proleptic Gregorian
      ordinal, as [date.toordinal] computes it.  [datetime.date] compares
      the triples (year, month, day); on dates the two orders agree
      ([toordinal_lt]).  The cutoff of the purge is kept as an ordinal,
      without a range check; the cutoff of [delete_old_jobs] raises when
      it leaves the years 1 to 9999, as [datetime] arithmetic does.
    - A number is an [int] or a [float]; a [float] is an IEEE 754
      binary64 number, and its operations round to nearest, ties to
      even.
    - Iterating over the whole collection in [delete_old_jobs] delivers
      the documents in the order of their ids, as Firestore does for a
      query without an ordering; elsewhere the order of the documents
      has no bearing on the result.
    - The processed file is kept as the entries written to it, each
      followed by a line feed in the file, and it is read through its
      text.  A file whose last line has no line feed is not represented;
      the script never writes one.
    - The existence query, the store write, the deletes, the notification
      request and the scrapers take their outcome from an oracle, so the
      theorems hold for every behaviour of these collaborators.  Reading
      the whole collection and reading or appending to the processed file
      are taken to succeed.
    - Logging is left out; the calls to the collaborators are recorded in
      a trace instead.
    - Of the two scrapers, the fetching of the page, the date of the post
      and everything from [job_data["moreInfoLink"] = url] on are
      embedded; what the parsing and the label matching find on a page
      comes from an oracle ([Pages.web]).  Of the Telegram client, the
      dialogs and the messages it delivers are inputs. *)

From Stdlib Require Import ZArith Ascii Lia SpecFloat.
From stdpp Require Import base gmap sets list strings sorting.

Local Open Scope Z_scope.

(** ** Python built-ins used by the two scripts *)

Module Py.

(** Characters removed by [str.strip()] among the first 256 code points. *)
Definition is_space (c : ascii) : bool :=
  let n := N_of_ascii c in
  ((9 <=? n) && (n <=? 13) || (28 <=? n) && (n <=? 32)
   || (n =? 133) || (n =? 160))%N.

Fixpoint lstrip (s : string) : string :=
  match s with
  | EmptyString => EmptyString
  | String c s' => if is_space c then lstrip s' else s
  end.

Definition strip (s : string) : string :=
  String.rev (lstrip (String.rev (lstrip s))).

(** [str.upper()] on the letters a..z; no other character of the range
    upper-cases to one of [N], [/] or [A], the only use made of it. *)
Definition upper_char (c : ascii) : ascii :=
  let n := N_of_ascii c in
  if ((97 <=? n) && (n <=? 122))%N then ascii_of_N (n - 32) else c.

Fixpoint upper (s : string) : string :=
  match s with
  | EmptyString => EmptyString
  | String c s' => String (upper_char c) (upper s')
  end.

(** [needle in hay] on strings. *)
Definition contains (needle hay : string) : bool :=
  match String.index 0 needle hay with Some _ => true | None => false end.

(** [for line in f] on a file opened in text mode: a line ends at a line
    feed, at a carriage return, or at a carriage return followed by a
    line feed.  [after_cr] tells that the character before was a
    carriage return, and [cur] is the line being read, reversed.  The
    lines come without their ends, which [strip] would remove. *)
Definition LF : ascii := "010"%char.
Definition CR : ascii := "013"%char.

Fixpoint readlines (after_cr : bool) (cur : string) (text : string)
    : list string :=
  match text with
  | EmptyString => if decide (cur = "") then [] else [String.rev cur]
  | String c text' =>
      if Ascii.eqb c LF then
        if after_cr then readlines false "" text'
        else String.rev cur :: readlines false "" text'
      else if Ascii.eqb c CR then String.rev cur :: readlines true "" text'
      else readlines false (String c cur) text'
  end.

(** A value stored in a dict: a string or [None]. *)
Inductive pyval := PNone | PStr (s : string).

#[global] Instance pyval_eq_dec : EqDecision pyval.
Proof. solve_decision. Defined.

(** [v or ""]. *)
Definition or_empty (v : pyval) : string :=
  match v with PNone => "" | PStr s => s end.

(** [d.get(k)] and [d.get(k, "")]. *)
Definition get (d : gmap string pyval) (k : string) : pyval :=
  default PNone (d !! k).
Definition get_or (d : gmap string pyval) (k : string) (dflt : string) : pyval :=
  default (PStr dflt) (d !! k).

(** *** [datetime.date] *)

Record date := mkdate { year : Z; month : Z; day : Z }.

Definition is_leap (y : Z) : bool :=
  (y mod 4 =? 0) && (negb (y mod 100 =? 0) || (y mod 400 =? 0)).

Definition days_in_month (y m : Z) : Z :=
  if m =? 2 then (if is_leap y then 29 else 28)
  else if (m =? 4) || (m =? 6) || (m =? 9) || (m =? 11) then 30
  else 31.

Definition days_before_year (y : Z) : Z :=
  let p := y - 1 in p * 365 + p / 4 - p / 100 + p / 400.

Definition days_before_month (y m : Z) : Z :=
  foldr Z.add 0 (days_in_month y <$> seqZ 1 (m - 1)).

Definition toordinal (d : date) : Z :=
  days_before_year (year d) + days_before_month (year d) (month d) + day d.

Definition date_max : date := mkdate 9999 12 31.

Definition valid_date (d : date) : bool :=
  (1 <=? year d) && (year d <=? 9999)
  && (1 <=? month d) && (month d <=? 12)
  && (1 <=? day d) && (day d <=? days_in_month (year d) (month d)).

(** [a < b] on dates, which compares the triples (year, month, day). *)
Definition ymd_lt (a b : date) : Prop :=
  year a < year b
  ∨ (year a = year b
     ∧ (month a < month b ∨ (month a = month b ∧ day a < day b))).

Definition days_in_year (y : Z) : Z := if is_leap y then 366 else 365.

(** Days before each month in a common year. *)
Definition cumulative_days (m : Z) : Z :=
  match m with
  | 1 => 0 | 2 => 31 | 3 => 59 | 4 => 90 | 5 => 120 | 6 => 151 | 7 => 181
  | 8 => 212 | 9 => 243 | 10 => 273 | 11 => 304 | 12 => 334 | _ => 365
  end.

(** *** [datetime.strptime(s, "%Y-%m-%d")]

    The directive patterns are those of CPython's [_strptime]:
    [%Y] is four digits, [%m] is [1[0-2]|0[1-9]|[1-9]] and [%d] is
    [3[01]|[12]\d|0[1-9]|[1-9]| [1-9]]; the whole string must be
    consumed, and the fields must form a date. *)

Definition digit (c : ascii) : option Z :=
  let n := N_of_ascii c in
  if ((48 <=? n) && (n <=? 57))%N then Some (Z.of_N n - 48) else None.

Definition month_2 (a b : Z) : option Z :=
  if (a =? 1) && (b <=? 2) then Some (10 + b)
  else if (a =? 0) && (1 <=? b) then Some b
  else None.

Definition day_2 (a b : Z) : option Z :=
  if (a =? 3) && (b <=? 1) then Some (30 + b)
  else if (a =? 1) || (a =? 2) then Some (10 * a + b)
  else if (a =? 0) && (1 <=? b) then Some b
  else None.

Definition nonzero (n : Z) : option Z := if 1 <=? n then Some n else None.

Definition parse_month (l : list ascii) : option (Z * list ascii) :=
  match l with
  | a :: "-"%char :: r => m ← digit a ≫= nonzero; Some (m, r)
  | a :: b :: "-"%char :: r =>
      x ← digit a; y ← digit b; m ← month_2 x y; Some (m, r)
  | _ => None
  end.

Definition parse_day (l : list ascii) : option Z :=
  match l with
  | [a] => digit a ≫= nonzero
  | [a; b] =>
      if Ascii.eqb a " " then digit b ≫= nonzero
      else x ← digit a; y ← digit b; day_2 x y
  | _ => None
  end.

Definition strptime_ymd (s : string) : option date :=
  match String.list_ascii_of_string s with
  | y1 :: y2 :: y3 :: y4 :: "-"%char :: rest =>
      a ← digit y1; b ← digit y2; c ← digit y3; e ← digit y4;
      '(m, rest') ← parse_month rest;
      d ← parse_day rest';
      let r := mkdate (1000 * a + 100 * b + 10 * c + e) m d in
      if valid_date r then Some r else None
  | _ => None
  end.

End Py.

Export Py.

(** A Firestore document's data, and the [Jobs] collection keyed by
  document id. *)
Abbreviation dict := (gmap string pyval).
Abbreviation collection := (gmap string dict).

(** ** [cleanup_jobs.py]: the retention and duplicate purge *)

Module Cleanup.

Definition parse_date_safe (s : pyval) : option date :=
  let s := strip (or_empty s) in
  if decide (s = "") then None else strptime_ymd s.

(** The per-document record built by the first loop of [main].  A
    document reference is represented by the id it refers to. *)
Record info := mkinfo {
  info_id : string;
  ref : string;
  date : option Py.date;
  date_str : pyval;
  moreInfoLink : string;
  is_recent : bool
}.

#[global] Instance info_inhabited : Inhabited info :=
  populate (mkinfo "" "" None PNone "" false).

(** [now - timedelta(days=2)], as an ordinal. *)
Definition cutoff_recent (now : Py.date) : Z := toordinal now - 2.

Definition mk_info (cutoff : Z) (doc : string * dict) : info :=
  let data := doc.2 in
  let dp_str := get_or data "date-posted" "" in
  let more_info := strip (or_empty (get data "moreInfoLink")) in
  let dp := parse_date_safe dp_str in
  let recent :=
    match dp with
    | Some d => bool_decide (cutoff ≤ toordinal d)
    | None => false
    end in
  mkinfo doc.1 doc.1 dp dp_str more_info recent.

Definition info_list (cutoff : Z) (docs : list (string * dict)) : list info :=
  mk_info cutoff <$> docs.

Definition id_to_ref (docs : list (string * dict)) : gmap string string :=
  foldl (λ m doc, <[doc.1 := doc.1]> m) ∅ docs.

(** 1) ids of the documents of the last two days. *)
Definition recent_delete_ids (infos : list info) : gset string :=
  list_to_set (info_id <$> filter (λ i, is_recent i = true) infos).

(** 2) [link_to_infos[link].append(info)] on a [defaultdict(list)]. *)
Definition group_step (recent : gset string)
    (m : gmap string (list info)) (i : info) : gmap string (list info) :=
  if decide (info_id i ∈ recent) then m
  else if decide (moreInfoLink i = "") then m
  else <[moreInfoLink i := m !!! moreInfoLink i ++ [i]]> m.

Definition link_to_infos (recent : gset string) (infos : list info)
    : gmap string (list info) :=
  foldl (group_step recent) ∅ infos.

(** [sort_key]: unknown dates take [date.max]. *)
Definition sort_key (i : info) : Z * string :=
  match date i with
  | None => (toordinal date_max, info_id i)
  | Some d => (toordinal d, info_id i)
  end.

(** Order of the key tuples. *)
Definition key_le (a b : Z * string) : Prop :=
  a.1 < b.1 ∨ (a.1 = b.1 ∧ String.le a.2 b.2).

#[global] Instance key_le_dec : RelDecision key_le.
Proof. intros a b. unfold key_le. apply _. Defined.

Definition sort_le (i j : info) : Prop := key_le (sort_key i) (sort_key j).

#[global] Instance sort_le_dec : RelDecision sort_le.
Proof. intros i j. unfold sort_le. apply _. Defined.

(** [sorted(infos, key=sort_key)]. *)
Definition sorted (infos : list info) : list info := merge_sort sort_le infos.

(** Body of the loop over [link_to_infos.items()]. *)
Definition dup_step (acc : gset string) (item : string * list info)
    : gset string :=
  let infos := item.2 in
  if decide (length infos ≤ 1)%nat then acc
  else
    let infos_sorted := sorted infos in
    let to_delete := drop 1 infos_sorted in
    foldl (λ s i, s ∪ {[info_id i]}) acc to_delete.

Definition duplicate_delete_ids (groups : gmap string (list info))
    : gset string :=
  foldl dup_step ∅ (map_to_list groups).

Definition all_delete_ids (cutoff : Z) (docs : list (string * dict))
    : gset string :=
  let infos := info_list cutoff docs in
  let recent := recent_delete_ids infos in
  recent ∪ duplicate_delete_ids (link_to_infos recent infos).

(** Body of the deletion loop; [delete_raises r] tells whether
    [ref.delete()] raises for the reference [r].  The state is the
    collection and the failure counter. *)
Definition delete_step (refs : gmap string string)
    (delete_raises : string → bool)
    (st : collection * nat) (doc_id : string) : collection * nat :=
  match refs !! doc_id with
  | Some r =>
      if delete_raises r then (st.1, S st.2) else (delete r st.1, st.2)
  | None => st
  end.

(** [main], run on the date [now] against the collection [jobs]: the
    collection it leaves and the number of failed deletions. *)
Definition main (now : Py.date) (delete_raises : string → bool)
    (jobs : collection) : collection * nat :=
  let cutoff := cutoff_recent now in
  let docs := map_to_list jobs in
  let ids := all_delete_ids cutoff docs in
  foldl (delete_step (id_to_ref docs) delete_raises) (jobs, 0%nat)
        (elements ids).

End Cleanup.

(** ** [harbour_scraper.py]: existence gate, admission and age cleanup *)

Module Scraper.

(** *** The world the script acts on *)

Inductive exc :=
  | FirestoreError | AttributeError | RequestError
  | OverflowError | ValueError | ZeroDivisionError.

(** Calls made to the collaborators, in the order they happen.  The
    [url] of [EvAdd] is the identifier whose iteration performs the
    write. *)
Inductive event :=
  | EvExists (url : string)              (* existence query on Jobs *)
  | EvScrape (url : string)              (* a scraper is called *)
  | EvAdd (url : string) (data : dict)   (* Jobs.add is called *)
  | EvNotify (job : dict)                (* the OneSignal POST is sent *)
  | EvSeen (url : string).               (* a line is appended to the file *)

Record world := mkworld {
  jobs : collection;                  (* db.collection("Jobs") *)
  processed_urls_file : list string;  (* entries of processed_urls.txt *)
  trace : list event
}.

(** What the outside world answers. *)
Record env := mkenv {
  query_raises : string → bool;
  scrape_job_data_fresheropenings : string → option dict;
  scrape_job_data_freshers_recruitment : string → option dict;
  add_raises : dict → bool;
  auto_id : collection → string;
  requests_post : dict → option Z;    (* status code, or an exception *)
  delete_raises : string → bool
}.

(** *** State and exceptions *)

Inductive outcome (A : Type) := Ok (a : A) | Raised (e : exc).
Arguments Ok {A} a.
Arguments Raised {A} e.

Definition M (A : Type) : Type := world → outcome A * world.

#[global] Instance M_ret : MRet M := λ A a w, (Ok a, w).
#[global] Instance M_bind : MBind M := λ A B f m w,
  match m w with
  | (Ok a, w') => f a w'
  | (Raised e, w') => (Raised e, w')
  end.

Definition raise {A} (e : exc) : M A := λ w, (Raised e, w).

(** [try: m except Exception as e: h e]. *)
Definition try_catch {A} (m : M A) (h : exc → M A) : M A := λ w,
  match m w with
  | (Ok a, w') => (Ok a, w')
  | (Raised e, w') => h e w'
  end.

Definition emit (ev : event) : M unit := λ w,
  (Ok (), mkworld (jobs w) (processed_urls_file w) (trace w ++ [ev])).

Definition get_jobs : M collection := λ w, (Ok (jobs w), w).

Definition modify_jobs (f : collection → collection) : M unit := λ w,
  (Ok (), mkworld (f (jobs w)) (processed_urls_file w) (trace w)).

Fixpoint for_each {A} (l : list A) (body : A → M unit) : M unit :=
  match l with
  | [] => mret ()
  | x :: l' => body x;; for_each l' body
  end.

(** *** Numbers

    A computation that may raise and acts on nothing, and its use in
    the monad of the script. *)
Definition and_then {A B} (r : outcome A) (f : A → outcome B) : outcome B :=
  match r with Ok a => f a | Raised e => Raised e end.

Definition lift {A} (r : outcome A) : M A := λ w, (r, w).

(** An [int] is an integer.  A [float] is a binary64 number: [prec] bits
    of mantissa, exponents below [emax]; [SFmul], [SFdiv], [SFadd] and
    [SFsub] are the operations of IEEE 754, rounding to nearest, ties
    to even. *)
Definition prec : Z := 53.
Definition emax : Z := 1024.

Inductive pynum := PInt (n : Z) | PFloat (x : spec_float).

(** The float nearest to an integer. *)
Definition float_of_Z (n : Z) : spec_float :=
  binary_normalize prec emax n 0 false.

(** [float(n)], as the arithmetic converts an [int] operand. *)
Definition float_of_int (n : Z) : outcome spec_float :=
  match float_of_Z n with
  | S754_infinity _ => Raised OverflowError
  | x => Ok x
  end.

(** The float that a decimal literal denotes, the nearest to
    [num / den]; for numerators and denominators below 2^53. *)
Definition float_literal (num den : Z) : pynum :=
  PFloat (SFdiv prec emax (float_of_Z num) (float_of_Z den)).

Definition signed (s : bool) (m : positive) : Z := cond_Zopp s (Z.pos m).

(** C's [fmod(x, y)]: the remainder of the division that truncates,
    which is exact. *)
Definition float_fmod (x y : spec_float) : spec_float :=
  match x, y with
  | S754_nan, _ | _, S754_nan | S754_infinity _, _ | _, S754_zero _ => S754_nan
  | S754_zero _, _ | S754_finite _ _ _, S754_infinity _ => x
  | S754_finite sx mx ex, S754_finite _ my ey =>
      let e := Z.min ex ey in
      let r := Z.rem (signed sx mx * 2 ^ (ex - e)) (Z.pos my * 2 ^ (ey - e)) in
      binary_normalize prec emax r e sx
  end.

(** C's [floor(x)]. *)
Definition float_floor (x : spec_float) : spec_float :=
  match x with
  | S754_finite s m e =>
      if 0 <=? e then x
      else binary_normalize prec emax (signed s m / 2 ^ (- e)) 0 false
  | _ => x
  end.

(** [int(x)] for a float: towards zero. *)
Definition int_of_float (x : spec_float) : outcome Z :=
  match x with
  | S754_zero _ => Ok 0
  | S754_finite s m e =>
      Ok (if 0 <=? e then signed s m * 2 ^ e
          else Z.quot (signed s m) (2 ^ (- e)))
  | S754_infinity _ => Raised OverflowError
  | S754_nan => Raised ValueError
  end.

Definition float_sign (x : spec_float) : bool :=
  match x with
  | S754_zero s | S754_infinity s | S754_finite s _ _ => s
  | S754_nan => false
  end.

(** [x != 0.0] and [x < 0.0] in C. *)
Definition float_nonzero (x : spec_float) : bool :=
  negb (SFeqb x (S754_zero false)).

Definition float_negative (x : spec_float) : bool :=
  SFltb x (S754_zero false).

(** [vx // wx] on floats, as CPython computes it: the quotient of
    [vx - fmod(vx, wx)] by [wx], one less when the remainder and the
    divisor differ in sign, then snapped to the nearest whole number. *)
Definition float_floordiv (vx wx : spec_float) : outcome spec_float :=
  if SFeqb wx (S754_zero false) then Raised ZeroDivisionError
  else
    let md := float_fmod vx wx in
    let div := SFdiv prec emax (SFsub prec emax vx md) wx in
    let div :=
      if float_nonzero md
         && negb (eqb (float_negative wx) (float_negative md))
      then SFsub prec emax div (float_of_Z 1) else div in
    if float_nonzero div then
      let floordiv := float_floor div in
      if SFltb (SFdiv prec emax (float_of_Z 1) (float_of_Z 2))
               (SFsub prec emax div floordiv)
      then Ok (SFadd prec emax floordiv (float_of_Z 1)) else Ok floordiv
    else Ok (S754_zero (float_sign (SFdiv prec emax vx wx))).

(** [a * b] *)
Definition num_mul (a b : pynum) : outcome pynum :=
  match a, b with
  | PInt m, PInt n => Ok (PInt (m * n))
  | PInt m, PFloat y =>
      and_then (float_of_int m) (λ x, Ok (PFloat (SFmul prec emax x y)))
  | PFloat x, PInt n =>
      and_then (float_of_int n) (λ y, Ok (PFloat (SFmul prec emax x y)))
  | PFloat x, PFloat y => Ok (PFloat (SFmul prec emax x y))
  end.

(** [a // b] *)
Definition num_floordiv (a b : pynum) : outcome pynum :=
  match a, b with
  | PInt m, PInt n =>
      if n =? 0 then Raised ZeroDivisionError else Ok (PInt (m / n))
  | PInt m, PFloat y =>
      and_then (float_of_int m) (λ x,
        and_then (float_floordiv x y) (λ q, Ok (PFloat q)))
  | PFloat x, PInt n =>
      and_then (float_of_int n) (λ y,
        and_then (float_floordiv x y) (λ q, Ok (PFloat q)))
  | PFloat x, PFloat y => and_then (float_floordiv x y) (λ q, Ok (PFloat q))
  end.

(** [x == n] for a float and an int: the values are compared exactly. *)
Definition float_eq_int (x : spec_float) (n : Z) : bool :=
  match x with
  | S754_zero _ => n =? 0
  | S754_finite s m e =>
      if 0 <=? e then signed s m * 2 ^ e =? n
      else signed s m =? n * 2 ^ (- e)
  | _ => false
  end.

(** [a == b] *)
Definition num_eqb (a b : pynum) : bool :=
  match a, b with
  | PInt m, PInt n => m =? n
  | PInt n, PFloat x | PFloat x, PInt n => float_eq_int x n
  | PFloat x, PFloat y => SFeqb x y
  end.

(** [timedelta(days=x)] for a whole number [x], the only numbers that
    [//] returns: the days it holds, at most [MAX_DELTA_DAYS] either
    way. *)
Definition MAX_DELTA_DAYS : Z := 999999999.

Definition timedelta (days : pynum) : outcome Z :=
  and_then (match days with PInt n => Ok n | PFloat x => int_of_float x end)
    (λ n, if Z.abs n <=? MAX_DELTA_DAYS then Ok n else Raised OverflowError).

(** *** Firestore operations *)

(** [db.collection("Jobs").where("moreInfoLink", "==", url).limit(1).stream()] *)
Definition where_moreInfoLink_limit_1 (E : env) (url : string)
    : M (list (string * dict)) :=
  emit (EvExists url);;
  if query_raises E url then raise FirestoreError
  else
    docs ← get_jobs;
    mret (take 1 (filter (λ doc, doc.2 !! "moreInfoLink" = Some (PStr url))
                         (map_to_list docs))).

(** [db.collection("Jobs").add(job_data)]; the store picks the id. *)
Definition add (E : env) (url : string) (job_data : dict) : M unit :=
  emit (EvAdd url job_data);;
  if add_raises E job_data then raise FirestoreError
  else modify_jobs (λ js, <[auto_id E js := job_data]> js).

(** [doc.reference.delete()] *)
Definition delete_doc (E : env) (doc_id : string) : M unit :=
  if delete_raises E doc_id then raise FirestoreError
  else modify_jobs (delete doc_id).

(** *** Dedup helper *)

Definition job_exists_for_url (E : env) (url : string) : M bool :=
  try_catch
    (query ← where_moreInfoLink_limit_1 E url;
     match query with
     | _ :: _ => mret true
     | [] => mret false
     end)
    (λ _, mret false).

(** *** Notification *)

Definition post (E : env) (job : dict) : M Z :=
  emit (EvNotify job);;
  match requests_post E job with
  | Some status => mret status
  | None => raise RequestError
  end.

Definition send_onesignal_notification_for_job (E : env) (job : dict)
    : M bool :=
  try_catch
    (status ← post E job;
     if decide (status = 200 ∨ status = 201 ∨ status = 202)
     then mret true else mret false)
    (λ _, mret false).

(** *** Processed URL storage *)

(** The text of the file: every entry written is followed by a line
    feed. *)
Definition file_text (entries : list string) : string :=
  foldr (λ entry text, entry +:+ String LF text) "" entries.

(** The set read back from the lines of the file: stripped, blanks
    dropped. *)
Definition processed_set (entries : list string) : gset string :=
  list_to_set (filter (λ u, u ≠ "")
                 (strip <$> readlines false "" (file_text entries))).

Definition load_processed_urls : M (gset string) := λ w,
  (Ok (processed_set (processed_urls_file w)), w).

(** [f.write(url.strip() + "\n")]: one more entry. *)
Definition append_processed_url (url : string) : M unit := λ w,
  (Ok (), mkworld (jobs w) (processed_urls_file w ++ [strip url])
                  (trace w ++ [EvSeen url])).

(** *** Delete old jobs *)

(** A naive [datetime]: the ordinal of its date and the microseconds
    elapsed since midnight. *)
Record datetime := mkdatetime { dt_ordinal : Z; dt_micros : Z }.

(** What [strptime] returns for a date-only format: midnight. *)
Definition datetime_of_date (d : Py.date) : datetime :=
  mkdatetime (toordinal d) 0.

(** [t - delta] for a [timedelta] of whole days: the result must lie in
    the years 1 to 9999. *)
Definition sub_days (t : datetime) (days : Z) : outcome datetime :=
  let ordinal := dt_ordinal t - days in
  if (1 <=? ordinal) && (ordinal <=? toordinal date_max)
  then Ok (mkdatetime ordinal (dt_micros t))
  else Raised OverflowError.

Definition dt_lt (a b : datetime) : Prop :=
  dt_ordinal a < dt_ordinal b
  ∨ (dt_ordinal a = dt_ordinal b ∧ dt_micros a < dt_micros b).

#[global] Instance dt_lt_dec : RelDecision dt_lt.
Proof. intros a b. unfold dt_lt. apply _. Defined.

(** [90 * months // 3 if months != 3 else 90] *)
Definition horizon_days (months : pynum) : outcome pynum :=
  if negb (num_eqb months (PInt 3))
  then and_then (num_mul (PInt 90) months)
         (λ product, num_floordiv product (PInt 3))
  else Ok (PInt 90).

(** [datetime.now() - timedelta(days=...)], computed before the [try]. *)
Definition compute_cutoff (now : datetime) (months : pynum)
    : outcome datetime :=
  and_then (horizon_days months) (λ days,
  and_then (timedelta days) (sub_days now)).

(** The default of the parameter: [months: int = 1.5]. *)
Definition default_months : pynum := float_literal 15 10.

(** [s.strip()] on a value that may be [None]. *)
Definition method_strip (v : pyval) : M string :=
  match v with
  | PStr s => mret (strip s)
  | PNone => raise AttributeError
  end.

(** Body of [for doc in docs]. *)
Definition delete_if_old (E : env) (cutoff : datetime) (doc : string * dict)
    : M unit :=
  dp ← method_strip (get_or doc.2 "date-posted" "");
  if decide (dp = "") then mret ()
  else
    match strptime_ymd dp with
    | None => mret ()
    | Some d =>
        if decide (dt_lt (datetime_of_date d) cutoff)
        then try_catch (delete_doc E doc.1) (λ _, mret ())
        else mret ()
    end.

(** [db.collection("Jobs").stream()] without an ordering: the documents
    in the order of their ids. *)
Definition by_id (a b : string * dict) : Prop := String.le a.1 b.1.

#[global] Instance by_id_dec : RelDecision by_id.
Proof. intros a b. unfold by_id. apply _. Defined.

Definition stream (docs : collection) : list (string * dict) :=
  merge_sort by_id (map_to_list docs).

Definition delete_old_jobs (E : env) (months : pynum) (now : datetime)
    : M unit :=
  cutoff ← lift (compute_cutoff now months);
  try_catch
    (docs ← get_jobs;
     for_each (stream docs) (delete_if_old E cutoff))
    (λ _, mret ()).

(** *** Main flow: the admission loop *)

Definition scrape (E : env) (url : string) (f : env → string → option dict)
    : M (option dict) :=
  emit (EvScrape url);; mret (f E url).

(** The company check of [main]. *)
Definition company_val (job_data : dict) : string :=
  strip (or_empty (get job_data "company")).

Definition company_missing (job_data : dict) : Prop :=
  company_val job_data = "" ∨ upper (company_val job_data) = "N/A".

#[global] Instance company_missing_dec j : Decision (company_missing j).
Proof. unfold company_missing. apply _. Defined.

(** From the write to the mark: the last [try] of the loop body. *)
Definition insert_and_notify (E : env) (url : string) (job_data : dict)
    : M unit :=
  try_catch
    (add E url job_data;;
     try_catch
       (sent ← send_onesignal_notification_for_job E job_data; mret ())
       (λ _, mret ());;
     append_processed_url url)
    (λ _, mret ()).

(** After the scraper has returned. *)
Definition validate_and_insert (E : env) (url : string)
    (job_data : option dict) : M unit :=
  match job_data with
  | None => append_processed_url url
  | Some data =>
      if decide (data = ∅) then append_processed_url url
      else if decide (company_missing data) then append_processed_url url
      else insert_and_notify E url data
  end.

(** The [if]/[elif] on the domain: which scraper handles [url]. *)
Definition scraper_for (url : string) : option (env → string → option dict) :=
  if contains "fresheropenings.com" url
  then Some scrape_job_data_fresheropenings
  else if contains "freshersrecruitment.co.in" url
  then Some scrape_job_data_freshers_recruitment
  else None.

(** One iteration of [for url in new_urls]. *)
Definition process_url (E : env) (url : string) : M unit :=
  found ← job_exists_for_url E url;
  if found : bool then append_processed_url url
  else
    match scraper_for url with
    | Some f => scrape E url f ≫= validate_and_insert E url
    | None => append_processed_url url
    end.

(** The part of [main] that follows the reading of the channel: filter
    against the processed URLs, then the loop. *)
Definition admission (E : env) (all_urls : list string) : M unit :=
  if decide (all_urls = []) then mret ()
  else
    processed ← load_processed_urls;
    let new_urls := filter (λ u, u ∉ processed) all_urls in
    if decide (new_urls = []) then mret ()
    else for_each new_urls (process_url E).

(** [main]: the daily cleanup with [months = 3], then the admission of
    what the channel delivered ([None] when the dialog is not
    resolved). *)
Definition main (E : env) (now : datetime) (channel : option (list string))
    : M unit :=
  delete_old_jobs E (PInt 3) now;;
  match channel with
  | None => mret ()
  | Some all_urls => admission E all_urls
  end.

End Scraper.

(** ** Vocabulary of the specification, read off the code *)

Module Spec.
Import Cleanup Scraper.

(** The [sourceLink] of a record is the link the purge groups by: the
    [moreInfoLink] field as the first loop of [Cleanup.main] reads it. *)
Definition sourceLink (data : dict) : string :=
  moreInfoLink (mk_info 0 ("", data)).

(** The [datePosted] of a record, when it parses. *)
Definition datePosted (data : dict) : option Py.date :=
  date (mk_info 0 ("", data)).

(** The recency rule on the day [now]. *)
Definition recent (now : Py.date) (data : dict) : bool :=
  is_recent (mk_info (cutoff_recent now) ("", data)).

(** The sort key the purge gives a stored record. *)
Definition doc_key (doc : string * dict) : Z * string :=
  sort_key (mk_info 0 doc).

Definition key_lt (a b : Z * string) : Prop := key_le a b ∧ a ≠ b.

(** A record loses its duplicate group: another record that the recency
    rule spares carries the same non-empty link and sorts before it. *)
Definition outranked (now : Py.date) (jobs : collection)
    (i : string) (data : dict) : Prop :=
  recent now data = false ∧ sourceLink data ≠ "" ∧
  ∃ j data', jobs !! j = Some data' ∧ recent now data' = false ∧
    sourceLink data' = sourceLink data ∧
    key_lt (doc_key (j, data')) (doc_key (i, data)).

(** The age rule of [delete_old_jobs]: the date parses and its midnight
    is strictly before the cutoff. *)
Definition older_than (cutoff : datetime) (data : dict) : Prop :=
  match datePosted data with
  | Some d => dt_lt (datetime_of_date d) cutoff
  | None => False
  end.

#[global] Instance older_than_dec cutoff data : Decision (older_than cutoff data).
Proof. unfold older_than. destruct (datePosted data); apply _. Defined.

(** An event is a gate query, a scrape or a store write for [u]. *)
Definition concerns (u : string) (ev : event) : Prop :=
  match ev with
  | EvExists x | EvScrape x | EvAdd x _ => x = u
  | EvNotify _ | EvSeen _ => False
  end.

(** The world with its collection replaced, and with one more event. *)
Definition set_jobs (w : world) (J : collection) : world :=
  mkworld J (processed_urls_file w) (trace w).

Definition add_event (w : world) (ev : event) : world :=
  mkworld (jobs w) (processed_urls_file w) (trace w ++ [ev]).

(** [w'] is [w] with [url] marked in the Local Seen-Set. *)
Definition marked_seen (w w' : world) (url : string) : Prop :=
  processed_urls_file w' = processed_urls_file w ++ [strip url].

(** An event of the iteration that handles [url]. *)
Definition event_of (url : string) (ev : event) : Prop :=
  match ev with
  | EvExists x | EvScrape x | EvAdd x _ | EvSeen x => x = url
  | EvNotify _ => True
  end.

Definition is_notify (ev : event) : bool :=
  match ev with EvNotify _ => true | _ => false end.

(** Names for the intermediate values of [Cleanup.main] on a
    collection: the info list, the recent ids, and the list appended
    under one link. *)
Definition infos_of (now : Py.date) (jobs : collection) : list info :=
  info_list (cutoff_recent now) (map_to_list jobs).

Definition recent_ids (now : Py.date) (jobs : collection) : gset string :=
  recent_delete_ids (infos_of now jobs).

Definition group_of (recent : gset string) (infos : list info) (L : string)
    : list info :=
  filter (λ i, (info_id i ∉ recent) ∧ moreInfoLink i = L) infos.

End Spec.

(** ** Concrete inputs: the scenarios of the specification *)

Module Examples.
Import Cleanup Scraper.

Definition job_doc (link posted : string) : dict :=
  {[ "moreInfoLink" := PStr link; "date-posted" := PStr posted ]}.

(** Three records for the link [L], one of today for [M], on 2024-03-10. *)
Definition today : Py.date := mkdate 2024 3 10.

Definition store : collection :=
  {[ "id1" := job_doc "L" "2024-01-01"; "id2" := job_doc "L" "2024-01-05";
     "id3" := job_doc "L" "unknown"; "id4" := job_doc "M" "2024-03-10" ]}.

Definition deletes_succeed : string → bool := λ _, false.

(** One page of a supported domain and what its scraper returns. *)
Definition page : string := "https://fresheropenings.com/a".

Definition scraped (company : string) : dict :=
  {[ "company" := PStr company; "moreInfoLink" := PStr page;
     "date-posted" := PStr "2024-03-10" ]}.

(** An outside world: the company the scraper finds, whether the store
    write fails, and what the notification POST answers. *)
Definition outside (company : string) (write_fails : bool)
    (status : option Z) : env :=
  mkenv (λ _, false) (λ _, Some (scraped company)) (λ _, None)
        (λ _, write_fails) (λ _, "new-id") (λ _, status) (λ _, false).

Definition fresh_world : world := mkworld ∅ [] [].

(** The world whose collection is [store]. *)
Definition store_world : world := mkworld store [] [].

(** The page has been handled in an earlier run. *)
Definition seen_world : world := mkworld ∅ [page] [].

(** 2024-03-01 at noon, sixty days after the record of 2024-01-01. *)
Definition march_first_noon : datetime :=
  mkdatetime (toordinal (mkdate 2024 3 1)) 43200000000.

Definition aged_world : world :=
  mkworld {[ "jan" := job_doc "L" "2024-01-01";
             "feb" := job_doc "M" "2024-02-20";
             "odd" := job_doc "N" "soon" ]} [] [].

End Examples.

(** ** More of [harbour_scraper.py]: text helpers *)

Module Text.

(** [str.lower()] on the letters A..Z; no other character of the range
    lower-cases to a letter a..z, and the only use made of it is to look
    for words written with these. *)
Definition lower_char (c : ascii) : ascii :=
  let n := N_of_ascii c in
  if ((65 <=? n) && (n <=? 90))%N then ascii_of_N (n + 32) else c.

Fixpoint lower (s : string) : string :=
  match s with
  | EmptyString => EmptyString
  | String c s' => String (lower_char c) (lower s')
  end.

(** [l] without the prefix [p], when it has it. *)
Fixpoint strip_prefix (p l : list ascii) : option (list ascii) :=
  match p, l with
  | [], _ => Some l
  | a :: p', b :: l' => if Ascii.eqb a b then strip_prefix p' l' else None
  | _ :: _, [] => None
  end.

Definition chars (s : string) : list ascii := String.list_ascii_of_string s.

(** No character of [s] is white space. *)
Fixpoint no_space (s : string) : bool :=
  match s with
  | EmptyString => true
  | String c s' => negb (is_space c) && no_space s'
  end.

(** No character of [s] ends a line. *)
Fixpoint no_newline (s : string) : bool :=
  match s with
  | EmptyString => true
  | String c s' => negb (Ascii.eqb c LF || Ascii.eqb c CR) && no_newline s'
  end.

(** *** [URL_REGEX = re.compile(r"https?://[^\s]+")]

    A match starts where the text reads [http://] or [https://]
    followed by a character that is not white space, and runs up to the
    next white space. *)
Definition scheme_then_char (scheme : string) (s : string) : bool :=
  match strip_prefix (chars scheme) (chars s) with
  | Some (c :: _) => negb (is_space c)
  | _ => false
  end.

Definition starts_url (s : string) : bool :=
  scheme_then_char "http://" s || scheme_then_char "https://" s.

(** [URL_REGEX.findall(text)]: [cur] is the match being read, reversed. *)
Fixpoint scan_urls (cur : option string) (s : string) : list string :=
  match s with
  | EmptyString =>
      match cur with Some m => [String.rev m] | None => [] end
  | String c s' =>
      match cur with
      | Some m =>
          if is_space c then String.rev m :: scan_urls None s'
          else scan_urls (Some (String c m)) s'
      | None =>
          if starts_url s then scan_urls (Some (String c EmptyString)) s'
          else scan_urls None s'
      end
  end.

Definition findall_urls (text : string) : list string := scan_urls None text.

(** *** [strftime("%Y-%m-%d")]

    The year is written on four digits, which is what every platform
    prints for the years from 1000 on. *)
Definition digit_char (n : Z) : ascii := ascii_of_N (Z.to_N (48 + n mod 10)).

Definition pad2 (n : Z) : string :=
  String (digit_char (n / 10)) (String (digit_char n) EmptyString).

Definition pad4 (n : Z) : string :=
  String (digit_char (n / 1000)) (String (digit_char (n / 100)) (pad2 n)).

Definition strftime_ymd (d : date) : string :=
  pad4 (year d) +:+ "-" +:+ pad2 (month d) +:+ "-" +:+ pad2 (day d).

(** *** The date pattern of [extract_post_date] and [strptime("%B %d, %Y")] *)

Definition MONTHS : list string :=
  ["January"; "February"; "March"; "April"; "May"; "June"; "July";
   "August"; "September"; "October"; "November"; "December"].

(** The month name that starts [l], with its number and what follows;
    [fold] is applied to the text before comparing (the identity for
    the case-sensitive search, [lower] for [strptime]). *)
Fixpoint eat_month_from (fold : string → string) (names : list string)
    (number : Z) (l : list ascii) : option (Z * list ascii) :=
  match names with
  | [] => None
  | name :: names' =>
      let n := String.length name in
      if decide (fold (String.string_of_list_ascii (take n l)) = fold name)
      then Some (number, drop n l)
      else eat_month_from fold names' (number + 1) l
  end.

Definition eat_month (fold : string → string) (l : list ascii)
    : option (Z * list ascii) :=
  eat_month_from fold MONTHS 1 l.

Fixpoint eat_spaces (l : list ascii) : list ascii :=
  match l with
  | c :: l' => if is_space c then eat_spaces l' else l
  | [] => []
  end.

(** [\s+] *)
Definition spaces1 (l : list ascii) : option (list ascii) :=
  match l with
  | c :: l' => if is_space c then Some (eat_spaces l') else None
  | [] => None
  end.

Definition is_digit (c : ascii) : bool :=
  match digit c with Some _ => true | None => false end.

(** [\d{1,2},] *)
Definition eat_day (l : list ascii) : option (list ascii * list ascii) :=
  match l with
  | a :: ","%char :: r => if is_digit a then Some ([a], r) else None
  | a :: b :: ","%char :: r =>
      if is_digit a && is_digit b then Some ([a; b], r) else None
  | _ => None
  end.

(** [\d{4}] *)
Definition eat_year (l : list ascii) : option (list ascii * list ascii) :=
  match l with
  | a :: b :: c :: e :: r =>
      if is_digit a && is_digit b && is_digit c && is_digit e
      then Some ([a; b; c; e], r) else None
  | _ => None
  end.

(** Month name, white space, one or two digits, a comma, white space,
    four digits: the tokens and the rest of the text. *)
Definition date_tokens (fold : string → string) (l : list ascii)
    : option (Z * list ascii * list ascii * list ascii) :=
  '(m, l1) ← eat_month fold l;
  l2 ← spaces1 l1;
  '(dd, l3) ← eat_day l2;
  l4 ← spaces1 l3;
  '(yyyy, rest) ← eat_year l4;
  Some (m, dd, yyyy, rest).

(** [re.search(rf"{MONTH_RE}\s+\d{{1,2}},\s+\d{{4}}", text)]: the text of
    the leftmost match. *)
Fixpoint search_date (l : list ascii) : option string :=
  match date_tokens (λ s, s) l with
  | Some (_, _, _, rest) =>
      Some (String.string_of_list_ascii (take (length l - length rest) l))
  | None =>
      match l with
      | [] => None
      | _ :: l' => search_date l'
      end
  end.

Definition number_of (digits : list ascii) : Z :=
  foldl (λ n c, 10 * n + default 0 (digit c)) 0 digits.

(** [datetime.strptime(s, "%B %d, %Y")]: month names in any letter case,
    the day as [%d] reads it, the whole string consumed, a real date. *)
Definition strptime_B_d_Y (s : string) : option date :=
  match date_tokens lower (chars s) with
  | Some (m, dd, yyyy, []) =>
      d ← parse_day dd;
      let r := mkdate (number_of yyyy) m d in
      if valid_date r then Some r else None
  | _ => None
  end.

End Text.

(** ** Dates of the specification, read off the date format *)

Module SpecDates.
Import Cleanup Scraper Text.

(** The texts that [%Y-%m-%d] reads as a month or a day number: two
    digits, or one digit for a number below ten, which for a day may
    follow a blank. *)
Definition one_digit (n : Z) : string := String (digit_char n) "".

Definition month_texts (m : Z) : list string :=
  if m <? 10 then [pad2 m; one_digit m] else [pad2 m].

Definition day_texts (d : Z) : list string :=
  if d <? 10 then [pad2 d; one_digit d; " " +:+ one_digit d] else [pad2 d].

(** The texts of a date: the year on four digits, the month and the
    day, with a hyphen between them. *)
Definition date_texts (d : Py.date) : list string :=
  ms ← month_texts (month d);
  ds ← day_texts (day d);
  [pad4 (year d) +:+ "-" +:+ ms +:+ "-" +:+ ds].

(** The record was posted on the date [d]: its [date-posted] is a text
    of [d], white space around it apart. *)
Definition posted_on (data : dict) (d : Py.date) : Prop :=
  valid_date d = true
  ∧ ∃ s, data !! "date-posted" = Some (PStr s) ∧ strip s ∈ date_texts d.

(** The date of the record is unknown: missing, null or no text of a
    date. *)
Definition unknown_date (data : dict) : Prop := ∀ d, ¬ posted_on data d.

(** The recency rule on the day [now]: posted on or after [now] minus
    two days. *)
Definition under_recency_rule (now : Py.date) (data : dict) : Prop :=
  ∃ d, posted_on data d ∧ toordinal now - 2 ≤ toordinal d.

(** The ordering of the specification on records: by [(datePosted, id)],
    every record with an unknown date after every record with a known
    one. *)
Definition earliest_first (a b : string * dict) : Prop :=
  (∃ da, posted_on a.2 da
     ∧ ((∃ db, posted_on b.2 db
           ∧ (ymd_lt da db ∨ (da = db ∧ String.le a.1 b.1)))
        ∨ unknown_date b.2))
  ∨ (unknown_date a.2 ∧ unknown_date b.2 ∧ String.le a.1 b.1).

(** The age rule: posted on a date whose midnight is strictly before the
    cutoff. *)
Definition aged_out (cutoff : datetime) (data : dict) : Prop :=
  ∃ d, posted_on data d ∧ dt_lt (datetime_of_date d) cutoff.

End SpecDates.

(** ** [harbour_scraper.py]: reading the channel *)

Module Channel.
Import Text Scraper.

Definition TARGET_DOMAINS : list string :=
  ["fresheropenings.com"; "freshersrecruitment.co.in"].

(** A dialog of the account: its id and its name, which may be [None]. *)
Record dialog := mkdialog { dialog_id : Z; dialog_name : pyval }.

Definition is_fuzzy (lname : string) : bool :=
  contains "fresher" lname && contains "job" lname.

Definition is_strong (lname : string) : bool :=
  contains "fresher" lname && contains "job" lname
  && (contains "opening" lname || contains "openings" lname).

(** The loop of [resolve_target_dialog]: the strong match it breaks on,
    if any, and the fuzzy candidates collected until then. *)
Fixpoint scan_dialogs (fuzzy_candidates : list dialog) (dialogs : list dialog)
    : option dialog * list dialog :=
  match dialogs with
  | [] => (None, fuzzy_candidates)
  | d :: rest =>
      let name := or_empty (dialog_name d) in
      if decide (name = "") then scan_dialogs fuzzy_candidates rest
      else
        let lname := lower name in
        if is_strong lname then (Some d, fuzzy_candidates)
        else if is_fuzzy lname
        then scan_dialogs (fuzzy_candidates ++ [d]) rest
        else scan_dialogs fuzzy_candidates rest
  end.

Definition resolve_target_dialog (dialogs : list dialog) : option dialog :=
  match scan_dialogs [] dialogs with
  | (Some strong_match, _) => Some strong_match
  | (None, [chosen]) => Some chosen
  | (None, _) => None
  end.

(** Body of [for match in URL_REGEX.findall(text)]. *)
Definition keep_target (urls : gset string) (found : string) : gset string :=
  let url := strip found in
  if existsb (λ domain, contains domain url) TARGET_DOMAINS
  then urls ∪ {[url]} else urls.

(** Body of [async for msg in client.iter_messages(...)]; the text of a
    message may be [None]. *)
Definition scan_message (urls : gset string) (message : pyval) : gset string :=
  match message with
  | PNone => urls
  | PStr text =>
      if decide (text = "") then urls
      else foldl keep_target urls (findall_urls text)
  end.

(** [fetch_job_urls_from_group]: [messages] are the messages the
    iteration delivers and [raises] tells whether it then raises. *)
Definition fetch_job_urls_from_group (messages : list pyval) (raises : bool)
    : list string :=
  if raises then []
  else elements (foldl scan_message ∅ messages).

(** [main] with the reading of the channel spelled out: [dialogs] are
    the dialogs of the account, and [messages d] and [raises d] what
    iterating over the dialog [d] delivers. *)
Definition main (E : env) (now : datetime) (dialogs : list dialog)
    (messages : dialog → list pyval) (raises : dialog → bool) : M unit :=
  Scraper.main E now
    ((λ d, fetch_job_urls_from_group (messages d) (raises d))
       <$> resolve_target_dialog dialogs).

End Channel.

(** ** [harbour_scraper.py]: fetching and finishing a page *)

Module Pages.
Import Text Scraper.

Record response := mkresponse { status_code : Z; content : string }.

(** The two entries of [headers_list], by position. *)
Definition headers_list : list nat := [0%nat; 1%nat].

(** The loop of [fetch_page]: [session_get url h] is the answer to the
    request with header set [h], [None] when it raises.  The result comes
    with the header sets that were tried. *)
Fixpoint try_headers (session_get : string → nat → option response)
    (url : string) (headers : list nat) : option response * list nat :=
  match headers with
  | [] => (None, [])
  | h :: rest =>
      match session_get url h with
      | Some resp =>
          if status_code resp =? 200 then (Some resp, [h])
          else
            let '(r, tried) := try_headers session_get url rest in
            (r, h :: tried)
      | None =>
          let '(r, tried) := try_headers session_get url rest in
          (r, h :: tried)
      end
  end.

Definition fetch_page (session_get : string → nat → option response)
    (url : string) : option response * list nat :=
  try_headers session_get url headers_list.

(** What a scraper reads off the parsed page: the four fields of its
    label matching when it finds them, the description and the apply
    link it settles on, and the text nodes of the page, in document
    order. *)
Record soup := mksoup {
  found_company : option string;
  found_job_title : option string;
  found_experience : option string;
  found_location : option string;
  found_desc : string;
  found_apply_link : string;
  strings : list string
}.

(** [extract_post_date]: [now] is today's date. *)
Definition extract_post_date (page : soup) (now : date) : string :=
  let date_str :=
    list_find (λ m, is_Some m) (search_date ∘ chars <$> strings page) in
  match date_str with
  | Some (_, Some s) =>
      match strptime_B_d_Y s with
      | Some dt => strftime_ymd dt
      | None => strftime_ymd now
      end
  | _ => strftime_ymd now
  end.

Definition set_found (k : string) (v : option string) (job_data : dict) : dict :=
  match v with
  | Some s => <[k := PStr s]> job_data
  | None => job_data
  end.

(** [job_data] as the label matching leaves it. *)
Definition extracted (date_posted : string) (page : soup) : dict :=
  <["apply-link" := PStr (found_apply_link page)]>
    (<["desc" := PStr (found_desc page)]>
       (set_found "location" (found_location page)
          (set_found "experience" (found_experience page)
             (set_found "job-title" (found_job_title page)
                (set_found "company" (found_company page)
                   {[ "date-posted" := PStr date_posted ]}))))).

Definition defaults : list (string * string) :=
  [("company", "N/A"); ("job-title", "N/A"); ("experience", "N/A");
   ("location", "N/A"); ("apply-link", "N/A"); ("desc", "N/A")].

(** [not v] on a string or [None]. *)
Definition falsy (v : pyval) : bool :=
  match v with
  | PNone => true
  | PStr s => if decide (s = "") then true else false
  end.

Definition apply_default (job_data : dict) (entry : string * string) : dict :=
  if falsy (get job_data entry.1) then <[entry.1 := PStr entry.2]> job_data
  else job_data.

(** How an f-string renders a value. *)
Definition format_value (v : pyval) : string :=
  match v with PStr s => s | PNone => "None" end.

(** From [job_data["moreInfoLink"] = url] to the [return]. *)
Definition finish (url : string) (job_data : dict) : dict :=
  let job_data := <["moreInfoLink" := PStr url]> job_data in
  let job_data := foldl apply_default job_data defaults in
  <["title" := PStr (format_value (get_or job_data "company" "N/A")
                     +:+ " | "
                     +:+ format_value (get_or job_data "job-title" "N/A"))]>
    job_data.

(** The outside of the scrapers: the HTTP answers, what the parsing and
    the label matching of each scraper make of the content of a
    response, and today's date. *)
Record web := mkweb {
  session_get : string → nat → option response;
  read_fresheropenings : string → soup;
  read_freshers_recruitment : string → soup;
  today : date
}.

Definition scrape_job_data_fresheropenings (W : web) (url : string)
    : option dict :=
  match (fetch_page (session_get W) url).1 with
  | None => None
  | Some resp =>
      if negb (status_code resp =? 200) then None
      else
        let page := read_fresheropenings W (content resp) in
        Some (finish url (extracted (strftime_ymd (today W)) page))
  end.

Definition scrape_job_data_freshers_recruitment (W : web) (url : string)
    : option dict :=
  match (fetch_page (session_get W) url).1 with
  | None => None
  | Some resp =>
      if negb (status_code resp =? 200) then None
      else
        let page := read_freshers_recruitment W (content resp) in
        Some (finish url (extracted (extract_post_date page (today W)) page))
  end.

(** *** What [send_onesignal_notification_for_job] sends *)

(** [a or b] on strings and [None]. *)
Definition py_or (a b : pyval) : pyval := if falsy a then b else a.

(** [job.get("apply-link") or job.get("moreInfoLink") or "#"] *)
Definition apply_link (job : dict) : pyval :=
  py_or (py_or (get job "apply-link") (get job "moreInfoLink")) (PStr "#").

(** [f"{company_name} has openings for {title}. Click now to apply!"] *)
Definition notification_message (job : dict) : string :=
  format_value (get_or job "company" "Unknown Company")
  +:+ " has openings for "
  +:+ format_value (get_or job "job-title" "Job Opening")
  +:+ ". Click now to apply!".

(** The environment of the admission loop whose scrapers are the two
    functions above. *)
Definition with_scrapers (W : web) (E : env) : env :=
  mkenv (query_raises E)
        (λ url, scrape_job_data_fresheropenings W url)
        (λ url, scrape_job_data_freshers_recruitment W url)
        (add_raises E) (auto_id E) (requests_post E) (delete_raises E).

End Pages.

(** ** Vocabulary for whole runs *)

Module Runs.
Import Cleanup Scraper Spec Text Channel Pages.

(** What must come right before an event of the admission loop: a scrape
    follows the gate query for the same URL, which has a scraper; a write
    follows the scrape of its URL and carries what the scraper returned,
    with a company; a notification follows a write of the same record
    that went through. *)
Definition requires (E : env) (ev : event) (before : list event) : Prop :=
  match ev with
  | EvScrape url =>
      (∃ pre, before = pre ++ [EvExists url]) ∧ scraper_for url ≠ None
  | EvAdd url job =>
      (∃ pre, before = pre ++ [EvExists url; EvScrape url])
      ∧ (∃ f, scraper_for url = Some f ∧ f E url = Some job)
      ∧ ¬ company_missing job
  | EvNotify job =>
      (∃ pre url, before = pre ++ [EvAdd url job])
      ∧ add_raises E job = false
  | EvExists _ | EvSeen _ => True
  end.

Definition in_order (E : env) (evs : list event) : Prop :=
  ∀ n ev, evs !! n = Some ev → requires E ev (take n evs).

(** The label matching found no usable company on the page: none, a
    blank one, or the placeholder. *)
Definition no_company (page : soup) : Prop :=
  match found_company page with
  | None => True
  | Some c => strip c = "" ∨ upper (strip c) = "N/A"
  end.

(** The request for [url] with the header set [h] raises, or is answered
    with a status other than 200. *)
Definition request_fails (get : string → nat → option response)
    (url : string) (h : nat) : Prop :=
  ∀ r, get url h = Some r → status_code r ≠ 200.

(** What the scraper that handles [url] reads off a response. *)
Definition page_read (W : web) (url : string) (resp : response) : soup :=
  if contains "fresheropenings.com" url
  then read_fresheropenings W (content resp)
  else read_freshers_recruitment W (content resp).

(** The keys of the record a scraper returns. *)
Definition scraped_fields : list string :=
  ["company"; "job-title"; "experience"; "location"; "apply-link"; "desc"].

(** The two tests of [resolve_target_dialog] on a dialog. *)
Definition strong (d : dialog) : bool :=
  is_strong (lower (or_empty (dialog_name d))).

Definition fuzzy (d : dialog) : bool :=
  is_fuzzy (lower (or_empty (dialog_name d))).

(** A URL as [URL_REGEX] matches it, and one of a target domain. *)
Definition url_like (u : string) : Prop :=
  no_space u = true ∧ starts_url u = true.

Definition on_target (u : string) : Prop :=
  ∃ domain, domain ∈ TARGET_DOMAINS ∧ contains domain u = true.

(** Where a match can start and must end: at an end of the text or at
    white space. *)
Definition ends_with_space (s : string) : Prop :=
  s = "" ∨ ∃ p c, s = p +:+ String c "" ∧ is_space c = true.

Definition starts_with_space (s : string) : Prop :=
  s = "" ∨ ∃ c p, s = String c p ∧ is_space c = true.

End Runs.


(** ** Concrete inputs for the further properties *)

Module Scenarios.
Import Cleanup Scraper Text Channel Pages Examples.

(** A collection with a record whose [date-posted] is null, between two
    old records in the order of the ids. *)
Definition null_doc : dict :=
  {[ "moreInfoLink" := PStr "N"; "date-posted" := PNone ]}.

Definition null_world : world :=
  mkworld {[ "a" := job_doc "L" "2020-01-01"; "b" := null_doc;
             "c" := job_doc "M" "2020-01-02" ]} [] [].

(** Three records for one link whose ids are not in the order of their
    dates. *)
Definition shuffled_store : collection :=
  {[ "a" := job_doc "L" "2024-01-05"; "b" := job_doc "L" "2024-1-1";
     "c" := job_doc "L" "unknown" ]}.

(** A URL with a line feed in it. *)
Definition two_lines : string := "a" +:+ String LF "b".

(** 2024-03-31 at midnight and one second later: ninety days after
    2024-01-01. *)
Definition march_31_midnight : datetime :=
  mkdatetime (toordinal (mkdate 2024 3 31)) 0.

Definition march_31_one_second : datetime :=
  mkdatetime (toordinal (mkdate 2024 3 31)) 1000000.

(** 2024-03-11 at noon, twenty days after 2024-02-20. *)
Definition march_11_noon : datetime :=
  mkdatetime (toordinal (mkdate 2024 3 11)) 43200000000.

(** A store that already holds the page. *)
Definition known_world : world := mkworld {[ "old" := scraped "Acme" ]} [] [].

(** A site that answers the second header set only, and what the
    scrapers read off its pages. *)
Definition ok_response : response := mkresponse 200 "<html>".

Definition acme_page : soup :=
  mksoup (Some "Acme") (Some "Engineer") None None "N/A" "N/A"
         ["Posted on March 1, 2024"].

Definition bare_page : soup := mksoup None (Some "Engineer") None None "N/A" "N/A" [].

Definition site (read : soup) : web :=
  mkweb (λ _ h, match h with O => None | _ => Some ok_response end)
        (λ _, read) (λ _, read) Examples.today.

(** The record the first scraper builds from [acme_page]. *)
Definition acme_record : dict :=
  finish page (extracted "2024-03-10" acme_page).

(** A later state of the world: the record written for the page is still
    stored, beside another one, and the processed file is empty. *)
Definition later_world : world :=
  mkworld
    (<["other" := job_doc "M" "2024-01-01"]>
       (jobs (process_url (with_scrapers (site acme_page)
                             (outside "Acme" false (Some 200)))
                page fresh_world).2))
    [] [].

(** A message of the channel with the page in it. *)
Definition message : string := "New opening: " +:+ page +:+ " apply now".

(** Dialogs of the account. *)
Definition dialogs : list dialog :=
  [mkdialog 1 PNone; mkdialog 2 (PStr "Fresher Jobs");
   mkdialog 3 (PStr "Fresher Jobs Openings")].

End Scenarios.

(** * Properties *)

Import Cleanup Scraper Spec Examples Text SpecDates.

(** ** Dates: ordinals order dates as Python does *)

Section dates.

Lemma month_cases m : 1 ≤ m ≤ 12 →
  m = 1 ∨ m = 2 ∨ m = 3 ∨ m = 4 ∨ m = 5 ∨ m = 6 ∨ m = 7 ∨ m = 8 ∨ m = 9
  ∨ m = 10 ∨ m = 11 ∨ m = 12.
Proof. lia. Qed.

(** Case analysis on a month known to lie between 1 and 12. *)
Ltac each_month H :=
  destruct (month_cases _ H)
    as [->|[->|[->|[->|[->|[->|[->|[->|[->|[->|[->| ->]]]]]]]]]]].

Lemma days_before_month_table y m :
  1 ≤ m ≤ 13 →
  days_before_month y m
  = cumulative_days m + (if (3 <=? m) && is_leap y then 1 else 0).
Proof.
  intros Hm.
  assert (m = 1 ∨ m = 2 ∨ m = 3 ∨ m = 4 ∨ m = 5 ∨ m = 6 ∨ m = 7 ∨ m = 8
          ∨ m = 9 ∨ m = 10 ∨ m = 11 ∨ m = 12 ∨ m = 13) as Hc by lia.
  unfold days_before_month, days_in_month.
  destruct Hc as [->|[->|[->|[->|[->|[->|[->|[->|[->|[->|[->|[->| ->]]]]]]]]]]]];
    destruct (is_leap y); vm_compute; reflexivity.
Qed.

Lemma days_in_month_bounds y m : 28 ≤ days_in_month y m ≤ 31.
Proof. unfold days_in_month. repeat case_match; lia. Qed.

Lemma days_before_month_succ y m :
  1 ≤ m ≤ 12 →
  days_before_month y (m + 1) = days_before_month y m + days_in_month y m.
Proof.
  intros Hm. rewrite !days_before_month_table by lia.
  each_month Hm;
    unfold days_in_month; destruct (is_leap y); vm_compute; reflexivity.
Qed.

Lemma days_before_month_mono y m1 m2 :
  1 ≤ m1 → m1 < m2 → m2 ≤ 12 →
  days_before_month y m1 + days_in_month y m1 ≤ days_before_month y m2.
Proof.
  intros H1 Hlt H2.
  assert (Hk : ∃ k : nat, m2 = m1 + 1 + Z.of_nat k)
    by (exists (Z.to_nat (m2 - m1 - 1)); lia).
  destruct Hk as [k ->]. induction k as [|k IH].
  - rewrite Z.add_0_r, days_before_month_succ by lia. lia.
  - assert (m1 + 1 + Z.of_nat (S k) = (m1 + 1 + Z.of_nat k) + 1) as -> by lia.
    rewrite days_before_month_succ by lia.
    pose proof (days_in_month_bounds y (m1 + 1 + Z.of_nat k)).
    assert (days_before_month y m1 + days_in_month y m1
            ≤ days_before_month y (m1 + 1 + Z.of_nat k)) by (apply IH; lia).
    lia.
Qed.

Lemma days_before_year_succ y :
  days_before_year (y + 1) = days_before_year y + days_in_year y.
Proof.
  unfold days_before_year, days_in_year, is_leap.
  assert (y + 1 - 1 = y) as -> by lia.
  repeat match goal with |- context [?a =? ?b] => destruct (Z.eqb_spec a b) end;
    cbn [andb orb negb]; Z.div_mod_to_equations; lia.
Qed.

Lemma days_before_year_mono y1 y2 :
  y1 < y2 → days_before_year y1 + days_in_year y1 ≤ days_before_year y2.
Proof.
  intros Hlt.
  assert (Hk : ∃ k : nat, y2 = y1 + 1 + Z.of_nat k) by (exists (Z.to_nat (y2 - y1 - 1)); lia).
  destruct Hk as [k ->]. clear Hlt. induction k as [|k IH].
  - rewrite Z.add_0_r, days_before_year_succ. lia.
  - assert (y1 + 1 + Z.of_nat (S k) = (y1 + 1 + Z.of_nat k) + 1) as -> by lia.
    rewrite days_before_year_succ.
    assert (0 ≤ days_in_year (y1 + 1 + Z.of_nat k)) by (unfold days_in_year; case_match; lia).
    lia.
Qed.

Lemma day_of_year_bounds d :
  valid_date d = true →
  1 ≤ days_before_month (year d) (month d) + day d ≤ days_in_year (year d).
Proof.
  unfold valid_date. intros H.
  repeat (apply andb_prop in H as [H ?]).
  assert (1 ≤ month d ≤ 12) as Hm by lia.
  assert (1 ≤ day d ≤ days_in_month (year d) (month d)) as Hd by lia.
  clear - Hm Hd.
  pose proof (days_before_month_succ (year d) (month d) Hm) as Hs.
  rewrite (days_before_month_table _ (month d + 1)) in Hs by lia.
  assert (0 ≤ days_before_month (year d) (month d)).
  { rewrite days_before_month_table by lia.
    each_month Hm;
      destruct (is_leap (year d)); vm_compute; discriminate. }
  assert (cumulative_days (month d + 1)
          + (if (3 <=? month d + 1) && is_leap (year d) then 1 else 0)
          ≤ days_in_year (year d)).
  { unfold days_in_year.
    each_month Hm;
      destruct (is_leap (year d)); vm_compute; discriminate. }
  lia.
Qed.

(** On dates, the order of the ordinals is the order of the triples
    (year, month, day), which is how [datetime.date] compares. *)
Lemma toordinal_lt a b :
  valid_date a = true → valid_date b = true →
  ymd_lt a b ↔ toordinal a < toordinal b.
Proof.
  intros Ha Hb.
  pose proof (day_of_year_bounds a Ha) as Hda.
  pose proof (day_of_year_bounds b Hb) as Hdb.
  assert (Hma : 1 ≤ month a ≤ 12 ∧ 1 ≤ day a ≤ days_in_month (year a) (month a)).
  { unfold valid_date in Ha. repeat (apply andb_prop in Ha as [Ha ?]). lia. }
  assert (Hmb : 1 ≤ month b ≤ 12 ∧ 1 ≤ day b ≤ days_in_month (year b) (month b)).
  { unfold valid_date in Hb. repeat (apply andb_prop in Hb as [Hb ?]). lia. }
  assert (Hfwd : ∀ x y, 
    (1 ≤ days_before_month (year x) (month x) + day x ≤ days_in_year (year x)) →
    (1 ≤ days_before_month (year y) (month y) + day y ≤ days_in_year (year y)) →
    1 ≤ month x ≤ 12 ∧ 1 ≤ day x ≤ days_in_month (year x) (month x) →
    1 ≤ month y ≤ 12 ∧ 1 ≤ day y ≤ days_in_month (year y) (month y) →
    ymd_lt x y → toordinal x < toordinal y).
  { intros x y Hx Hy Hmx Hmy [Hy1|[Hy1 [Hm1|[Hm1 Hd1]]]]; unfold toordinal.
    - pose proof (days_before_year_mono _ _ Hy1). lia.
    - rewrite Hy1 in *.
      pose proof (days_before_month_mono (year y) (month x) (month y)). lia.
    - rewrite Hy1, Hm1. lia. }
  split; [by apply Hfwd|].
  intros Hlt. unfold ymd_lt.
  destruct (Z.lt_trichotomy (year a) (year b)) as [?|[Hy|Hy]]; [by left| |].
  - right. split; [done|].
    destruct (Z.lt_trichotomy (month a) (month b)) as [?|[Hm|Hm]]; [by left| |].
    + right. split; [done|]. unfold toordinal in Hlt. rewrite Hy, Hm in Hlt. lia.
    + exfalso. assert (toordinal b < toordinal a); [|lia].
      apply Hfwd; try done. right. split; [done|]. by left.
  - exfalso. assert (toordinal b < toordinal a); [|lia].
    apply Hfwd; try done. by left.
Qed.

Lemma toordinal_le_max d : valid_date d = true → toordinal d ≤ toordinal date_max.
Proof.
  intros Hd. destruct (decide (toordinal date_max < toordinal d)) as [Hlt|]; [|lia].
  apply toordinal_lt in Hlt; [|done..].
  unfold valid_date in Hd. repeat (apply andb_prop in Hd as [Hd ?]).
  pose proof (days_in_month_bounds (year d) (month d)).
  unfold ymd_lt, date_max in Hlt. cbn in Hlt. lia.
Qed.

Lemma strptime_ymd_valid s d : strptime_ymd s = Some d → valid_date d = true.
Proof.
  unfold strptime_ymd. intros H.
  repeat (case_match; simplify_option_eq; try done).
Qed.

End dates.

(** ** The date format: what [strptime] reads is a text of the date *)

Section date_texts.

Lemma digit_digit_char n : digit (digit_char n) = Some (n mod 10).
Proof.
  unfold digit_char. pose proof (Z.mod_pos_bound n 10 eq_refl) as Hx.
  set (x := n mod 10) in *. clearbody x.
  assert (x = 0 ∨ x = 1 ∨ x = 2 ∨ x = 3 ∨ x = 4 ∨ x = 5 ∨ x = 6 ∨ x = 7
          ∨ x = 8 ∨ x = 9) as Hcases by lia.
  repeat (destruct Hcases as [->|Hcases]; [reflexivity|]). by subst x.
Qed.

Lemma year_digits y :
  0 ≤ y ≤ 9999 →
  1000 * ((y / 1000) mod 10) + 100 * ((y / 100) mod 10)
  + 10 * ((y / 10) mod 10) + y mod 10 = y.
Proof.
  intros Hy.
  replace (y / 1000) with (y / 10 / 10 / 10)
    by (rewrite !Z.div_div by lia; reflexivity).
  replace (y / 100) with (y / 10 / 10)
    by (rewrite !Z.div_div by lia; reflexivity).
  Z.div_mod_to_equations. lia.
Qed.

Lemma not_hyphen {A} (c : ascii) (X Y : A) :
  c ≠ "-"%char → match c with "-"%char => X | _ => Y end = Y.
Proof.
  intros Hc. destruct c as [[] [] [] [] [] [] [] []]; try reflexivity.
  by destruct Hc.
Qed.

Lemma parse_month_inv l m r :
  parse_month l = Some (m, r) →
  (∃ a, l = a :: "-"%char :: r ∧ digit a = Some m ∧ 1 ≤ m)
  ∨ (∃ a b x y, l = a :: b :: "-"%char :: r
       ∧ digit a = Some x ∧ digit b = Some y ∧ month_2 x y = Some m).
Proof.
  unfold parse_month.
  destruct l as [|a [|b l]]; [done..|].
  destruct (decide (b = "-"%char)) as [->|Hb].
  - intros H. left. exists a.
    destruct (digit a) as [x|] eqn:Ha; [|done]. cbn in H. unfold nonzero in H.
    destruct (1 <=? x) eqn:Hx; [|done]. cbn in H. injection H as <- <-.
    split; [done|]. split; [done|lia].
  - rewrite (not_hyphen b) by done.
    destruct l as [|c r']; [done|].
    destruct (decide (c = "-"%char)) as [->|Hc].
    + intros H. right. destruct (digit a) as [x|] eqn:Ha; [|done].
      destruct (digit b) as [y|] eqn:Hb'; [|done]. cbn in H.
      destruct (month_2 x y) as [m'|] eqn:Hm; [|done]. cbn in H.
      injection H as <- <-. by exists a, b, x, y.
    + by rewrite (not_hyphen c) by done.
Qed.

Lemma digit_inv c x : digit c = Some x → 0 ≤ x ≤ 9 ∧ c = digit_char x.
Proof.
  unfold digit, digit_char.
  destruct ((48 <=? N_of_ascii c)%N && (N_of_ascii c <=? 57)%N) eqn:Hc; [|done].
  intros [= <-]. apply andb_prop in Hc as [H1%N.leb_le H2%N.leb_le].
  split; [lia|].
  rewrite Z.mod_small by lia.
  replace (Z.to_N (48 + (Z.of_N (N_of_ascii c) - 48))) with (N_of_ascii c) by lia.
  by rewrite ascii_N_embedding.
Qed.

Lemma digit_char_mod n k : n mod 10 = k mod 10 → digit_char n = digit_char k.
Proof. unfold digit_char. by intros ->. Qed.

Lemma chars_app s t : chars (s +:+ t) = chars s ++ chars t.
Proof.
  unfold chars. induction s as [|c s IH]; [done|].
  change (String c s +:+ t) with (String c (s +:+ t)). cbn. by rewrite IH.
Qed.

Lemma two_digits x y n :
  0 ≤ x ≤ 9 → 0 ≤ y ≤ 9 → n = 10 * x + y →
  pad2 n = String (digit_char x) (String (digit_char y) "").
Proof.
  intros Hx Hy ->. unfold pad2.
  f_equal; [|f_equal]; apply digit_char_mod; Z.div_mod_to_equations; lia.
Qed.

Lemma parse_month_texts l m r :
  parse_month l = Some (m, r) →
  ∃ ms, ms ∈ month_texts m ∧ l = chars ms ++ "-"%char :: r.
Proof.
  intros [(a & -> & [Hm ->]%digit_inv & H1)
         |(a & b & x & y & -> & [Hx ->]%digit_inv & [Hy ->]%digit_inv & H)]%parse_month_inv.
  - exists (one_digit m). split; [|done].
    unfold month_texts. rewrite (proj2 (Z.ltb_lt m 10)) by lia.
    right. left.
  - exists (pad2 m). split.
    { unfold month_texts. destruct (m <? 10); left. }
    rewrite (two_digits x y m); [done..|].
    unfold month_2 in H.
    destruct ((x =? 1) && (y <=? 2)) eqn:H1.
    { injection H as <-. apply andb_prop in H1 as [->%Z.eqb_eq ?%Z.leb_le]. lia. }
    destruct ((x =? 0) && (1 <=? y)) eqn:H2; [|done].
    injection H as <-. apply andb_prop in H2 as [->%Z.eqb_eq ?%Z.leb_le]. lia.
Qed.

Lemma parse_day_texts l dd :
  parse_day l = Some dd → ∃ ds, ds ∈ day_texts dd ∧ l = chars ds.
Proof.
  unfold parse_day. destruct l as [|a [|b [|c l]]]; [done| | |done].
  - destruct (digit a) as [x|] eqn:Ha; [|done]. cbn. unfold nonzero.
    destruct (1 <=? x) eqn:Hx; [|done]. intros [= <-].
    apply digit_inv in Ha as [Hr ->]. exists (one_digit x). split; [|done].
    unfold day_texts. rewrite (proj2 (Z.ltb_lt x 10)) by lia. right. left.
  - destruct (Ascii.eqb a " ") eqn:Hsp.
    + apply Ascii.eqb_eq in Hsp as ->.
      destruct (digit b) as [x|] eqn:Hb; [|done]. cbn. unfold nonzero.
      destruct (1 <=? x) eqn:Hx; [|done]. intros [= <-].
      apply digit_inv in Hb as [Hr ->]. exists (" " +:+ one_digit x).
      split; [|done].
      unfold day_texts. rewrite (proj2 (Z.ltb_lt x 10)) by lia.
      right. right. left.
    + destruct (digit a) as [x|] eqn:Ha; [|done].
      destruct (digit b) as [y|] eqn:Hb; [|done]. cbn.
      apply digit_inv in Ha as [Hx ->]. apply digit_inv in Hb as [Hy ->].
      intros H. exists (pad2 dd). split.
      { unfold day_texts. destruct (dd <? 10); left. }
      rewrite (two_digits x y dd); [done..|].
      unfold day_2 in H.
      destruct ((x =? 3) && (y <=? 1)) eqn:H1.
      { injection H as <-. apply andb_prop in H1 as [->%Z.eqb_eq ?%Z.leb_le]. lia. }
      destruct ((x =? 1) || (x =? 2)) eqn:H2; [by injection H as <-|].
      destruct ((x =? 0) && (1 <=? y)) eqn:H3; [|done].
      injection H as <-. apply andb_prop in H3 as [->%Z.eqb_eq ?%Z.leb_le]. lia.
Qed.

Lemma chars_inj s t : chars s = chars t → s = t.
Proof.
  intros H. rewrite <- (String.string_of_list_ascii_of_string s),
    <- (String.string_of_list_ascii_of_string t). unfold chars in H. by rewrite H.
Qed.

Lemma four_digits a b c e :
  0 ≤ a ≤ 9 → 0 ≤ b ≤ 9 → 0 ≤ c ≤ 9 → 0 ≤ e ≤ 9 →
  chars (pad4 (1000 * a + 100 * b + 10 * c + e))
  = [digit_char a; digit_char b; digit_char c; digit_char e].
Proof.
  intros Ha Hb Hc He. unfold pad4, pad2, chars. cbn.
  f_equal; [|f_equal; [|f_equal; [|f_equal]]];
    apply digit_char_mod; Z.div_mod_to_equations; lia.
Qed.

Lemma valid_date_bounds d :
  valid_date d = true →
  1 ≤ year d ≤ 9999 ∧ 1 ≤ month d ≤ 12 ∧ 1 ≤ day d ≤ 31.
Proof.
  unfold valid_date. intros Hv.
  repeat (apply andb_prop in Hv as [Hv ?]).
  assert (day d ≤ days_in_month (year d) (month d)) by lia.
  assert (days_in_month (year d) (month d) ≤ 31).
  { unfold days_in_month. repeat case_match; lia. }
  lia.
Qed.

(** Every text of a month and of a day is read as that month and day. *)
Lemma texts_read_back m dd ms ds :
  1 ≤ m ≤ 12 → 1 ≤ dd ≤ 31 →
  ms ∈ month_texts m → ds ∈ day_texts dd →
  parse_month (chars ms ++ "-"%char :: chars ds) = Some (m, chars ds)
  ∧ parse_day (chars ds) = Some dd.
Proof.
  intros Hm Hd Hms Hds.
  assert (Forall (λ m, Forall (λ dd, Forall (λ ms, Forall (λ ds,
            parse_month (chars ms ++ "-"%char :: chars ds) = Some (m, chars ds)
            ∧ parse_day (chars ds) = Some dd)
            (day_texts dd)) (month_texts m)) (seqZ 1 31)) (seqZ 1 12))
    as Hall.
  { apply (bool_decide_unpack _). vm_compute. exact I. }
  rewrite Forall_forall in Hall. specialize (Hall m).
  rewrite Forall_forall in Hall. specialize (Hall ltac:(apply elem_of_seqZ; lia) dd).
  rewrite Forall_forall in Hall. specialize (Hall ltac:(apply elem_of_seqZ; lia) ms).
  rewrite Forall_forall in Hall. by apply Hall.
Qed.

Lemma elem_of_date_texts d s :
  s ∈ date_texts d ↔
  ∃ ms ds, ms ∈ month_texts (month d) ∧ ds ∈ day_texts (day d)
           ∧ s = pad4 (year d) +:+ "-" +:+ ms +:+ "-" +:+ ds.
Proof.
  unfold date_texts. rewrite list_elem_of_bind. split.
  - intros (ms & (ds & ->%list_elem_of_singleton & Hds)%list_elem_of_bind & Hms).
    by exists ms, ds.
  - intros (ms & ds & Hms & Hds & ->). exists ms. split; [|done].
    apply list_elem_of_bind. exists ds. split; [|done]. left.
Qed.

(** [strptime] reads a text as the date [d] exactly when it is one of the
    texts of [d] and [d] is a date. *)
Lemma strptime_ymd_spec s d :
  strptime_ymd s = Some d ↔ valid_date d = true ∧ s ∈ date_texts d.
Proof.
  rewrite elem_of_date_texts. split.
  - unfold strptime_ymd. intros H.
    destruct (String.list_ascii_of_string s)
      as [|y1 [|y2 [|y3 [|y4 [|h rest]]]]] eqn:Hs; [done..|].
    destruct (decide (h = "-"%char)) as [->|Hh];
      [|by rewrite (not_hyphen h) in H by done].
    destruct (digit y1) as [a|] eqn:H1; [|done].
    destruct (digit y2) as [b|] eqn:H2; [|done].
    destruct (digit y3) as [c|] eqn:H3; [|done].
    destruct (digit y4) as [e|] eqn:H4; [|done]. cbn in H.
    destruct (parse_month rest) as [[m rest']|] eqn:Hm; [|done]. cbn in H.
    destruct (parse_day rest') as [dd|] eqn:Hd; [|done]. cbn in H.
    destruct (valid_date _) eqn:Hv; [|done]. injection H as <-.
    split; [done|]. cbn [year month day].
    apply digit_inv in H1 as [? ->], H2 as [? ->], H3 as [? ->], H4 as [? ->].
    apply parse_month_texts in Hm as (ms & Hms & ->).
    apply parse_day_texts in Hd as (ds & Hds & ->).
    exists ms, ds. split; [done|]. split; [done|].
    apply chars_inj. fold (chars s) in Hs. rewrite Hs.
    rewrite !chars_app, four_digits by done. done.
  - intros (Hv & ms & ds & Hms & Hds & ->).
    destruct (valid_date_bounds d Hv) as (Hy & Hm & Hd).
    destruct (texts_read_back _ _ ms ds Hm Hd Hms Hds) as [Hpm Hpd].
    destruct d as [y m dd]. cbn [year month day] in *.
    unfold strptime_ymd. fold (chars (pad4 y +:+ "-" +:+ ms +:+ "-" +:+ ds)).
    rewrite !chars_app. unfold pad4, pad2, chars at 1 2. cbn [String.list_ascii_of_string app].
    rewrite !digit_digit_char. cbn [mbind option_bind].
    change (chars "-" ++ chars ds) with ("-"%char :: chars ds).
    rewrite Hpm. cbn [mbind option_bind]. rewrite Hpd. cbn [mbind option_bind].
    rewrite year_digits by lia. by rewrite Hv.
Qed.

(** The date that the code reads off a record is the date the record
    was posted on. *)
Lemma datePosted_spec data d : datePosted data = Some d ↔ posted_on data d.
Proof.
  unfold datePosted, mk_info, parse_date_safe, posted_on, get_or.
  cbn [date snd]. split.
  - destruct (data !! "date-posted") as [[|s]|] eqn:Hs;
      cbn [default from_option id or_empty].
    + by rewrite decide_True by reflexivity.
    + destruct (decide (strip s = "")); [done|].
      intros [Hv Hin]%strptime_ymd_spec. split; [done|]. by exists s.
    + by rewrite decide_True by reflexivity.
  - intros (Hv & s & -> & Hin). cbn [default from_option id or_empty].
    rewrite decide_False.
    + by apply strptime_ymd_spec.
    + intros Hemp. rewrite Hemp in Hin.
      apply elem_of_date_texts in Hin as (? & ? & _ & _ & Hin).
      unfold pad4 in Hin. discriminate.
Qed.

Lemma unknown_date_spec data : unknown_date data ↔ datePosted data = None.
Proof.
  unfold unknown_date. split.
  - intros H. destruct (datePosted data) as [d|] eqn:Hd; [|done].
    by apply datePosted_spec, H in Hd.
  - intros H d Hd%datePosted_spec. congruence.
Qed.

Lemma ymd_trichotomy a b : ymd_lt a b ∨ a = b ∨ ymd_lt b a.
Proof.
  destruct a as [y m dd], b as [y' m' dd']. unfold ymd_lt. cbn.
  destruct (Z.lt_trichotomy y y') as [?|[->|?]]; [tauto| |tauto].
  destruct (Z.lt_trichotomy m m') as [?|[->|?]]; [tauto| |tauto].
  destruct (Z.lt_trichotomy dd dd') as [?|[->|?]]; tauto.
Qed.

Lemma toordinal_inj a b :
  valid_date a = true → valid_date b = true →
  toordinal a = toordinal b → a = b.
Proof.
  intros Ha Hb Heq.
  destruct (ymd_trichotomy a b) as [Hlt|[?|Hlt]]; [|done|].
  - apply (proj1 (toordinal_lt _ _ Ha Hb)) in Hlt. lia.
  - apply (proj1 (toordinal_lt _ _ Hb Ha)) in Hlt. lia.
Qed.

End date_texts.

(** ** The order of the sort keys *)

Section key_order.

Lemma key_le_refl a : key_le a a.
Proof. right. split; [done|]. reflexivity. Qed.

Lemma key_le_trans a b c : key_le a b → key_le b c → key_le a c.
Proof.
  unfold key_le. intros [Hab | [Hab Hs1]] [Hbc | [Hbc Hs2]];
    [left; lia | left; lia | left; lia |].
  right. split; [lia|]. by etrans.
Qed.

Lemma key_le_total a b : key_le a b ∨ key_le b a.
Proof.
  unfold key_le. destruct (Z.lt_trichotomy a.1 b.1) as [?|[?|?]]; [tauto| |tauto].
  destruct (total String.le a.2 b.2); [left|right]; right; split; auto.
Qed.

Lemma key_le_antisym a b : key_le a b → key_le b a → a = b.
Proof.
  destruct a as [x s], b as [y t]. unfold key_le. simpl.
  intros [?|[? Hs1]] [?|[? Hs2]]; try lia.
  f_equal; [done|]. by apply (anti_symm String.le).
Qed.

Lemma key_lt_irrefl a : ¬ key_lt a a.
Proof. by intros [_ ?]. Qed.

Lemma key_lt_le_trans a b c : key_lt a b → key_le b c → key_lt a c.
Proof.
  intros [Hab Hne] Hbc. split; [by eapply key_le_trans|].
  intros ->. apply Hne. by apply key_le_antisym.
Qed.

Lemma sort_le_total : Total sort_le.
Proof. intros i j. apply key_le_total. Qed.

Lemma sort_le_trans : Transitive sort_le.
Proof. intros i j k. apply key_le_trans. Qed.

Lemma sort_key_id a b : sort_key a = sort_key b → info_id a = info_id b.
Proof.
  unfold sort_key. destruct (date a), (date b); intros H; by inversion H.
Qed.

End key_order.

(** ** [sorted]: the first element is the least, the rest is outranked *)

Section sorting_facts.

Lemma sorted_cons_inv g h t :
  sorted g = h :: t →
  h ∈ g ∧ (∀ x, x ∈ t → x ∈ g ∧ sort_le h x) ∧ (∀ x, x ∈ g → x = h ∨ x ∈ t).
Proof.
  intros Hs.
  assert (Hp : h :: t ≡ₚ g) by (rewrite <- Hs; apply merge_sort_Permutation).
  assert (Hss : StronglySorted sort_le (h :: t)).
  { rewrite <- Hs.
    apply (@StronglySorted_merge_sort _ sort_le _ sort_le_trans sort_le_total). }
  apply StronglySorted_cons in Hss as [Hall _].
  rewrite Forall_forall in Hall.
  split; [rewrite <- Hp; left|].
  split.
  - intros x Hx. split; [rewrite <- Hp; by right | by apply Hall].
  - intros x Hx. rewrite <- Hp in Hx. by apply elem_of_cons in Hx.
Qed.

(** [infos_sorted[1:]] holds the members that some other member sorts
    strictly before. *)
Lemma drop_1_sorted g x :
  NoDup (info_id <$> g) →
  x ∈ drop 1 (sorted g) ↔
  x ∈ g ∧ ∃ m, m ∈ g ∧ key_lt (sort_key m) (sort_key x).
Proof.
  intros Hnd. destruct (sorted g) as [|h t] eqn:Hs.
  { assert (g = []) as ->.
    { apply Permutation_nil_r. rewrite <- Hs. symmetry.
      apply merge_sort_Permutation. }
    simpl. split; [by intros ?%elem_of_nil | by intros [?%elem_of_nil _]]. }
  assert (Hp : h :: t ≡ₚ g) by (rewrite <- Hs; apply merge_sort_Permutation).
  destruct (sorted_cons_inv _ _ _ Hs) as (Hh & Ht & Hg).
  rewrite <- Hp in Hnd. rewrite fmap_cons in Hnd.
  apply NoDup_cons in Hnd as [Hnh _].
  simpl. rewrite drop_0. split.
  - intros Hx. destruct (Ht _ Hx) as [Hxg Hle]. split; [done|].
    exists h. split; [done|]. split; [done|].
    intros Heq%sort_key_id. apply Hnh. rewrite Heq.
    by apply list_elem_of_fmap_2.
  - intros (Hxg & m & Hm & Hlt).
    destruct (Hg _ Hxg) as [->|]; [|done]. exfalso.
    assert (sort_le h m) as Hle.
    { destruct (Hg _ Hm) as [->|Hmt]; [apply key_le_refl | by apply Ht]. }
    eapply key_lt_irrefl, key_lt_le_trans; eauto.
Qed.

End sorting_facts.

(** ** The grouping loop and the duplicate loop *)

Section grouping.

Lemma link_to_infos_lookup recent infos L :
  link_to_infos recent infos !! L =
    if decide (L ≠ "" ∧ group_of recent infos L ≠ [])
    then Some (group_of recent infos L) else None.
Proof.
  unfold link_to_infos, group_of.
  induction infos as [|x l IH] using rev_ind.
  { simpl. rewrite lookup_empty. destruct (decide _) as [[_ H]|]; done. }
  rewrite foldl_app, filter_app. simpl.
  set (m := foldl (group_step recent) ∅ l) in *.
  set (P := λ i : info, (info_id i ∉ recent) ∧ moreInfoLink i = L) in *.
  set (g := filter P l) in *.
  unfold group_step.
  destruct (decide (info_id x ∈ recent)) as [Hrec|Hrec].
  { rewrite filter_cons_False, filter_nil, app_nil_r by (intros [? _]; done).
    done. }
  destruct (decide (moreInfoLink x = "")) as [Hlink|Hlink].
  { rewrite IH. destruct (decide (L = "")) as [->|HL].
    - destruct (decide ("" ≠ "" ∧ g ≠ [])) as [[? _]|],
        (decide ("" ≠ "" ∧ g ++ filter P [x] ≠ [])) as [[? _]|]; done.
    - rewrite filter_cons_False, filter_nil, app_nil_r
        by (intros [_ ?]; congruence). done. }
  destruct (decide (moreInfoLink x = L)) as [HL|HL].
  - rewrite HL, lookup_insert_eq, lookup_total_alt, IH.
    rewrite filter_cons_True, filter_nil by done.
    assert (default inhabitant
              (if decide (L ≠ "" ∧ g ≠ []) then Some g else None) = g) as ->.
    { destruct (decide (L ≠ "" ∧ g ≠ [])) as [|Hn]; [done|]. simpl.
      destruct g; [done|]. destruct Hn. split; [congruence|done]. }
    destruct (decide (L ≠ "" ∧ g ++ [x] ≠ [])) as [|Hn]; [done|]. destruct Hn.
    split; [congruence|]. by destruct g.
  - rewrite lookup_insert_ne by done. rewrite IH.
    rewrite filter_cons_False, filter_nil, app_nil_r by (intros [_ ?]; done).
    done.
Qed.

Lemma foldl_add_ids (acc : gset string) (l : list info) x :
  x ∈ foldl (λ s i, s ∪ {[info_id i]}) acc l ↔ x ∈ acc ∨ x ∈ info_id <$> l.
Proof.
  revert acc. induction l as [|i l IH]; intros acc; simpl.
  - rewrite elem_of_nil. tauto.
  - rewrite IH, elem_of_union, elem_of_singleton, elem_of_cons. tauto.
Qed.

Lemma dup_step_elem acc item x :
  x ∈ dup_step acc item ↔
  x ∈ acc ∨ ((1 < length item.2)%nat ∧ x ∈ info_id <$> drop 1 (sorted item.2)).
Proof.
  unfold dup_step. case_decide.
  - split; [tauto|]. intros [?|[? _]]; [done|lia].
  - rewrite foldl_add_ids. split; intros [?|?]; auto.
    + right. split; [lia|done].
    + tauto.
Qed.

Lemma foldl_dup_step_elem acc items x :
  x ∈ foldl dup_step acc items ↔
  x ∈ acc ∨ ∃ item, item ∈ items ∧ (1 < length item.2)%nat
                    ∧ x ∈ info_id <$> drop 1 (sorted item.2).
Proof.
  revert acc. induction items as [|it l IH]; intros acc; simpl.
  - split; [tauto|]. intros [?|(? & ?%elem_of_nil & _)]; done.
  - rewrite IH, dup_step_elem. split.
    + intros [[?|?]|(item & ? & ?)]; [by left | |].
      * right. exists it. split; [left|done].
      * right. exists item. split; [by right|done].
    + intros [?|(item & [->|?]%elem_of_cons & ?)]; [tauto|tauto|].
      right. by exists item.
Qed.

Lemma duplicate_delete_ids_elem groups x :
  x ∈ duplicate_delete_ids groups ↔
  ∃ L g, groups !! L = Some g ∧ (1 < length g)%nat
         ∧ x ∈ info_id <$> drop 1 (sorted g).
Proof.
  unfold duplicate_delete_ids. rewrite foldl_dup_step_elem. split.
  - intros [?%not_elem_of_empty|([L g] & Hin%elem_of_map_to_list & ?)]; [done|].
    by exists L, g.
  - intros (L & g & Hin & ?). right. exists (L, g).
    split; [by apply elem_of_map_to_list|done].
Qed.

Lemma length_gt_1 {A} (l : list A) x y :
  x ∈ l → y ∈ l → x ≠ y → (1 < length l)%nat.
Proof.
  destruct l as [|a [|b l]]; simpl; [by intros ?%elem_of_nil| |lia].
  intros ->%list_elem_of_singleton ->%list_elem_of_singleton. done.
Qed.

End grouping.

(** ** Which ids [Cleanup.main] schedules for deletion *)

Section purge_facts.
Context (now : Py.date) (jobs : collection).

Lemma mk_info_fields c i data :
  info_id (mk_info c (i, data)) = i
  ∧ moreInfoLink (mk_info c (i, data)) = sourceLink data
  ∧ date (mk_info c (i, data)) = datePosted data
  ∧ sort_key (mk_info c (i, data)) = doc_key (i, data).
Proof. done. Qed.

Lemma elem_of_infos inf :
  inf ∈ infos_of now jobs ↔
  ∃ i data, jobs !! i = Some data ∧ inf = mk_info (cutoff_recent now) (i, data).
Proof.
  unfold infos_of, info_list. rewrite list_elem_of_fmap. split.
  - intros ([i data] & -> & Hin%elem_of_map_to_list). by exists i, data.
  - intros (i & data & Hl & ->). exists (i, data).
    split; [done|]. by apply elem_of_map_to_list.
Qed.

Lemma NoDup_infos_ids : NoDup (info_id <$> infos_of now jobs).
Proof.
  assert (info_id <$> infos_of now jobs = (map_to_list jobs).*1) as ->.
  { unfold infos_of, info_list. rewrite <- list_fmap_compose.
    apply list_fmap_ext. by intros ? [??]. }
  apply NoDup_fst_map_to_list.
Qed.

Lemma infos_id_unique inf i data :
  jobs !! i = Some data → inf ∈ infos_of now jobs → info_id inf = i →
  inf = mk_info (cutoff_recent now) (i, data).
Proof.
  intros Hl (j & d & Hj & ->)%elem_of_infos Hid. simpl in Hid. subst j.
  congruence.
Qed.

Lemma recent_delete_ids_elem i data :
  jobs !! i = Some data →
  i ∈ recent_ids now jobs ↔ recent now data = true.
Proof.
  intros Hl. unfold recent_ids, recent_delete_ids.
  rewrite elem_of_list_to_set, list_elem_of_fmap. split.
  - intros (inf & Hid & [Hrec Hin]%list_elem_of_filter).
    rewrite (infos_id_unique inf i data) in Hrec by done. done.
  - intros Hrec. exists (mk_info (cutoff_recent now) (i, data)). split; [done|].
    apply list_elem_of_filter. split; [done|].
    apply elem_of_infos. by exists i, data.
Qed.

Lemma NoDup_group L :
  NoDup (info_id <$> group_of (recent_ids now jobs) (infos_of now jobs) L).
Proof.
  eapply sublist_NoDup; [apply NoDup_infos_ids|].
  apply fmap_sublist, sublist_filter.
Qed.

Lemma elem_of_group L inf :
  inf ∈ group_of (recent_ids now jobs) (infos_of now jobs) L ↔
  ∃ i data, jobs !! i = Some data ∧ inf = mk_info (cutoff_recent now) (i, data)
            ∧ recent now data = false ∧ sourceLink data = L.
Proof.
  unfold group_of. rewrite list_elem_of_filter, elem_of_infos. split.
  - intros ([Hnr HL] & i & data & Hl & ->). exists i, data.
    repeat split; [done| |done].
    simpl in Hnr. rewrite (recent_delete_ids_elem i data) in Hnr by done.
    by destruct (recent now data).
  - intros (i & data & Hl & -> & Hnr & HL). split; [|by exists i, data].
    split; [|done]. simpl.
    rewrite (recent_delete_ids_elem i data) by done. congruence.
Qed.

(** A stored record is scheduled as a duplicate exactly when it is
    outranked within its link. *)
Lemma duplicate_delete_ids_spec i data :
  jobs !! i = Some data →
  i ∈ duplicate_delete_ids
        (link_to_infos (recent_ids now jobs) (infos_of now jobs)) ↔
  outranked now jobs i data.
Proof.
  intros Hl. rewrite duplicate_delete_ids_elem.
  set (rs := recent_ids now jobs). set (infos := infos_of now jobs). split.
  - intros (L & g & Hg & _ & Hin).
    rewrite link_to_infos_lookup in Hg.
    destruct (decide (L ≠ "" ∧ group_of rs infos L ≠ [])) as [[HL _]|]; [|done].
    injection Hg as <-.
    apply list_elem_of_fmap in Hin as (x & Hid & Hx).
    apply drop_1_sorted in Hx as [Hxg (m & Hm & Hlt)]; [|apply NoDup_group].
    apply elem_of_group in Hxg as (i' & d' & Hl' & -> & Hnr & HLx).
    simpl in Hid. subst i'. assert (d' = data) as -> by congruence.
    apply elem_of_group in Hm as (j & dj & Hj & -> & Hnrj & HLj).
    split; [done|]. split; [congruence|].
    exists j, dj. repeat split; [done|done|congruence|apply Hlt|apply Hlt].
  - intros (Hnr & HL & j & dj & Hj & Hnrj & HLj & Hlt).
    set (x := mk_info (cutoff_recent now) (i, data)).
    set (m := mk_info (cutoff_recent now) (j, dj)).
    assert (Hx : x ∈ group_of rs infos (sourceLink data))
      by (apply elem_of_group; by exists i, data).
    assert (Hm : m ∈ group_of rs infos (sourceLink data))
      by (apply elem_of_group; by exists j, dj).
    exists (sourceLink data), (group_of rs infos (sourceLink data)).
    split; [|split].
    + rewrite link_to_infos_lookup.
      destruct (decide (sourceLink data ≠ ""
                        ∧ group_of rs infos (sourceLink data) ≠ [])) as [|Hn];
        [done|].
      destruct Hn. split; [done|].
      intros Hnil. rewrite Hnil in Hx. by apply elem_of_nil in Hx.
    + apply (length_gt_1 _ m x); [done..|].
      intros Heq. destruct Hlt as [_ Hne]. apply Hne.
      change (sort_key m = sort_key x). by rewrite Heq.
    + apply list_elem_of_fmap. exists x. split; [done|].
      apply drop_1_sorted; [apply NoDup_group|]. split; [done|].
      exists m. split; [done|]. apply Hlt.
Qed.

Lemma all_delete_ids_spec i data :
  jobs !! i = Some data →
  i ∈ all_delete_ids (cutoff_recent now) (map_to_list jobs) ↔
  recent now data = true ∨ outranked now jobs i data.
Proof.
  intros Hl. unfold all_delete_ids.
  change (info_list (cutoff_recent now) (map_to_list jobs))
    with (infos_of now jobs).
  change (recent_delete_ids (infos_of now jobs)) with (recent_ids now jobs).
  rewrite elem_of_union, (recent_delete_ids_elem i data) by done.
  by rewrite (duplicate_delete_ids_spec i data).
Qed.

End purge_facts.

(** ** The deletion loop *)

Section deletion_loop.

Lemma id_to_ref_lookup docs k :
  id_to_ref docs !! k = if decide (k ∈ docs.*1) then Some k else None.
Proof.
  unfold id_to_ref. induction docs as [|d l IH] using rev_ind.
  { change ((∅ : gmap string string) !! k
            = if decide (k ∈ ([] : list string)) then Some k else None).
    rewrite lookup_empty, decide_False; [done|apply not_elem_of_nil]. }
  rewrite foldl_app, fmap_app. simpl.
  destruct (decide (d.1 = k)) as [->|Hne].
  - rewrite lookup_insert_eq, decide_True; [done|].
    apply elem_of_app. right. by left.
  - rewrite lookup_insert_ne, IH by done.
    destruct (decide (k ∈ l.*1)) as [Hin|Hnin].
    + rewrite decide_True; [done|]. apply elem_of_app. by left.
    + rewrite decide_False; [done|].
      intros [?|?%list_elem_of_singleton]%elem_of_app; congruence.
Qed.

Lemma foldl_delete_step docs dr (l : list string) (J : collection) n i :
  (foldl (delete_step (id_to_ref docs) dr) (J, n) l).1 !! i =
    if decide (i ∈ l ∧ i ∈ docs.*1 ∧ dr i = false) then None else J !! i.
Proof.
  revert J n. induction l as [|k l IH]; intros J n; cbn [foldl].
  { rewrite decide_False; [done|]. by intros [?%elem_of_nil _]. }
  assert (Hstep : ∀ J' n',
    (J' !! i = if decide (k = i ∧ i ∈ docs.*1 ∧ dr i = false)
               then None else J !! i) →
    (foldl (delete_step (id_to_ref docs) dr) (J', n') l).1 !! i =
      if decide (i ∈ k :: l ∧ i ∈ docs.*1 ∧ dr i = false)
      then None else J !! i).
  { intros J' n' HJ'. rewrite IH, HJ'.
    destruct (decide (i ∈ l ∧ _)) as [(?&?&?)|Hn].
    - rewrite decide_True; [done|]. split; [by right|done].
    - destruct (decide (k = i ∧ _)) as [(->&?&?)|Hn'].
      + rewrite decide_True; [done|]. split; [by left|done].
      + rewrite decide_False; [done|].
        intros ([->|?]%elem_of_cons & ? & ?); [by apply Hn'|by apply Hn]. }
  unfold delete_step at 2. rewrite id_to_ref_lookup. cbn [fst snd].
  destruct (decide (k ∈ docs.*1)) as [Hk|Hk]; [destruct (dr k) eqn:Hdr|];
    apply Hstep.
  - rewrite decide_False; [done|]. intros (->&_&?). congruence.
  - destruct (decide (k = i)) as [->|Hki].
    + by rewrite lookup_delete_eq, decide_True.
    + rewrite lookup_delete_ne by done. rewrite decide_False; [done|].
      by intros [? _].
  - rewrite decide_False; [done|]. intros (->&?&_). done.
Qed.

Lemma main_lookup now dr jobs i :
  (Cleanup.main now dr jobs).1 !! i =
    if decide (i ∈ all_delete_ids (cutoff_recent now) (map_to_list jobs)
               ∧ dr i = false)
    then None else jobs !! i.
Proof.
  unfold Cleanup.main. rewrite foldl_delete_step.
  destruct (decide (i ∈ (map_to_list jobs).*1)) as [Hin|Hnin].
  - destruct (decide (_ ∧ _ ∧ _)) as [(Hi%elem_of_elements&_&?)|Hn].
    + by rewrite decide_True.
    + rewrite decide_False; [done|]. intros [Hi ?]. apply Hn.
      split; [by apply elem_of_elements|done].
  - assert (jobs !! i = None) as ->.
    { apply eq_None_not_Some. intros [d Hd]. apply Hnin.
      apply list_elem_of_fmap. exists (i, d). split; [done|].
      by apply elem_of_map_to_list. }
    by repeat case_decide.
Qed.

(** What a purge cycle leaves, record by record. *)
Lemma main_lookup_Some now dr jobs i data :
  (Cleanup.main now dr jobs).1 !! i = Some data ↔
  jobs !! i = Some data
  ∧ ¬ ((recent now data = true ∨ outranked now jobs i data) ∧ dr i = false).
Proof.
  rewrite main_lookup. split.
  - destruct (decide _) as [|Hn]; [done|]. intros Hl. split; [done|].
    intros [Hd ?]. apply Hn. split; [|done].
    by apply (all_delete_ids_spec now jobs i data).
  - intros [Hl Hn]. rewrite decide_False; [done|]. intros [Hd ?].
    apply Hn. split; [|done]. by apply (all_delete_ids_spec now jobs i data).
Qed.

Lemma main_lookup_None now dr jobs i data :
  jobs !! i = Some data →
  (Cleanup.main now dr jobs).1 !! i = None ↔
  (recent now data = true ∨ outranked now jobs i data) ∧ dr i = false.
Proof.
  intros Hl. rewrite main_lookup, Hl.
  rewrite <- (all_delete_ids_spec now jobs i data) by done.
  destruct (decide _); [tauto|]. split; [done|tauto].
Qed.

End deletion_loop.

(** ** Dates and keys of stored records *)

Section record_order.

Lemma recent_true now data :
  recent now data = true ↔
  ∃ d, datePosted data = Some d ∧ toordinal now - 2 ≤ toordinal d.
Proof.
  unfold recent, datePosted, mk_info, cutoff_recent. cbn [is_recent date snd].
  destruct (parse_date_safe _) as [d|].
  - rewrite bool_decide_eq_true. split; [by exists d|].
    by intros (? & [= <-] & ?).
  - split; [done|]. by intros (? & ? & _).
Qed.

Lemma recent_false_known now data d :
  recent now data = false → datePosted data = Some d →
  toordinal d < toordinal now - 2.
Proof.
  intros Hr Hd. destruct (decide (toordinal now - 2 ≤ toordinal d)); [|lia].
  assert (recent now data = true) by (apply recent_true; by exists d).
  congruence.
Qed.

Lemma doc_key_eq i data :
  doc_key (i, data) =
    match datePosted data with
    | Some d => (toordinal d, i)
    | None => (toordinal date_max, i)
    end.
Proof.
  unfold doc_key, datePosted, sort_key. cbn. by destruct (parse_date_safe _).
Qed.

Lemma doc_key_inj i data j data' :
  doc_key (i, data) = doc_key (j, data') → i = j.
Proof.
  rewrite !doc_key_eq. destruct (datePosted data), (datePosted data');
    intros H; by inversion H.
Qed.

Lemma under_recency_rule_spec now data :
  under_recency_rule now data ↔ recent now data = true.
Proof.
  rewrite recent_true. unfold under_recency_rule.
  split; intros (d & H & ?); exists d; (split; [by apply datePosted_spec|done]).
Qed.

(** Among records spared by the recency rule, the key order of the purge
    is the order of the specification: a spared known date lies before
    the cutoff, hence before [date.max]. *)
Lemma earliest_first_key_le now a b :
  valid_date now = true →
  ¬ under_recency_rule now a.2 → ¬ under_recency_rule now b.2 →
  earliest_first a b ↔ key_le (doc_key a) (doc_key b).
Proof.
  destruct a as [i da], b as [j db]. cbn [fst snd].
  intros Hnow%toordinal_le_max Ha Hb.
  rewrite under_recency_rule_spec in Ha, Hb.
  apply not_true_is_false in Ha, Hb.
  rewrite !doc_key_eq. unfold earliest_first, key_le. cbn [fst snd].
  destruct (datePosted da) as [x|] eqn:Ea, (datePosted db) as [y|] eqn:Eb;
    cbn [fst snd].
  - pose proof Ea as [Hx _]%datePosted_spec.
    pose proof Eb as [Hy _]%datePosted_spec. split.
    + intros [(x' & Hx' & [(y' & Hy' & Hord)|Hun])|(Hun & _)].
      * apply datePosted_spec in Hx', Hy'.
        assert (x' = x) as -> by congruence.
        assert (y' = y) as -> by congruence.
        destruct Hord as [Hlt|[-> ?]]; [|by right].
        left. by apply toordinal_lt.
      * apply unknown_date_spec in Hun. congruence.
      * apply unknown_date_spec in Hun. congruence.
    + intros Hle. left. exists x. split; [by apply datePosted_spec|]. left.
      exists y. split; [by apply datePosted_spec|].
      destruct Hle as [Hlt|[Heq ?]].
      * left. by apply toordinal_lt.
      * right. split; [by apply toordinal_inj|done].
  - pose proof (recent_false_known _ _ _ Ha Ea). split; [intros _; left; lia|].
    intros _. left. exists x. split; [by apply datePosted_spec|]. right.
    by apply unknown_date_spec.
  - pose proof (recent_false_known _ _ _ Hb Eb). split; [|lia].
    intros [(x' & Hx'%datePosted_spec & _)|(_ & Hun%unknown_date_spec & _)];
      congruence.
  - split.
    + intros [(x' & Hx'%datePosted_spec & _)|(_ & _ & ?)]; [congruence|].
      by right.
    + intros [?|[_ ?]]; [lia|]. right.
      split; [by apply unknown_date_spec|]. split; [by apply unknown_date_spec|done].
Qed.

Lemma least_key (l : list (string * dict)) :
  l ≠ [] → ∃ m, m ∈ l ∧ ∀ x, x ∈ l → key_le (doc_key m) (doc_key x).
Proof.
  induction l as [|a l IH]; [done|]. intros _.
  destruct l as [|b l].
  { exists a. split; [left|]. intros x ->%list_elem_of_singleton.
    apply key_le_refl. }
  destruct IH as (m & Hm & Hmin); [done|].
  destruct (key_le_total (doc_key a) (doc_key m)) as [Ham|Hma].
  - exists a. split; [left|]. intros x [->|Hx]%elem_of_cons; [apply key_le_refl|].
    eapply key_le_trans; eauto.
  - exists m. split; [by right|]. intros x [->|Hx]%elem_of_cons; auto.
Qed.

End record_order.

(** ** The age cleanup loop *)

Section age_cleanup.
Context (E : env) (cutoff : datetime).

(** The date the age rule reads is the one the purge reads. *)
Lemma older_than_str data s :
  get_or data "date-posted" "" = PStr s →
  older_than cutoff data ↔
  strip s ≠ "" ∧ ∃ d, strptime_ymd (strip s) = Some d
                      ∧ dt_lt (datetime_of_date d) cutoff.
Proof.
  intros Hs. unfold older_than, datePosted, mk_info, parse_date_safe.
  cbn [date snd]. rewrite Hs. cbn [or_empty].
  destruct (decide (strip s = "")) as [->|Hne].
  - split; [done|]. by intros [? _].
  - destruct (strptime_ymd (strip s)) as [d|].
    + split; [intros ?; split; [done|by exists d]
             | by intros [_ (? & [= <-] & ?)]].
    + split; [done|]. by intros [_ (? & ? & _)].
Qed.

(** One iteration: it raises on a null [date-posted], and otherwise
    deletes the document exactly when it is old and the delete goes
    through. *)
Lemma delete_if_old_run doc w :
  delete_if_old E cutoff doc w =
    match get_or doc.2 "date-posted" "" with
    | PNone => (Raised AttributeError, w)
    | PStr _ =>
        (Ok (),
         if decide (older_than cutoff doc.2 ∧ delete_raises E doc.1 = false)
         then set_jobs w (delete doc.1 (jobs w)) else w)
    end.
Proof.
  unfold delete_if_old.
  destruct (get_or doc.2 "date-posted" "") as [|s] eqn:Hs; [done|].
  pose proof (older_than_str doc.2 s Hs) as Hold.
  cbn. unfold mbind, M_bind, mret, M_ret. cbn.
  destruct (decide (strip s = "")) as [Hemp|Hne].
  { rewrite decide_False; [done|]. rewrite Hold. tauto. }
  destruct (strptime_ymd (strip s)) as [d|] eqn:Hd.
  - destruct (decide (dt_lt (datetime_of_date d) cutoff)) as [Hlt|Hnlt].
    + unfold try_catch, delete_doc, raise, modify_jobs.
      destruct (delete_raises E doc.1) eqn:Hdr.
      * rewrite decide_False; [done|]. by intros [_ ?].
      * rewrite decide_True; [done|]. split; [|done]. apply Hold. eauto.
    + rewrite decide_False; [done|]. rewrite Hold.
      intros [[_ (? & [= <-] & ?)] _]. done.
  - rewrite decide_False; [done|]. rewrite Hold.
    intros [[_ (? & ? & _)] _]. done.
Qed.

(** The loop only deletes, and only old documents it was handed. *)
Lemma for_each_delete_sound docs w :
  let w' := (for_each docs (delete_if_old E cutoff) w).2 in
  processed_urls_file w' = processed_urls_file w ∧ trace w' = trace w ∧
  ∀ i, jobs w' !! i = jobs w !! i
       ∨ (jobs w' !! i = None ∧ ∃ d, (i, d) ∈ docs ∧ older_than cutoff d
                                     ∧ delete_raises E i = false).
Proof.
  revert w. induction docs as [|doc docs IH]; intros w; cbn [for_each].
  { cbn. auto. }
  unfold mbind, M_bind. rewrite delete_if_old_run.
  destruct (get_or doc.2 "date-posted" ""); [cbn; auto|].
  destruct (decide _) as [[Hold Hdr]|_].
  - destruct (IH (set_jobs w (delete doc.1 (jobs w)))) as (Hf & Ht & Hj).
    split; [done|]. split; [done|]. intros i.
    destruct (Hj i) as [Hi|[Hi (d & Hd & ? & ?)]].
    + cbn [set_jobs jobs] in Hi. destruct (decide (doc.1 = i)) as [<-|Hne].
      * rewrite lookup_delete_eq in Hi. right. split; [done|].
        exists doc.2. split; [|done]. destruct doc; left.
      * rewrite lookup_delete_ne in Hi by done. by left.
    + right. split; [done|]. exists d. split; [by right|done].
  - destruct (IH w) as (Hf & Ht & Hj).
    split; [done|]. split; [done|]. intros i.
    destruct (Hj i) as [Hi|[Hi (d & Hd & ? & ?)]]; [by left|].
    right. split; [done|]. exists d. split; [by right|done].
Qed.

(** Without null dates the loop runs to the end and deletes every old
    document whose delete goes through. *)
Lemma for_each_delete_complete docs w i d :
  Forall (λ doc, get_or doc.2 "date-posted" "" ≠ PNone) docs →
  (i, d) ∈ docs → older_than cutoff d → delete_raises E i = false →
  jobs (for_each docs (delete_if_old E cutoff) w).2 !! i = None.
Proof.
  revert w. induction docs as [|doc docs IH]; intros w Hall Hin Hold Hdr.
  { by apply elem_of_nil in Hin. }
  apply Forall_cons in Hall as [Hdoc Hall].
  cbn [for_each]. unfold mbind, M_bind. rewrite delete_if_old_run.
  destruct (get_or doc.2 "date-posted" "") as [|s]; [done|].
  apply elem_of_cons in Hin as [<-|Hin].
  - cbn [fst snd]. rewrite decide_True by done.
    destruct (for_each_delete_sound docs (set_jobs w (delete i (jobs w))))
      as (_ & _ & Hj).
    destruct (Hj i) as [->|[-> _]]; [|done]. cbn. apply lookup_delete_eq.
  - destruct (decide _); by apply IH.
Qed.

(** The age rule of the specification is the one the loop applies. *)
Lemma aged_out_spec data : aged_out cutoff data ↔ older_than cutoff data.
Proof.
  unfold aged_out, older_than. split.
  - intros (d & ->%datePosted_spec & ?). done.
  - destruct (datePosted data) as [d|] eqn:Hd; [|done].
    intros ?. exists d. split; [by apply datePosted_spec|done].
Qed.

End age_cleanup.

(** The stream delivers the documents of the collection, each once, in
    the order of their ids. *)
Lemma by_id_trans : Transitive by_id.
Proof. intros a b c. unfold by_id. apply transitivity. Qed.

Lemma by_id_total : Total by_id.
Proof. intros a b. unfold by_id. apply (total String.le). Qed.

Lemma elem_of_stream J i data : (i, data) ∈ stream J ↔ J !! i = Some data.
Proof.
  unfold stream. rewrite merge_sort_Permutation. apply elem_of_map_to_list.
Qed.

Lemma stream_sorted J : StronglySorted by_id (stream J).
Proof.
  apply (@StronglySorted_merge_sort _ by_id _ by_id_trans by_id_total).
Qed.

Lemma NoDup_fst_stream J : NoDup (stream J).*1.
Proof.
  unfold stream. rewrite merge_sort_Permutation. apply NoDup_fst_map_to_list.
Qed.

(** The documents that come after a document of the stream are those
    whose ids come after its id. *)
Lemma stream_after J l1 i data l2 j dj :
  stream J = l1 ++ (i, data) :: l2 →
  J !! j = Some dj → String.le i j →
  (j, dj) ∈ (i, data) :: l2.
Proof.
  intros Hl Hj Hij. apply elem_of_stream in Hj. rewrite Hl in Hj.
  apply elem_of_app in Hj as [Hj|Hj]; [|done].
  pose proof (stream_sorted J) as Hs. rewrite Hl in Hs.
  assert (by_id (j, dj) (i, data)) as Hji.
  { apply (StronglySorted_app_1_elem_of _ _ _ _ _ Hs Hj). left. }
  unfold by_id in Hji. cbn in Hji.
  assert (j = i) as -> by (by apply (anti_symm String.le)).
  pose proof (NoDup_fst_stream J) as Hnd. rewrite Hl, fmap_app in Hnd.
  apply NoDup_app in Hnd as (_ & Hdisj & _). destruct (Hdisj i).
  - apply list_elem_of_fmap. by exists (i, dj).
  - cbn. left.
Qed.

(** The cutoff is computed before the [try]: when that raises, nothing
    has happened yet; otherwise the function ends normally. *)
Lemma delete_old_jobs_run E months now w :
  delete_old_jobs E months now w =
    match compute_cutoff now months with
    | Ok cutoff =>
        (Ok (), (for_each (stream (jobs w)) (delete_if_old E cutoff) w).2)
    | Raised e => (Raised e, w)
    end.
Proof.
  unfold delete_old_jobs, lift, try_catch, mbind, M_bind, get_jobs.
  destruct (compute_cutoff now months) as [cutoff|e]; [|done]. cbn.
  by destruct (for_each _ _ w) as [[[]|e] w'].
Qed.

(** On an [int] the horizon is thirty days a month. *)
Lemma horizon_days_int n : horizon_days (PInt n) = Ok (PInt (30 * n)).
Proof.
  unfold horizon_days, num_eqb. destruct (n =? 3) eqn:Hn; cbn [negb].
  - apply Z.eqb_eq in Hn as ->. done.
  - cbn. do 2 f_equal. Z.div_mod_to_equations. lia.
Qed.

Lemma sub_days_Ok now days cutoff :
  sub_days now days = Ok cutoff →
  cutoff = mkdatetime (dt_ordinal now - days) (dt_micros now)
  ∧ 1 ≤ dt_ordinal now - days ≤ toordinal date_max.
Proof.
  unfold sub_days. destruct (_ && _) eqn:H; [|done]. intros [= <-].
  apply andb_prop in H as [?%Z.leb_le ?%Z.leb_le]. done.
Qed.

(** ** One iteration of the admission loop *)

Section admission_facts.
Context (E : env).

Lemma job_exists_for_url_run url w :
  ∃ b, job_exists_for_url E url w = (Ok b, add_event w (EvExists url))
       ∧ (b = true ↔ query_raises E url = false
                      ∧ ∃ i data, jobs w !! i = Some data
                                  ∧ data !! "moreInfoLink" = Some (PStr url)).
Proof.
  unfold job_exists_for_url, where_moreInfoLink_limit_1, try_catch, emit,
    mbind, M_bind, mret, M_ret, raise, get_jobs. cbn.
  destruct (query_raises E url).
  { exists false. split; [done|]. split; [done|]. by intros [? _]. }
  cbn.
  set (P := λ doc : string * dict, doc.2 !! "moreInfoLink" = Some (PStr url)).
  destruct (filter P (map_to_list (jobs w))) as [|[i d] l] eqn:Hf; cbn.
  - exists false. split; [done|]. split; [done|].
    intros [_ (i & d & Hi & Hd)].
    assert ((i, d) ∈ filter P (map_to_list (jobs w))) as Hin.
    { apply list_elem_of_filter. split; [done|]. by apply elem_of_map_to_list. }
    rewrite Hf in Hin. by apply elem_of_nil in Hin.
  - exists true. split; [done|]. split; [|done]. intros _. split; [done|].
    assert ((i, d) ∈ filter P (map_to_list (jobs w))) as Hin
      by (rewrite Hf; left).
    apply list_elem_of_filter in Hin as [Hd Hi%elem_of_map_to_list].
    by exists i, d.
Qed.

Lemma gate_closed url w :
  (job_exists_for_url E url w).1 = Ok false →
  job_exists_for_url E url w = (Ok false, add_event w (EvExists url)).
Proof.
  destruct (job_exists_for_url_run url w) as (b & Hrun & _).
  rewrite Hrun. by intros [= ->].
Qed.

Lemma company_missing_empty : company_missing ∅.
Proof. by left. Qed.

(** The notifier never raises and leaves the store and the file alone. *)
Lemma send_onesignal_run job w :
  ∃ sent, send_onesignal_notification_for_job E job w
          = (Ok sent, add_event w (EvNotify job)).
Proof.
  unfold send_onesignal_notification_for_job, post, try_catch, emit,
    mbind, M_bind, mret, M_ret, raise. cbn.
  destruct (requests_post E job) as [status|]; [|by eexists].
  destruct (decide _); by eexists.
Qed.

(** The last [try] of the loop body, by outcome of the write. *)
Lemma insert_and_notify_run url d w :
  insert_and_notify E url d w =
    if add_raises E d
    then (Ok (), add_event w (EvAdd url d))
    else (Ok (),
          mkworld (<[auto_id E (jobs w) := d]> (jobs w))
                  (processed_urls_file w ++ [strip url])
                  (trace w ++ [EvAdd url d; EvNotify d; EvSeen url])).
Proof.
  unfold insert_and_notify, add, try_catch at 1, mbind at 1 2, M_bind, emit,
    raise, modify_jobs. cbn.
  destruct (add_raises E d); [done|]. cbn.
  unfold try_catch, mbind, M_bind.
  match goal with
  | |- context [send_onesignal_notification_for_job E d ?w0] =>
      destruct (send_onesignal_run d w0) as (sent & ->)
  end.
  cbn. unfold append_processed_url. cbn. by rewrite <- !app_assoc.
Qed.

Lemma validate_and_insert_run url job w :
  validate_and_insert E url job w =
    match job with
    | None => append_processed_url url w
    | Some d =>
        if decide (company_missing d) then append_processed_url url w
        else insert_and_notify E url d w
    end.
Proof.
  unfold validate_and_insert. destruct job as [d|]; [|done].
  destruct (decide (d = ∅)) as [->|]; [|by destruct (decide _)].
  by rewrite decide_True by apply company_missing_empty.
Qed.

(** One iteration, once the gate has answered [false] and a scraper
    handles the URL. *)
Lemma process_url_run url w f :
  (job_exists_for_url E url w).1 = Ok false →
  scraper_for url = Some f →
  process_url E url w =
    validate_and_insert E url (f E url)
      (add_event (add_event w (EvExists url)) (EvScrape url)).
Proof.
  intros Hgate Hf. unfold process_url, mbind at 1, M_bind.
  rewrite (gate_closed url w Hgate), Hf. done.
Qed.

Lemma append_processed_url_run url w :
  append_processed_url url w =
    (Ok (), mkworld (jobs w) (processed_urls_file w ++ [strip url])
                    (trace w ++ [EvSeen url])).
Proof. done. Qed.

(** Every iteration ends normally and only logs events of its own URL. *)
Lemma process_url_events url w :
  ∃ w' evs, process_url E url w = (Ok (), w')
            ∧ trace w' = trace w ++ evs ∧ Forall (event_of url) evs.
Proof.
  assert (Hclose : ∀ w' evs,
    trace w' = trace w ++ evs → Forall (event_of url) evs →
    ∃ w'' evs', (Ok (), w') = (Ok (), w'') ∧ trace w'' = trace w ++ evs'
                ∧ Forall (event_of url) evs') by eauto.
  unfold process_url, mbind at 1, M_bind.
  destruct (job_exists_for_url_run url w) as (b & -> & _).
  destruct b.
  { rewrite append_processed_url_run.
    apply (Hclose _ [EvExists url; EvSeen url]); cbn;
      [by rewrite <- app_assoc | by repeat constructor]. }
  destruct (scraper_for url) as [f|].
  2:{ rewrite append_processed_url_run.
      apply (Hclose _ [EvExists url; EvSeen url]); cbn;
        [by rewrite <- app_assoc | by repeat constructor]. }
  unfold scrape, emit, mret, M_ret, mbind, M_bind. cbn -[validate_and_insert].
  rewrite validate_and_insert_run.
  destruct (f E url) as [d|].
  2:{ rewrite append_processed_url_run.
      apply (Hclose _ [EvExists url; EvScrape url; EvSeen url]); cbn;
        [by rewrite <- !app_assoc | by repeat constructor]. }
  destruct (decide (company_missing d)).
  { rewrite append_processed_url_run.
    apply (Hclose _ [EvExists url; EvScrape url; EvSeen url]); cbn;
      [by rewrite <- !app_assoc | by repeat constructor]. }
  rewrite insert_and_notify_run. destruct (add_raises E d).
  - apply (Hclose _ [EvExists url; EvScrape url; EvAdd url d]); cbn;
      [by rewrite <- !app_assoc | by repeat constructor].
  - apply (Hclose _ [EvExists url; EvScrape url; EvAdd url d;
                     EvNotify d; EvSeen url]); cbn;
      [by rewrite <- !app_assoc | by repeat constructor].
Qed.

Lemma for_each_process_url_events urls w :
  ∃ evs, trace (for_each urls (process_url E) w).2 = trace w ++ evs
         ∧ Forall (λ ev, ∃ url, url ∈ urls ∧ event_of url ev) evs.
Proof.
  revert w. induction urls as [|url urls IH]; intros w; cbn [for_each].
  { exists []. cbn. by rewrite app_nil_r. }
  unfold mbind, M_bind.
  destruct (process_url_events url w) as (w1 & evs1 & -> & Ht1 & Hev1).
  destruct (IH w1) as (evs2 & Ht2 & Hev2).
  exists (evs1 ++ evs2). rewrite Ht2, Ht1, app_assoc. split; [done|].
  apply Forall_app. split.
  - eapply Forall_impl; [exact Hev1|]. intros ev ?. exists url.
    split; [left|done].
  - eapply Forall_impl; [exact Hev2|]. intros ev (u & ? & ?). exists u.
    split; [by right|done].
Qed.

(** The loop runs over the identifiers that are not in the set read at
    the start. *)
Lemma admission_run all_urls w :
  (admission E all_urls w).2 =
    (for_each (filter (λ u, u ∉ processed_set (processed_urls_file w)) all_urls)
              (process_url E) w).2.
Proof.
  unfold admission. destruct (decide (all_urls = [])) as [->|]; [done|].
  unfold mbind, M_bind, load_processed_urls.
  by destruct (decide (filter _ all_urls = [])) as [->|].
Qed.

End admission_facts.

(** * The claims of the specification *)

(** ** Retention and duplicate purge *)

(** C1.  Take all the records of the store that share one non-empty
    sourceLink [L], at least two of them, none under the recency rule, and
    let their deletes succeed, on a day [now] that is a date.  After one
    purge cycle exactly one record with that link remains; it is a member
    of the group, it is least for the ordering (datePosted, id) with
    unknown dates after all known ones, and no other member is.  The
    sourceLink of a record is the link the purge groups by; its
    datePosted is the date that its date-posted field is a text of. *)
Theorem purge_keeps_earliest_of_group
    (now : Py.date) (dr : string → bool) (jobs : collection) (L : string) :
  let group := filter (λ doc, sourceLink doc.2 = L) jobs in
  valid_date now = true →
  L ≠ "" →
  (2 ≤ size group)%nat →
  map_Forall (λ i data, ¬ under_recency_rule now data ∧ dr i = false) group →
  ∃ i data,
    group !! i = Some data
    ∧ map_Forall (λ j data', earliest_first (i, data) (j, data')) group
    ∧ (∀ j data', group !! j = Some data' →
         map_Forall (λ k d, earliest_first (j, data') (k, d)) group → j = i)
    ∧ filter (λ doc, sourceLink doc.2 = L) (Cleanup.main now dr jobs).1
      = {[ i := data ]}.
Proof.
  intros group Hnow HL Hsize Hall.
  assert (Hne : map_to_list group ≠ []).
  { intros Hnil. apply map_to_list_empty_iff in Hnil.
    rewrite Hnil, map_size_empty in Hsize. lia. }
  destruct (least_key _ Hne) as ([i data] & Hm & Hmin).
  apply elem_of_map_to_list in Hm.
  assert (Hg : ∀ k d, group !! k = Some d ↔ jobs !! k = Some d ∧ sourceLink d = L)
    by (intros k d; apply map_lookup_filter_Some).
  assert (Hmin' : ∀ k d, group !! k = Some d →
                         key_le (doc_key (i, data)) (doc_key (k, d))).
  { intros k d Hk. apply Hmin. by apply elem_of_map_to_list. }
  assert (Hspared : ∀ k d, group !! k = Some d → recent now d = false).
  { intros k d Hk. apply not_true_is_false. rewrite <- under_recency_rule_spec.
    by apply (Hall k d). }
  assert (Horder : ∀ k d k' d', group !! k = Some d → group !! k' = Some d' →
            earliest_first (k, d) (k', d')
            ↔ key_le (doc_key (k, d)) (doc_key (k', d'))).
  { intros k d k' d' Hk Hk'. apply (earliest_first_key_le now); cbn [snd].
    - done.
    - by apply (Hall k d).
    - by apply (Hall k' d'). }
  exists i, data. split; [done|]. split.
  { intros k d Hk. apply Horder; auto. }
  split.
  { intros j dj Hj Hleast. apply (doc_key_inj j dj i data).
    apply key_le_antisym.
    - apply Horder; [done..|]. by apply (Hleast i data).
    - by apply Hmin'. }
  apply map_eq. intros k. apply option_eq. intros d.
  rewrite map_lookup_filter_Some, main_lookup_Some, lookup_singleton_Some.
  cbn [snd]. split.
  - intros [[Hk Hkeep] HLk].
    assert (Hgk : group !! k = Some d) by (by apply Hg).
    destruct (decide (k = i)) as [->|Hki].
    { split; [done|]. apply Hg in Hm as [? _]. congruence. }
    destruct Hkeep. destruct (Hall k d Hgk) as [_ Hdr]. split; [|done].
    right. split; [by apply (Hspared k)|]. split; [congruence|].
    exists i, data. apply Hg in Hm as [Hi HLi].
    split; [done|]. split; [by apply (Hspared i), Hg|]. split; [congruence|].
    split; [by apply Hmin'|]. intros Heq%doc_key_inj. congruence.
  - intros [<- <-]. pose proof Hm as [Hi HLi]%Hg. split; [|done]. split; [done|].
    pose proof (Hspared i data Hm) as Hr.
    intros [[Hrec|(_ & _ & j & dj & Hj & _ & HLj & Hlt)] _]; [congruence|].
    assert (group !! j = Some dj) as Hgj by (apply Hg; split; [done|congruence]).
    eapply key_lt_irrefl, key_lt_le_trans; [exact Hlt|by apply Hmin'].
Qed.

Lemma purge_keeps_earliest_of_group_witness :
  filter (λ doc, sourceLink doc.2 = "L")
    (Cleanup.main today deletes_succeed Scenarios.shuffled_store).1
  = {[ "b" := job_doc "L" "2024-1-1" ]}.
Proof.
  assert (map_Forall (λ i data,
            recent today data = false
            ∧ key_le (doc_key ("b", job_doc "L" "2024-1-1")) (doc_key (i, data)))
            (filter (λ doc, sourceLink doc.2 = "L") Scenarios.shuffled_store))
    as Hkeys.
  { apply (bool_decide_unpack _). vm_compute. exact I. }
  assert (map_Forall (λ i data, ¬ under_recency_rule today data
                                ∧ deletes_succeed i = false)
            (filter (λ doc, sourceLink doc.2 = "L") Scenarios.shuffled_store))
    as Hspared.
  { intros i data Hi. split; [|reflexivity].
    rewrite under_recency_rule_spec. by destruct (Hkeys i data Hi) as [-> _]. }
  assert (filter (λ doc, sourceLink doc.2 = "L") Scenarios.shuffled_store !! "b"
          = Some (job_doc "L" "2024-1-1")) as Hb.
  { vm_compute. reflexivity. }
  destruct (purge_keeps_earliest_of_group today deletes_succeed
              Scenarios.shuffled_store "L")
    as (i & data & Hi & _ & Hone & ->).
  - reflexivity.
  - discriminate.
  - vm_compute. lia.
  - exact Hspared.
  - assert ("b" = i) as <-.
    { apply (Hone "b" (job_doc "L" "2024-1-1") Hb). intros k d Hk.
      apply (earliest_first_key_le today); cbn [snd].
      + reflexivity.
      + by apply (Hspared "b" _ Hb).
      + by apply (Hspared k d Hk).
      + by apply (Hkeys k d Hk). }
    rewrite Hb in Hi. by injection Hi as <-.
Defined.

(** The survivor is the record posted first, not the one with the
    least id: [a] was posted on 2024-01-05, [b] on 2024-01-01, the date
    of [c] is unknown, and the purge keeps [b]. *)
Example purge_keeps_the_record_posted_first :
  posted_on (job_doc "L" "2024-01-05") (mkdate 2024 1 5)
  ∧ posted_on (job_doc "L" "2024-1-1") (mkdate 2024 1 1)
  ∧ unknown_date (job_doc "L" "unknown")
  ∧ (Cleanup.main today deletes_succeed Scenarios.shuffled_store).1
    = {[ "b" := job_doc "L" "2024-1-1" ]}.
Proof.
  split; [by apply datePosted_spec|]. split; [by apply datePosted_spec|].
  split; [by apply unknown_date_spec|]. vm_compute. reflexivity.
Qed.

(** The first scenario of the specification: of the three records for
    [L] the purge keeps [id1]; [id4], posted today, goes as well. *)
Example purge_scenario :
  (Cleanup.main today deletes_succeed store).1
  = {[ "id1" := job_doc "L" "2024-01-01" ]}.
Proof. vm_compute. reflexivity. Qed.

(** Links that are blank once trimmed are not grouped. *)
Example blank_links_are_not_grouped :
  (Cleanup.main today deletes_succeed
     {[ "a" := job_doc " " "2024-01-01"; "b" := job_doc " " "2024-01-05" ]}).1
  = {[ "a" := job_doc " " "2024-01-01"; "b" := job_doc " " "2024-01-05" ]}.
Proof. vm_compute. reflexivity. Qed.

(** C2.  A stored record whose datePosted parses to a date on or after
    now minus two days is deleted by one purge cycle, whatever else the
    store holds (so also when it is alone for its sourceLink), provided
    its delete succeeds. *)
Theorem purge_deletes_recent
    (now : Py.date) (dr : string → bool) (jobs : collection)
    (i : string) (data : dict) (d : Py.date) :
  jobs !! i = Some data →
  datePosted data = Some d →
  toordinal now - 2 ≤ toordinal d →
  dr i = false →
  (Cleanup.main now dr jobs).1 !! i = None.
Proof.
  intros Hi Hd Hle Hdr. apply (main_lookup_None now dr jobs i data Hi).
  split; [|done]. left. apply recent_true. by exists d.
Qed.

Lemma purge_deletes_recent_witness :
  (Cleanup.main today deletes_succeed store).1 !! "id4" = None.
Proof.
  apply (purge_deletes_recent today deletes_succeed store "id4"
           (job_doc "M" "2024-03-10") (mkdate 2024 3 10)).
  - vm_compute. reflexivity.
  - vm_compute. reflexivity.
  - vm_compute. discriminate.
  - reflexivity.
Defined.

(** C5.  For every store, every value of now and every behaviour of the
    deletes that is the same in both runs, a second purge cycle run right
    after the first leaves the store as the first left it. *)
Theorem purge_idempotent
    (now : Py.date) (dr : string → bool) (jobs : collection) :
  (Cleanup.main now dr (Cleanup.main now dr jobs).1).1
  = (Cleanup.main now dr jobs).1.
Proof.
  apply map_eq. intros i. apply option_eq. intros data.
  rewrite main_lookup_Some. split; [tauto|]. intros Hi. split; [done|].
  pose proof Hi as [Hj Hkeep]%main_lookup_Some.
  intros [[Hrec|(Hnr & HL & j & dj & Hjl & Hnrj & HLj & Hlt)] Hdr];
    apply Hkeep; (split; [|done]); [by left|].
  right. split; [done|]. split; [done|]. exists j, dj.
  apply main_lookup_Some in Hjl as [? _]. done.
Qed.

(** C10.  A record whose date-posted is missing, null, blank or not a
    %Y-%m-%d date is never recent for the purge, survives the age cleanup
    whatever the horizon, and is deleted by a purge cycle only when
    another record spared by the recency rule carries the same non-empty
    link and sorts before it. *)
Theorem unparsable_date_only_deleted_as_duplicate
    (now : Py.date) (dr : string → bool)
    (E : env) (months : pynum) (now_dt : datetime) (w : world)
    (i : string) (data : dict) :
  jobs w !! i = Some data →
  datePosted data = None →
  recent now data = false
  ∧ jobs (delete_old_jobs E months now_dt w).2 !! i = Some data
  ∧ ((Cleanup.main now dr (jobs w)).1 !! i = None →
     outranked now (jobs w) i data).
Proof.
  intros Hi Hd.
  assert (Hr : recent now data = false).
  { destruct (recent now data) eqn:Hr; [|done].
    apply recent_true in Hr as (d & ? & _). congruence. }
  split; [done|]. split.
  - rewrite delete_old_jobs_run.
    destruct (compute_cutoff now_dt months) as [cutoff|e]; [|done]. cbn [snd].
    destruct (for_each_delete_sound E cutoff (stream (jobs w)) w)
      as (_ & _ & Hs).
    destruct (Hs i) as [->|[_ (d & Hin%elem_of_stream & Hold & _)]];
      [done|].
    assert (d = data) as -> by congruence.
    unfold older_than in Hold. by rewrite Hd in Hold.
  - intros Hdel. apply (main_lookup_None now dr (jobs w) i data Hi) in Hdel
      as [[?|?] _]; [congruence|done].
Qed.

Lemma unparsable_date_only_deleted_as_duplicate_witness :
  recent today (job_doc "L" "unknown") = false
  ∧ jobs (delete_old_jobs (outside "Acme" false None) (PInt 3)
            march_first_noon store_world).2 !! "id3"
    = Some (job_doc "L" "unknown")
  ∧ ((Cleanup.main today deletes_succeed (jobs store_world)).1 !! "id3" = None →
     outranked today (jobs store_world) "id3" (job_doc "L" "unknown")).
Proof.
  apply (unparsable_date_only_deleted_as_duplicate today deletes_succeed
           (outside "Acme" false None) (PInt 3) march_first_noon
           store_world "id3" (job_doc "L" "unknown")).
  - vm_compute. reflexivity.
  - vm_compute. reflexivity.
Defined.

(** ** Age cleanup *)

(** C6, as the code has it.  When the cutoff is a date of the years 1
    to 9999, no record has a null date-posted and every delete succeeds,
    [delete_old_jobs] ends normally and leaves exactly the records that
    have not aged out, a record having aged out when its date-posted is a
    text of a date whose midnight is strictly before the cutoff.  The
    cutoff is now minus the horizon, and the horizon is the whole number
    of days that [90 * months // 3] comes to: thirty days for each of the
    [months] when that is an integer, so ninety days for the call of
    [main], which passes 3, and forty-five days for the default of the
    parameter, 1.5. *)
Theorem delete_old_jobs_deletes_older_than_horizon
    (E : env) (months : pynum) (now cutoff : datetime) (w : world) :
  compute_cutoff now months = Ok cutoff →
  map_Forall (λ i data, get_or data "date-posted" "" ≠ PNone
                        ∧ delete_raises E i = false) (jobs w) →
  (∃ w', delete_old_jobs E months now w = (Ok (), w')
     ∧ ∀ i data, jobs w' !! i = Some data
                 ↔ jobs w !! i = Some data ∧ ¬ aged_out cutoff data)
  ∧ (∃ days, and_then (horizon_days months) timedelta = Ok days
       ∧ cutoff = mkdatetime (dt_ordinal now - days) (dt_micros now))
  ∧ (∀ n, horizon_days (PInt n) = Ok (PInt (30 * n)))
  ∧ and_then (horizon_days (PInt 3)) timedelta = Ok 90
  ∧ and_then (horizon_days default_months) timedelta = Ok 45.
Proof.
  intros Hcut Hall. split; [|split; [|split; [apply horizon_days_int|done]]].
  - rewrite delete_old_jobs_run, Hcut. eexists. split; [done|].
    destruct (for_each_delete_sound E cutoff (stream (jobs w)) w)
      as (_ & _ & Hs).
    intros i data. rewrite aged_out_spec. split.
    + intros Hi. destruct (Hs i) as [Hsame|[Hnone _]]; [|congruence].
      rewrite Hsame in Hi. split; [done|]. intros Hold.
      destruct (Hall i data Hi) as [_ Hdr].
      assert (jobs (for_each (stream (jobs w)) (delete_if_old E cutoff) w).2
                !! i = None) as Hgone; [|congruence].
      apply (for_each_delete_complete E cutoff _ w i data);
        [|by apply elem_of_stream|done..].
      apply Forall_forall. intros [k dk] Hk%elem_of_stream.
      by apply (Hall k dk).
    + intros [Hi Hyoung].
      destruct (Hs i) as [->|[_ (d & Hd%elem_of_stream & Hold & _)]];
        [done|].
      destruct Hyoung. congruence.
  - unfold compute_cutoff in Hcut.
    destruct (horizon_days months) as [h|]; [|done]. cbn [and_then] in *.
    destruct (timedelta h) as [days|]; [|done]. cbn [and_then] in Hcut.
    exists days. split; [done|]. by apply sub_days_Ok in Hcut as [-> _].
Qed.

Lemma delete_old_jobs_deletes_older_than_horizon_witness :
  (∃ w', delete_old_jobs (outside "Acme" false None) (PInt 3)
           Scenarios.march_31_one_second aged_world = (Ok (), w')
     ∧ ∀ i data, jobs w' !! i = Some data
                 ↔ jobs aged_world !! i = Some data
                   ∧ ¬ aged_out (mkdatetime (toordinal (mkdate 2024 1 1)) 1000000)
                         data)
  ∧ (∃ days, and_then (horizon_days (PInt 3)) timedelta = Ok days
       ∧ mkdatetime (toordinal (mkdate 2024 1 1)) 1000000
         = mkdatetime (dt_ordinal Scenarios.march_31_one_second - days)
             (dt_micros Scenarios.march_31_one_second))
  ∧ (∀ n, horizon_days (PInt n) = Ok (PInt (30 * n)))
  ∧ and_then (horizon_days (PInt 3)) timedelta = Ok 90
  ∧ and_then (horizon_days default_months) timedelta = Ok 45.
Proof.
  apply (delete_old_jobs_deletes_older_than_horizon
           (outside "Acme" false None) (PInt 3) Scenarios.march_31_one_second
           (mkdatetime (toordinal (mkdate 2024 1 1)) 1000000) aged_world).
  - vm_compute. reflexivity.
  - apply (bool_decide_unpack _). vm_compute. exact I.
Defined.

(** On 2024-03-31, one second after midnight, the call of [main]
    deletes the record posted on 2024-01-01, ninety days before, and
    keeps the two others. *)
Example ninety_day_old_record_is_deleted :
  jobs (delete_old_jobs (outside "Acme" false None) (PInt 3)
          Scenarios.march_31_one_second aged_world).2
  = {[ "feb" := job_doc "M" "2024-02-20"; "odd" := job_doc "N" "soon" ]}.
Proof. vm_compute. reflexivity. Qed.

(** The horizon is what the arithmetic of [float] makes it: for 0.7
    months the product is just below 63 and the horizon twenty days,
    not twenty-one. *)
Example horizon_of_a_fraction :
  and_then (horizon_days (float_literal 7 10)) timedelta = Ok 20
  ∧ and_then (horizon_days (float_literal 3 10)) timedelta = Ok 9.
Proof. split; vm_compute; reflexivity. Qed.

(** C6, counterexample.  Called with the default of its parameter, the
    cleanup deletes a record posted sixty days before now: the default
    horizon is forty-five days, not about ninety. *)
Lemma default_horizon_deletes_sixty_day_old_record :
  posted_on (job_doc "L" "2024-01-01") (mkdate 2024 1 1)
  ∧ dt_ordinal march_first_noon - toordinal (mkdate 2024 1 1) = 60
  ∧ jobs aged_world !! "jan" = Some (job_doc "L" "2024-01-01")
  ∧ jobs (delete_old_jobs (outside "Acme" false None) default_months
            march_first_noon aged_world).2 !! "jan" = None
  ∧ and_then (horizon_days default_months) timedelta = Ok 45.
Proof.
  split; [by apply datePosted_spec|]. repeat split; vm_compute; reflexivity.
Qed.

(** ** Existence gate *)

(** C4.  [job_exists_for_url] always returns normally and changes
    neither the store nor the processed file.  If the store query raises
    it returns false; if the query succeeds it returns true exactly when
    some record has that moreInfoLink. *)
Theorem job_exists_for_url_fail_open (E : env) (url : string) (w : world) :
  ∃ b, job_exists_for_url E url w = (Ok b, add_event w (EvExists url))
       ∧ (query_raises E url = true → b = false)
       ∧ (query_raises E url = false →
          (b = true ↔ ∃ i data, jobs w !! i = Some data
                                ∧ data !! "moreInfoLink" = Some (PStr url))).
Proof.
  destruct (job_exists_for_url_run E url w) as (b & Hrun & Hb).
  exists b. split; [done|]. split.
  - intros Hq. destruct b; [|done]. destruct Hb as [Hb _].
    destruct Hb as [? _]; [done|congruence].
  - intros Hq. rewrite Hb. tauto.
Qed.

(** The last scenario of the specification: the gate answers true, so
    nothing is scraped and the identifier is marked seen. *)
Example gate_true_scenario :
  trace (process_url (outside "Acme" false (Some 200)) page
           (mkworld {[ "old" := scraped "Acme" ]} [] [])).2
  = [EvExists page; EvSeen page].
Proof. vm_compute. reflexivity. Qed.

(** ** Admission pipeline *)

(** C3, as the code has it.  For an identifier that passes the gate and
    has a scraper: when the scrape fails, or the company is missing, the
    identifier is marked seen and nothing is written; when the store write
    raises, the identifier is not marked and nothing is stored; when the
    write succeeds, the identifier is marked, and the mark comes after the
    write and the notification. *)
Theorem seen_mark_by_outcome
    (E : env) (url : string) (w : world) (f : env → string → option dict) :
  (job_exists_for_url E url w).1 = Ok false →
  scraper_for url = Some f →
  let w' := (process_url E url w).2 in
  match f E url with
  | None => marked_seen w w' url ∧ jobs w' = jobs w
  | Some d =>
      if decide (company_missing d)
      then marked_seen w w' url ∧ jobs w' = jobs w
      else if add_raises E d
      then processed_urls_file w' = processed_urls_file w ∧ jobs w' = jobs w
           ∧ trace w' = trace w ++ [EvExists url; EvScrape url; EvAdd url d]
      else marked_seen w w' url
           ∧ trace w' = trace w ++ [EvExists url; EvScrape url; EvAdd url d;
                                    EvNotify d; EvSeen url]
  end.
Proof.
  intros Hgate Hf w'. subst w'. rewrite (process_url_run E url w f Hgate Hf).
  rewrite validate_and_insert_run. unfold marked_seen.
  destruct (f E url) as [d|]; [|done].
  destruct (decide (company_missing d)); [done|].
  rewrite insert_and_notify_run. destruct (add_raises E d); cbn.
  - by rewrite <- !app_assoc.
  - by rewrite <- !app_assoc.
Qed.

Lemma seen_mark_by_outcome_witness :
  marked_seen fresh_world
    (process_url (outside "Acme" false (Some 500)) page fresh_world).2 page
  ∧ trace (process_url (outside "Acme" false (Some 500)) page fresh_world).2
    = trace fresh_world ++ [EvExists page; EvScrape page;
                            EvAdd page (scraped "Acme");
                            EvNotify (scraped "Acme"); EvSeen page].
Proof.
  exact (seen_mark_by_outcome (outside "Acme" false (Some 500)) page fresh_world
           scrape_job_data_fresheropenings eq_refl eq_refl).
Defined.

(** C3, counterexample.  The store write fails for a page that was
    scraped with a company: the write is attempted, and the identifier is
    not in the Local Seen-Set afterwards. *)
Lemma write_failure_leaves_identifier_unmarked :
  add_raises (outside "Acme" true (Some 200)) (scraped "Acme") = true
  ∧ trace (process_url (outside "Acme" true (Some 200)) page fresh_world).2
    = [EvExists page; EvScrape page; EvAdd page (scraped "Acme")]
  ∧ processed_urls_file
      (process_url (outside "Acme" true (Some 200)) page fresh_world).2 = []
  ∧ page ∉ processed_set
             (processed_urls_file
                (process_url (outside "Acme" true (Some 200)) page
                   fresh_world).2).
Proof.
  repeat split; try (vm_compute; reflexivity).
  apply (bool_decide_unpack _). vm_compute. exact I.
Qed.

(** C7, as the code has it.  For an identifier that passes the gate and
    whose scraper returns a record: when the company, trimmed, is empty or
    is N/A in any letter case, nothing is inserted and the identifier is
    marked seen; otherwise, when the store write succeeds under a fresh
    id, the store gains exactly that one record and the identifier is
    marked seen. *)
Theorem insert_iff_company_present
    (E : env) (url : string) (w : world) (f : env → string → option dict)
    (d : dict) :
  (job_exists_for_url E url w).1 = Ok false →
  scraper_for url = Some f →
  f E url = Some d →
  let w' := (process_url E url w).2 in
  (company_missing d → jobs w' = jobs w ∧ marked_seen w w' url)
  ∧ (¬ company_missing d → add_raises E d = false →
     jobs w !! auto_id E (jobs w) = None →
     jobs w' = <[auto_id E (jobs w) := d]> (jobs w)
     ∧ size (jobs w') = S (size (jobs w))
     ∧ marked_seen w w' url).
Proof.
  intros Hgate Hf Hd w'. subst w'. rewrite (process_url_run E url w f Hgate Hf).
  rewrite validate_and_insert_run, Hd. unfold marked_seen. split.
  - intros Hm. by rewrite decide_True.
  - intros Hm Hadd Hfresh. rewrite decide_False by done.
    rewrite insert_and_notify_run, Hadd. cbn.
    split; [done|]. split; [|done]. by apply map_size_insert_None.
Qed.

Lemma insert_iff_company_present_witness :
  jobs (process_url (outside "Acme" false (Some 200)) page fresh_world).2
    = <[ "new-id" := scraped "Acme" ]> (jobs fresh_world)
  ∧ size (jobs (process_url (outside "Acme" false (Some 200)) page
                  fresh_world).2) = S (size (jobs fresh_world))
  ∧ marked_seen fresh_world
      (process_url (outside "Acme" false (Some 200)) page fresh_world).2 page.
Proof.
  apply (proj2 (insert_iff_company_present (outside "Acme" false (Some 200))
                  page fresh_world scrape_job_data_fresheropenings
                  (scraped "Acme") eq_refl eq_refl eq_refl)).
  - apply (bool_decide_unpack _). vm_compute. exact I.
  - reflexivity.
  - reflexivity.
Defined.

(** C7, counterexample.  The scraper returns a record whose company is
    the non-empty string N/A; the gate is passed, and nothing is
    inserted. *)
Lemma placeholder_company_is_not_inserted :
  scraped "N/A" !! "company" = Some (PStr "N/A")
  ∧ "N/A" ≠ ""
  ∧ (job_exists_for_url (outside "N/A" false (Some 200)) page fresh_world).1
    = Ok false
  ∧ scraper_for page = Some scrape_job_data_fresheropenings
  ∧ scrape_job_data_fresheropenings (outside "N/A" false (Some 200)) page
    = Some (scraped "N/A")
  ∧ jobs (process_url (outside "N/A" false (Some 200)) page fresh_world).2 = ∅.
Proof. repeat split; try (vm_compute; reflexivity). discriminate. Qed.

(** C8.  For an identifier that is in the Local Seen-Set when the run
    reads it, the run logs no gate query, no scrape call and no store
    write for that identifier, whatever the list of candidates. *)
Theorem seen_identifier_untouched
    (E : env) (all_urls : list string) (w : world) (u : string) :
  u ∈ processed_set (processed_urls_file w) →
  ∃ evs, trace (admission E all_urls w).2 = trace w ++ evs
         ∧ Forall (λ ev, ¬ concerns u ev) evs.
Proof.
  intros Hu. rewrite admission_run.
  destruct (for_each_process_url_events E
              (filter (λ u, u ∉ processed_set (processed_urls_file w)) all_urls)
              w) as (evs & Ht & Hev).
  exists evs. split; [done|]. eapply Forall_impl; [exact Hev|].
  intros ev (url & [Hnew _]%list_elem_of_filter & Hof) Hc.
  destruct ev; cbn in Hof, Hc; congruence.
Qed.

Lemma seen_identifier_untouched_witness :
  page ∈ processed_set (processed_urls_file seen_world)
  ∧ ∃ evs,
      trace (admission (outside "Acme" false (Some 200))
               [page; "https://fresheropenings.com/b"] seen_world).2
      = trace seen_world ++ evs
      ∧ Forall (λ ev, ¬ concerns page ev) evs.
Proof.
  assert (H : page ∈ processed_set (processed_urls_file seen_world)).
  { apply (bool_decide_unpack _). vm_compute. exact I. }
  split; [exact H|].
  exact (seen_identifier_untouched (outside "Acme" false (Some 200))
           [page; "https://fresheropenings.com/b"] seen_world page H).
Defined.

(** The scenario of the specification: the only candidate is already
    seen, and the run does nothing at all. *)
Example seen_scenario :
  admission (outside "Acme" false (Some 200)) [page] seen_world
  = (Ok (), seen_world).
Proof. vm_compute. reflexivity. Qed.

(** C9.  When the store write of an iteration succeeds, the notifier is
    called exactly once in that iteration, and whatever the notification
    request does (any status, or an exception) the inserted record is in
    the store as written and the identifier is marked seen. *)
Theorem notifier_once_and_harmless
    (E : env) (url : string) (w : world) (f : env → string → option dict)
    (d : dict) :
  (job_exists_for_url E url w).1 = Ok false →
  scraper_for url = Some f →
  f E url = Some d →
  ¬ company_missing d →
  add_raises E d = false →
  let w' := (process_url E url w).2 in
  ∃ evs, trace w' = trace w ++ evs
         ∧ length (filter (λ ev, is_notify ev = true) evs) = 1%nat
         ∧ jobs w' = <[auto_id E (jobs w) := d]> (jobs w)
         ∧ marked_seen w w' url.
Proof.
  intros Hgate Hf Hd Hm Hadd w'. subst w'.
  rewrite (process_url_run E url w f Hgate Hf).
  rewrite validate_and_insert_run, Hd, decide_False by done.
  rewrite insert_and_notify_run, Hadd. cbn.
  exists [EvExists url; EvScrape url; EvAdd url d; EvNotify d; EvSeen url].
  by rewrite <- !app_assoc.
Qed.

Lemma notifier_once_and_harmless_witness :
  requests_post (outside "Acme" false None) (scraped "Acme") = None
  ∧ ∃ evs,
      trace (process_url (outside "Acme" false None) page fresh_world).2
      = trace fresh_world ++ evs
      ∧ length (filter (λ ev, is_notify ev = true) evs) = 1%nat
      ∧ jobs (process_url (outside "Acme" false None) page fresh_world).2
        = <[ "new-id" := scraped "Acme" ]> (jobs fresh_world)
      ∧ marked_seen fresh_world
          (process_url (outside "Acme" false None) page fresh_world).2 page.
Proof.
  split; [reflexivity|].
  apply (notifier_once_and_harmless (outside "Acme" false None) page fresh_world
           scrape_job_data_fresheropenings (scraped "Acme")
           eq_refl eq_refl eq_refl).
  - apply (bool_decide_unpack _). vm_compute. exact I.
  - reflexivity.
Defined.

(** * Further properties of the code *)

(** ** More on the purge *)

Section purge_more.

Lemma all_delete_ids_stored now jobs i :
  i ∈ all_delete_ids (cutoff_recent now) (map_to_list jobs) →
  is_Some (jobs !! i).
Proof.
  unfold all_delete_ids.
  change (info_list (cutoff_recent now) (map_to_list jobs))
    with (infos_of now jobs).
  intros [Hr|Hd]%elem_of_union.
  - unfold recent_delete_ids in Hr.
    apply elem_of_list_to_set, list_elem_of_fmap in Hr
      as (inf & -> & [_ Hin]%list_elem_of_filter).
    apply elem_of_infos in Hin as (j & d & Hj & ->). by exists d.
  - apply duplicate_delete_ids_elem in Hd as (L & g & Hg & _ & Hin).
    rewrite link_to_infos_lookup in Hg.
    destruct (decide (L ≠ "" ∧ _)) as [_|]; [|done].
    injection Hg as <-.
    apply list_elem_of_fmap in Hin as (x & -> & Hx).
    assert (x ∈ sorted (group_of (recent_delete_ids (infos_of now jobs))
                          (infos_of now jobs) L)) as Hs.
    { rewrite <- (take_drop 1 (sorted _)). apply elem_of_app. by right. }
    unfold sorted in Hs. rewrite merge_sort_Permutation in Hs.
    apply list_elem_of_filter in Hs as [_ Hin].
    apply elem_of_infos in Hin as (j & d & Hj & ->). by exists d.
Qed.

(** The deletion loop over distinct stored ids: what it counts and what
    it removes. *)
Lemma foldl_delete_step_count docs dr (l : list string) (J : collection) n :
  NoDup l →
  (∀ k, k ∈ l → is_Some (J !! k) ∧ k ∈ docs.*1) →
  (foldl (delete_step (id_to_ref docs) dr) (J, n) l).2
    = (n + length (filter (λ k, dr k = true) l))%nat
  ∧ (size (foldl (delete_step (id_to_ref docs) dr) (J, n) l).1 + length l
     = size J + length (filter (λ k, dr k = true) l))%nat.
Proof.
  revert J n. induction l as [|k l IH]; intros J n Hnd Hin; cbn [foldl].
  { cbn. lia. }
  apply NoDup_cons in Hnd as [Hk Hnd].
  destruct (Hin k) as [[d Hd] Hkd]; [left|].
  assert (delete_step (id_to_ref docs) dr (J, n) k
          = if dr k then (J, S n) else (delete k J, n)) as ->.
  { unfold delete_step. by rewrite id_to_ref_lookup, decide_True by done. }
  destruct (dr k) eqn:Hdr.
  - destruct (IH J (S n) Hnd) as [H1 H2].
    { intros j Hj. apply Hin. by right. }
    rewrite filter_cons_True by done. cbn [length]. lia.
  - destruct (IH (delete k J) n Hnd) as [H1 H2].
    { intros j Hj. destruct (Hin j) as [Hs ?]; [by right|]. split; [|done].
      rewrite lookup_delete_ne; [done|]. intros ->. done. }
    rewrite filter_cons_False by (rewrite Hdr; done). cbn [length].
    assert (size (delete k J) + 1 = size J)%nat.
    { rewrite map_size_delete_Some by (by exists d).
      assert (size J ≠ 0)%nat; [|lia].
      intros ->%map_size_empty_iff. by rewrite lookup_empty in Hd. }
    lia.
Qed.

End purge_more.

(** X1.  The purge only deletes: whatever the deletes do, every record
    of the collection it leaves was in the collection before, under the
    same id and unchanged. *)
Theorem purge_only_deletes
    (now : Py.date) (dr : string → bool) (jobs : collection) :
  (Cleanup.main now dr jobs).1 ⊆ jobs.
Proof.
  apply map_subseteq_spec. intros i d Hi.
  by apply main_lookup_Some in Hi as [? _].
Qed.

(** X2.  When every delete goes through, the collection the purge
    leaves holds no record under the recency rule, and no two records with
    the same non-empty link. *)
Theorem purge_leaves_no_recent_no_duplicates
    (now : Py.date) (dr : string → bool) (jobs : collection) :
  (∀ i, dr i = false) →
  let kept := (Cleanup.main now dr jobs).1 in
  (∀ i d, kept !! i = Some d → recent now d = false)
  ∧ (∀ i j di dj, kept !! i = Some di → kept !! j = Some dj →
       sourceLink di = sourceLink dj → sourceLink di ≠ "" → i = j).
Proof.
  intros Hdr kept. split.
  - intros i d [Hi Hkeep]%main_lookup_Some.
    destruct (recent now d) eqn:Hr; [|done]. destruct Hkeep. auto.
  - intros i j di dj [Hi Hki]%main_lookup_Some [Hj Hkj]%main_lookup_Some HL Hne.
    destruct (decide (i = j)) as [|Hij]; [done|]. exfalso.
    assert (Hri : recent now di = false).
    { destruct (recent now di) eqn:Hr; [|done]. destruct Hki. auto. }
    assert (Hrj : recent now dj = false).
    { destruct (recent now dj) eqn:Hr; [|done]. destruct Hkj. auto. }
    assert (Hk : doc_key (i, di) ≠ doc_key (j, dj))
      by (intros Heq%doc_key_inj; done).
    destruct (key_le_total (doc_key (i, di)) (doc_key (j, dj))) as [Hle|Hle].
    + apply Hkj. split; [|done]. right. split; [done|]. split; [congruence|].
      exists i, di. repeat split; done.
    + apply Hki. split; [|done]. right. split; [done|]. split; [done|].
      exists j, dj. repeat split; done.
Qed.

Lemma purge_leaves_no_recent_no_duplicates_witness :
  let kept := (Cleanup.main Examples.today deletes_succeed store).1 in
  (∀ i d, kept !! i = Some d → recent Examples.today d = false)
  ∧ (∀ i j di dj, kept !! i = Some di → kept !! j = Some dj →
       sourceLink di = sourceLink dj → sourceLink di ≠ "" → i = j).
Proof.
  apply (purge_leaves_no_recent_no_duplicates Examples.today deletes_succeed
           store).
  intros i. reflexivity.
Defined.

(** X3.  The purge never loses a link: for a stored record that the
    recency rule spares and whose link is not empty, a record with that
    link, itself spared by the recency rule, is still stored afterwards,
    whatever the deletes do. *)
Theorem purge_keeps_a_copy_of_each_link
    (now : Py.date) (dr : string → bool) (jobs : collection)
    (i : string) (d : dict) :
  jobs !! i = Some d →
  recent now d = false →
  sourceLink d ≠ "" →
  ∃ j dj, (Cleanup.main now dr jobs).1 !! j = Some dj
          ∧ sourceLink dj = sourceLink d ∧ recent now dj = false.
Proof.
  intros Hi Hr HL.
  set (group := filter (λ doc : string * dict,
                  recent now doc.2 = false ∧ sourceLink doc.2 = sourceLink d)
                  (map_to_list jobs)).
  assert (Hin : (i, d) ∈ group).
  { apply list_elem_of_filter. split; [done|]. by apply elem_of_map_to_list. }
  destruct (least_key group) as ([j dj] & Hm & Hmin).
  { intros Hnil. rewrite Hnil in Hin. by apply elem_of_nil in Hin. }
  apply list_elem_of_filter in Hm as [[Hrj HLj] Hj%elem_of_map_to_list].
  cbn [snd] in Hrj, HLj.
  exists j, dj. split; [|done]. apply main_lookup_Some. split; [done|].
  intros [[Hrec|(_ & _ & k & dk & Hk & Hrk & HLk & Hlt)] _]; [congruence|].
  assert ((k, dk) ∈ group) as Hkg.
  { apply list_elem_of_filter. split; [split; [done|cbn [snd]; congruence]|].
    by apply elem_of_map_to_list. }
  eapply key_lt_irrefl, key_lt_le_trans; [exact Hlt|by apply Hmin].
Qed.

Lemma purge_keeps_a_copy_of_each_link_witness :
  ∃ j dj, (Cleanup.main Examples.today deletes_succeed store).1 !! j = Some dj
          ∧ sourceLink dj = sourceLink (job_doc "L" "2024-01-05")
          ∧ recent Examples.today dj = false.
Proof.
  apply (purge_keeps_a_copy_of_each_link Examples.today deletes_succeed store
           "id2" (job_doc "L" "2024-01-05")).
  - vm_compute. reflexivity.
  - vm_compute. reflexivity.
  - vm_compute. discriminate.
Defined.

(** X4.  A record that the recency rule spares is never deleted by the
    purge when its link is blank, or when no other record spared by the
    recency rule carries its link. *)
Theorem purge_spares_unlinked_and_single
    (now : Py.date) (dr : string → bool) (jobs : collection)
    (i : string) (d : dict) :
  jobs !! i = Some d →
  recent now d = false →
  sourceLink d = ""
  ∨ map_Forall (λ j dj, recent now dj = false →
                        sourceLink dj = sourceLink d → j = i) jobs →
  (Cleanup.main now dr jobs).1 !! i = Some d.
Proof.
  intros Hi Hr Hcase. apply main_lookup_Some. split; [done|].
  intros [[Hrec|(_ & HL & j & dj & Hj & Hrj & HLj & Hlt)] _]; [congruence|].
  destruct Hcase as [Hemp|Hone]; [done|].
  assert (j = i) as -> by (by apply (Hone j dj)).
  assert (dj = d) as -> by congruence.
  by apply key_lt_irrefl in Hlt.
Qed.

Lemma purge_spares_unlinked_and_single_witness :
  (Cleanup.main Examples.today (λ _, false) (jobs aged_world)).1 !! "jan"
  = Some (job_doc "L" "2024-01-01").
Proof.
  apply (purge_spares_unlinked_and_single Examples.today (λ _, false)
           (jobs aged_world) "jan" (job_doc "L" "2024-01-01")).
  - vm_compute. reflexivity.
  - vm_compute. reflexivity.
  - right. apply (bool_decide_unpack _). vm_compute. exact I.
Defined.

(** X5.  The failure counter of the purge is the number of scheduled
    ids whose delete raised, and the collection shrinks by exactly the
    scheduled ids whose delete went through. *)
Theorem purge_reports_what_it_removed
    (now : Py.date) (dr : string → bool) (jobs : collection) :
  let ids := all_delete_ids (cutoff_recent now) (map_to_list jobs) in
  let failures := (Cleanup.main now dr jobs).2 in
  failures = length (filter (λ i, dr i = true) (elements ids))
  ∧ (size (Cleanup.main now dr jobs).1 + size ids = size jobs + failures)%nat.
Proof.
  intros ids failures. subst failures. unfold Cleanup.main. fold ids.
  destruct (foldl_delete_step_count (map_to_list jobs) dr (elements ids) jobs 0)
    as [H1 H2].
  - apply NoDup_elements.
  - intros k Hk%elem_of_elements.
    pose proof (all_delete_ids_stored _ _ _ Hk) as [d Hd].
    split; [by exists d|]. apply list_elem_of_fmap. exists (k, d).
    split; [done|]. by apply elem_of_map_to_list.
  - cbn [fst snd] in *. split; [done|]. rewrite H1.
    change (size ids) with (length (elements ids)). lia.
Qed.

(** ** More on the age cleanup *)

Section sweep.
Context (E : env) (cutoff : datetime).

Lemma for_each_app {A} (l1 l2 : list A) (body : A → M unit) w :
  for_each (l1 ++ l2) body w =
    match for_each l1 body w with
    | (Ok _, w1) => for_each l2 body w1
    | (Raised e, w1) => (Raised e, w1)
    end.
Proof.
  revert w. induction l1 as [|x l1 IH]; intros w; cbn [for_each app].
  { done. }
  unfold mbind, M_bind. destruct (body x w) as [[[]|e] w1]; [apply IH|done].
Qed.

(** A null [date-posted] ends the loop where it stands. *)
Lemma for_each_delete_stops l1 doc l2 w :
  get_or doc.2 "date-posted" "" = PNone →
  (for_each (l1 ++ doc :: l2) (delete_if_old E cutoff) w).2
  = (for_each l1 (delete_if_old E cutoff) w).2.
Proof.
  intros Hnull. rewrite for_each_app.
  destruct (for_each l1 _ w) as [[[]|e] w1]; [|done].
  cbn [for_each]. unfold mbind, M_bind.
  by rewrite delete_if_old_run, Hnull.
Qed.

End sweep.

Lemma compute_cutoff_Ok months now days :
  and_then (horizon_days months) timedelta = Ok days →
  1 ≤ dt_ordinal now - days ≤ toordinal date_max →
  compute_cutoff now months
  = Ok (mkdatetime (dt_ordinal now - days) (dt_micros now)).
Proof.
  unfold compute_cutoff. intros Hd Hr.
  destruct (horizon_days months) as [h|]; [|done]. cbn [and_then] in *.
  rewrite Hd. cbn [and_then]. unfold sub_days.
  rewrite (proj2 (Z.leb_le _ _) (proj1 Hr)), (proj2 (Z.leb_le _ _) (proj2 Hr)).
  done.
Qed.

(** X6.  Whatever the collection holds and whatever the deletes do,
    [delete_old_jobs] leaves the processed file alone, changes no record
    and deletes only records that have aged out and whose delete went
    through.  It raises exactly when its cutoff cannot be computed, that
    is when the horizon is not a number of days that a [timedelta] holds
    or the cutoff is not a date of the years 1 to 9999, and then it has
    deleted nothing; otherwise it ends normally. *)
Theorem delete_old_jobs_only_removes_old
    (E : env) (months : pynum) (now : datetime) (w : world) :
  ∃ r w', delete_old_jobs E months now w = (r, w')
    ∧ processed_urls_file w' = processed_urls_file w
    ∧ trace w' = trace w
    ∧ jobs w' ⊆ jobs w
    ∧ match compute_cutoff now months with
      | Ok cutoff =>
          r = Ok ()
          ∧ ∀ i data, jobs w !! i = Some data → jobs w' !! i = None →
              aged_out cutoff data ∧ delete_raises E i = false
      | Raised e => r = Raised e ∧ w' = w
      end.
Proof.
  rewrite delete_old_jobs_run.
  destruct (compute_cutoff now months) as [cutoff|e].
  2:{ exists (Raised e), w. by repeat split. }
  destruct (for_each_delete_sound E cutoff (stream (jobs w)) w)
    as (Hf & Ht & Hj).
  eexists _, _. split; [done|]. split; [done|]. split; [done|]. split.
  { apply map_subseteq_spec. intros i data Hi.
    destruct (Hj i) as [<-|[Hn _]]; [done|]. congruence. }
  split; [done|]. intros i data Hi Hn.
  destruct (Hj i) as [Heq|[_ (d' & Hd%elem_of_stream & ? & ?)]].
  - congruence.
  - assert (d' = data) as -> by congruence. by rewrite aged_out_spec.
Qed.

(** Asked to look 40000 months back from 2024, the cleanup raises before
    it has touched the store. *)
Example cutoff_before_the_year_one :
  delete_old_jobs (outside "Acme" false None) (PInt 40000) march_first_noon
    aged_world
  = (Raised OverflowError, aged_world).
Proof. vm_compute. reflexivity. Qed.

(** X7.  A record whose [date-posted] is present and null ends the
    sweep of [delete_old_jobs], which goes through the records in the
    order of their ids: that record and every record whose id comes
    after its id are still stored afterwards, however old. *)
Theorem null_date_stops_the_sweep
    (E : env) (months : pynum) (now : datetime) (w : world)
    (i j : string) (data dj : dict) :
  jobs w !! i = Some data →
  data !! "date-posted" = Some PNone →
  jobs w !! j = Some dj →
  String.le i j →
  jobs (delete_old_jobs E months now w).2 !! j = Some dj.
Proof.
  intros Hi Hnull Hj Hij. rewrite delete_old_jobs_run.
  destruct (compute_cutoff now months) as [cutoff|e]; [|done]. cbn [snd].
  pose proof Hi as (l1 & l2 & Hl)%elem_of_stream%list_elem_of_split.
  pose proof (stream_after _ _ _ _ _ _ _ Hl Hj Hij) as Hin.
  rewrite Hl, for_each_delete_stops
    by (cbn [snd]; unfold get_or; by rewrite Hnull).
  destruct (for_each_delete_sound E cutoff l1 w) as (_ & _ & Hs).
  destruct (Hs j) as [->|[_ (d' & Hd & _)]]; [done|]. exfalso.
  pose proof (NoDup_fst_stream (jobs w)) as Hnd.
  rewrite Hl, fmap_app in Hnd. apply NoDup_app in Hnd as (_ & Hdisj & _).
  apply (Hdisj j).
  - apply list_elem_of_fmap. by exists (j, d').
  - apply list_elem_of_fmap. by exists (j, dj).
Qed.

Lemma null_date_stops_the_sweep_witness :
  jobs (delete_old_jobs (outside "Acme" false None) (PInt 3)
          march_first_noon Scenarios.null_world).2 !! "c"
  = Some (job_doc "M" "2020-01-02").
Proof.
  apply (null_date_stops_the_sweep (outside "Acme" false None) (PInt 3)
           march_first_noon Scenarios.null_world "b" "c" Scenarios.null_doc
           (job_doc "M" "2020-01-02")).
  - vm_compute. reflexivity.
  - vm_compute. reflexivity.
  - vm_compute. reflexivity.
  - vm_compute. exact I.
Defined.

(** Of two records of 2020, the one before the null record is deleted
    and the one after it is kept. *)
Example null_date_in_the_middle :
  jobs (delete_old_jobs (outside "Acme" false None) (PInt 3)
          march_first_noon Scenarios.null_world).2
  = {[ "b" := Scenarios.null_doc; "c" := job_doc "M" "2020-01-02" ]}.
Proof. vm_compute. reflexivity. Qed.

(** X8.  The age rule counts in whole days, up to the time of day of
    the run.  Let the horizon come to [days] days and the cutoff be a
    date of the years 1 to 9999; when no record has a null date and the
    delete of a record goes through: posted fewer than [days] days ago
    it is kept, posted more days ago it is deleted, and posted exactly
    [days] days ago it is deleted unless the run happens at midnight
    sharp. *)
Theorem age_cleanup_day_boundary
    (E : env) (months : pynum) (now : datetime) (w : world) (days : Z)
    (i : string) (data : dict) (d : Py.date) :
  and_then (horizon_days months) timedelta = Ok days →
  1 ≤ dt_ordinal now - days ≤ toordinal date_max →
  map_Forall (λ _ data', get_or data' "date-posted" "" ≠ PNone) (jobs w) →
  jobs w !! i = Some data →
  posted_on data d →
  delete_raises E i = false →
  let age := dt_ordinal now - toordinal d in
  let w' := (delete_old_jobs E months now w).2 in
  (age < days → jobs w' !! i = Some data)
  ∧ (days < age → jobs w' !! i = None)
  ∧ (age = days → (jobs w' !! i = None ↔ 0 < dt_micros now)).
Proof.
  intros Hdays Hrange Hall Hi Hd%datePosted_spec Hdr age w'. subst w'.
  rewrite delete_old_jobs_run, (compute_cutoff_Ok _ _ _ Hdays Hrange).
  cbn [snd].
  set (cutoff := mkdatetime _ _).
  assert (Hold : older_than cutoff data ↔
                 age > days ∨ (age = days ∧ 0 < dt_micros now)).
  { unfold older_than. rewrite Hd. unfold dt_lt, cutoff. cbn. lia. }
  assert (Hgone : older_than cutoff data →
    jobs (for_each (stream (jobs w)) (delete_if_old E cutoff) w).2 !! i
    = None).
  { intros Ho. apply (for_each_delete_complete E cutoff _ w i data); try done.
    - apply Forall_forall. intros [k dk] Hk%elem_of_stream.
      by apply (Hall k dk).
    - by apply elem_of_stream. }
  assert (Hkept : ¬ older_than cutoff data →
    jobs (for_each (stream (jobs w)) (delete_if_old E cutoff) w).2 !! i
    = Some data).
  { intros Hy.
    destruct (for_each_delete_sound E cutoff (stream (jobs w)) w)
      as (_ & _ & Hs).
    destruct (Hs i) as [->|[_ (d' & Hd'%elem_of_stream & Ho & _)]];
      [done|].
    destruct Hy. congruence. }
  split; [|split].
  - intros Hlt. apply Hkept. rewrite Hold. lia.
  - intros Hlt. apply Hgone, Hold. lia.
  - intros Heq. split.
    + intros Hnone. destruct (decide (0 < dt_micros now)); [done|].
      rewrite Hkept in Hnone; [done|]. rewrite Hold. lia.
    + intros Hpos. apply Hgone, Hold. lia.
Qed.

Lemma age_cleanup_day_boundary_witness :
  let age := dt_ordinal Scenarios.march_31_one_second
             - toordinal (mkdate 2024 1 1) in
  let w' := (delete_old_jobs (outside "Acme" false None) (PInt 3)
               Scenarios.march_31_one_second aged_world).2 in
  (age < 90 → jobs w' !! "jan" = Some (job_doc "L" "2024-01-01"))
  ∧ (90 < age → jobs w' !! "jan" = None)
  ∧ (age = 90 →
     (jobs w' !! "jan" = None ↔ 0 < dt_micros Scenarios.march_31_one_second)).
Proof.
  apply (age_cleanup_day_boundary (outside "Acme" false None) (PInt 3)
           Scenarios.march_31_one_second aged_world 90 "jan"
           (job_doc "L" "2024-01-01") (mkdate 2024 1 1)).
  - vm_compute. reflexivity.
  - vm_compute. split; discriminate.
  - apply (bool_decide_unpack _). vm_compute. exact I.
  - vm_compute. reflexivity.
  - by apply datePosted_spec.
  - reflexivity.
Defined.

(** With 0.7 months the horizon is twenty days: at noon of 2024-03-11
    the record posted on 2024-02-20, twenty days before, is deleted. *)
Example twenty_days_at_seven_tenths :
  and_then (horizon_days (float_literal 7 10)) timedelta = Ok 20
  ∧ dt_ordinal Scenarios.march_11_noon - toordinal (mkdate 2024 2 20) = 20
  ∧ jobs (delete_old_jobs (outside "Acme" false None) (float_literal 7 10)
            Scenarios.march_11_noon aged_world).2 !! "feb" = None.
Proof. repeat split; vm_compute; reflexivity. Qed.

(** ** Strings: reversal and [strip] *)

Section strip_facts.

Lemma string_app_nil_l s : "" +:+ s = s.
Proof. done. Qed.

Lemma string_app_cons c s t : String c s +:+ t = String c (s +:+ t).
Proof. done. Qed.

Lemma string_app_nil_r s : s +:+ "" = s.
Proof.
  induction s as [|c s IH]; [done|].
  change (String c (s +:+ "") = String c s). by rewrite IH.
Qed.

Lemma string_app_assoc s t u : (s +:+ t) +:+ u = s +:+ t +:+ u.
Proof.
  induction s as [|c s IH]; [done|].
  change (String c ((s +:+ t) +:+ u) = String c (s +:+ t +:+ u)).
  by rewrite IH.
Qed.

Lemma rev_app_spec s t : String.rev_app s t = String.rev s +:+ t.
Proof.
  unfold String.rev. revert t. induction s as [|c s IH]; intros t; [done|].
  cbn [String.rev_app]. rewrite (IH (String c t)), (IH (String c "")).
  by rewrite string_app_assoc.
Qed.

Lemma rev_app_rev_app s t u :
  String.rev_app (String.rev_app s t) u = String.rev_app t (s +:+ u).
Proof.
  revert t u. induction s as [|c s IH]; intros t u; [done|].
  cbn [String.rev_app]. by rewrite IH.
Qed.

Lemma string_rev_involutive s : String.rev (String.rev s) = s.
Proof.
  unfold String.rev. rewrite rev_app_rev_app. cbn [String.rev_app].
  apply string_app_nil_r.
Qed.

Lemma string_rev_app s t :
  String.rev (s +:+ t) = String.rev t +:+ String.rev s.
Proof.
  rewrite <- rev_app_spec. unfold String.rev. revert t.
  generalize "". induction s as [|c s IH]; intros acc t; [done|].
  change (String c s +:+ t) with (String c (s +:+ t)).
  cbn [String.rev_app]. apply IH.
Qed.

Lemma lstrip_length s : (String.length (lstrip s) ≤ String.length s)%nat.
Proof.
  induction s as [|c s IH]; cbn; [done|]. destruct (is_space c); cbn; lia.
Qed.

Lemma lstrip_idemp s : lstrip (lstrip s) = lstrip s.
Proof.
  induction s as [|c s IH]; [done|]. cbn [lstrip].
  destruct (is_space c) eqn:Hc; [done|]. cbn [lstrip]. by rewrite Hc.
Qed.

(** What [lstrip] removes is white space only. *)
Lemma lstrip_split s : ∃ sp, s = sp +:+ lstrip s.
Proof.
  induction s as [|c s [sp Hsp]]; [by exists ""|]. cbn [lstrip].
  destruct (is_space c); [|by exists ""].
  exists (String c sp). change (String c s = String c (sp +:+ lstrip s)).
  by rewrite <- Hsp.
Qed.

Lemma lstrip_fixed_head c s :
  lstrip (String c s) = String c s → is_space c = false.
Proof.
  cbn [lstrip]. destruct (is_space c); [|done]. intros Heq.
  pose proof (lstrip_length s) as Hlen. rewrite Heq in Hlen. cbn in Hlen. lia.
Qed.

(** A string that starts and ends clean: its reversal starts clean. *)
Lemma lstrip_rev_fixed a sp b :
  lstrip a = a → String.rev a = sp +:+ b → lstrip (String.rev b) = String.rev b.
Proof.
  intros Ha Hrev.
  assert (a = String.rev b +:+ String.rev sp) as Hsplit.
  { by rewrite <- string_rev_app, <- Hrev, string_rev_involutive. }
  destruct (String.rev b) as [|c t]; [done|].
  rewrite Hsplit in Ha.
  change (String c t +:+ String.rev sp) with (String c (t +:+ String.rev sp))
    in Ha.
  apply lstrip_fixed_head in Ha. cbn [lstrip]. by rewrite Ha.
Qed.

Lemma strip_idemp s : strip (strip s) = strip s.
Proof.
  unfold strip.
  destruct (lstrip_split (String.rev (lstrip s))) as [sp Hsp].
  rewrite (lstrip_rev_fixed (lstrip s) sp _ (lstrip_idemp s) Hsp).
  by rewrite string_rev_involutive, lstrip_idemp.
Qed.

Lemma no_space_rev_app s t :
  no_space (String.rev_app s t) = no_space s && no_space t.
Proof.
  revert t. induction s as [|c s IH]; intros t; [done|].
  cbn [String.rev_app no_space]. rewrite IH. cbn [no_space].
  destruct (is_space c), (no_space s), (no_space t); done.
Qed.

Lemma lstrip_no_space s : no_space s = true → lstrip s = s.
Proof.
  destruct s as [|c s]; [done|]. cbn. by destruct (is_space c).
Qed.

(** [strip] leaves a string without white space as it is. *)
Lemma strip_no_space s : no_space s = true → strip s = s.
Proof.
  intros Hs. unfold strip. rewrite (lstrip_no_space s Hs).
  rewrite lstrip_no_space; [apply string_rev_involutive|].
  unfold String.rev. by rewrite no_space_rev_app, Hs.
Qed.

End strip_facts.

(** ** The processed file *)

Section processed_file.

Lemma file_text_cons e l : file_text (e :: l) = e +:+ String LF (file_text l).
Proof. done. Qed.

(** After a line feed the reader starts afresh. *)
Lemma readlines_line_feed b cur s t :
  readlines b cur (s +:+ String LF t)
  = readlines b cur (s +:+ String LF "") ++ readlines false "" t.
Proof.
  revert b cur. induction s as [|c s IH]; intros b cur.
  - rewrite !string_app_nil_l. cbn. by destruct b.
  - rewrite !string_app_cons. cbn [readlines].
    destruct (Ascii.eqb c LF); [destruct b|destruct (Ascii.eqb c CR)];
      by rewrite ?IH.
Qed.

Lemma readlines_file_text_app l1 l2 :
  readlines false "" (file_text (l1 ++ l2))
  = readlines false "" (file_text l1) ++ readlines false "" (file_text l2).
Proof.
  induction l1 as [|e l1 IH]; [done|].
  rewrite <- app_comm_cons, !file_text_cons.
  rewrite readlines_line_feed, IH, (readlines_line_feed _ _ e (file_text l1)).
  by rewrite app_assoc.
Qed.

Lemma processed_set_app l1 l2 :
  processed_set (l1 ++ l2) = processed_set l1 ∪ processed_set l2.
Proof.
  unfold processed_set.
  by rewrite readlines_file_text_app, fmap_app, filter_app, list_to_set_app_L.
Qed.

Lemma string_rev_cons c s : String.rev (String c s) = String.rev s +:+ String c "".
Proof. unfold String.rev at 1. cbn [String.rev_app]. apply rev_app_spec. Qed.

(** An entry without a line end in it is read back as one line. *)
Lemma readlines_single_line cur s :
  no_newline s = true →
  readlines false cur (s +:+ String LF "") = [String.rev cur +:+ s].
Proof.
  revert cur. induction s as [|c s IH]; intros cur Hs.
  - rewrite string_app_nil_l, string_app_nil_r. done.
  - cbn [no_newline] in Hs. apply andb_prop in Hs as [Hc Hs].
    apply negb_true_iff, orb_false_elim in Hc as [H1 H2].
    rewrite string_app_cons. cbn [readlines]. rewrite H1, H2, IH by done.
    by rewrite string_rev_cons, string_app_assoc.
Qed.

Lemma no_newline_lstrip s : no_newline s = true → no_newline (lstrip s) = true.
Proof.
  induction s as [|c s IH]; [done|]. cbn [lstrip].
  destruct (is_space c); [|done]. cbn [no_newline].
  intros [_ ?]%andb_prop. auto.
Qed.

Lemma no_newline_rev_app s t :
  no_newline (String.rev_app s t) = no_newline s && no_newline t.
Proof.
  revert t. induction s as [|c s IH]; intros t; [done|].
  cbn [String.rev_app no_newline]. rewrite IH. cbn [no_newline].
  destruct (negb _), (no_newline s), (no_newline t); done.
Qed.

Lemma no_newline_strip s : no_newline s = true → no_newline (strip s) = true.
Proof.
  intros Hs. unfold strip, String.rev.
  rewrite no_newline_rev_app, andb_true_r. apply no_newline_lstrip.
  rewrite no_newline_rev_app, andb_true_r. by apply no_newline_lstrip.
Qed.

Lemma no_space_no_newline s : no_space s = true → no_newline s = true.
Proof.
  induction s as [|c s IH]; [done|]. cbn [no_space no_newline].
  intros [Hc Hs]%andb_prop. rewrite IH, andb_true_r by done.
  apply negb_true_iff in Hc. apply negb_true_iff, orb_false_intro.
  - destruct (Ascii.eqb_spec c LF) as [->|]; [|done]. done.
  - destruct (Ascii.eqb_spec c CR) as [->|]; [|done]. done.
Qed.

Lemma processed_set_strip url :
  no_newline url = true →
  processed_set [strip url]
  = if decide (strip url = "") then ∅ else {[ strip url ]}.
Proof.
  intros Hs%no_newline_strip. unfold processed_set.
  rewrite file_text_cons. change (file_text []) with "".
  rewrite readlines_single_line by done. cbn [String.rev String.rev_app].
  rewrite string_app_nil_l. cbn [fmap list_fmap]. rewrite strip_idemp.
  destruct (decide (strip url = "")) as [Hemp|Hne].
  - by rewrite filter_cons_False by (by intros ?).
  - rewrite filter_cons_True by done. cbn. by rewrite union_empty_r_L.
Qed.

Lemma processed_set_prefix l1 l2 :
  l1 `prefix_of` l2 → processed_set l1 ⊆ processed_set l2.
Proof. intros [k ->]. rewrite processed_set_app. apply union_subseteq_l. Qed.

(** An entry without white space is in the set that is read back. *)
Lemma processed_set_entry u l :
  u ∈ l → no_space u = true → u ≠ "" → u ∈ processed_set l.
Proof.
  intros (l1 & l2 & ->)%list_elem_of_split Hu Hne.
  change (u :: l2) with ([u] ++ l2). rewrite !processed_set_app.
  apply elem_of_union_r, elem_of_union_l.
  rewrite <- (strip_no_space u Hu) at 2.
  rewrite processed_set_strip by (by apply no_space_no_newline).
  rewrite (strip_no_space u Hu), decide_False by done.
  by apply elem_of_singleton.
Qed.

End processed_file.

(** ** The admission loop, case by case *)

Section admission_more.
Context (E : env).

(** The five ways an iteration can go. *)
Lemma process_url_cases url w :
  (((job_exists_for_url E url w).1 = Ok true ∨ scraper_for url = None)
   ∧ process_url E url w =
       (Ok (), mkworld (jobs w) (processed_urls_file w ++ [strip url])
                 (trace w ++ [EvExists url; EvSeen url])))
  ∨ (∃ f, (job_exists_for_url E url w).1 = Ok false
          ∧ scraper_for url = Some f
          ∧ (f E url = None ∨ ∃ d, f E url = Some d ∧ company_missing d)
          ∧ process_url E url w =
              (Ok (), mkworld (jobs w) (processed_urls_file w ++ [strip url])
                        (trace w ++ [EvExists url; EvScrape url; EvSeen url])))
  ∨ (∃ f d, (job_exists_for_url E url w).1 = Ok false
            ∧ scraper_for url = Some f ∧ f E url = Some d
            ∧ ¬ company_missing d
            ∧ ((add_raises E d = true
                ∧ process_url E url w =
                    (Ok (), mkworld (jobs w) (processed_urls_file w)
                              (trace w ++ [EvExists url; EvScrape url;
                                           EvAdd url d])))
               ∨ (add_raises E d = false
                  ∧ process_url E url w =
                      (Ok (), mkworld (<[auto_id E (jobs w) := d]> (jobs w))
                                (processed_urls_file w ++ [strip url])
                                (trace w ++ [EvExists url; EvScrape url;
                                             EvAdd url d; EvNotify d;
                                             EvSeen url]))))).
Proof.
  destruct (job_exists_for_url_run E url w) as (b & Hrun & _).
  destruct b.
  { left. split; [left; by rewrite Hrun|].
    unfold process_url, mbind at 1, M_bind. rewrite Hrun.
    rewrite append_processed_url_run. cbn. by rewrite <- app_assoc. }
  assert (Hgate : (job_exists_for_url E url w).1 = Ok false) by (by rewrite Hrun).
  destruct (scraper_for url) as [f|] eqn:Hf.
  2:{ left. split; [by right|].
      unfold process_url, mbind at 1, M_bind. rewrite Hrun, Hf.
      rewrite append_processed_url_run. cbn. by rewrite <- app_assoc. }
  right. rewrite (process_url_run E url w f Hgate Hf), validate_and_insert_run.
  destruct (f E url) as [d|] eqn:Hd.
  2:{ left. exists f. split; [done|]. split; [done|]. split; [by left|].
      rewrite append_processed_url_run. cbn. by rewrite <- !app_assoc. }
  destruct (decide (company_missing d)) as [Hm|Hm].
  { left. exists f. split; [done|]. split; [done|]. split; [right; eauto|].
    rewrite append_processed_url_run. cbn. by rewrite <- !app_assoc. }
  right. exists f, d. split; [done|]. split; [done|]. split; [done|].
  split; [done|]. rewrite insert_and_notify_run.
  destruct (add_raises E d); [left|right]; (split; [done|]);
    unfold add_event; cbn; by rewrite <- !app_assoc.
Qed.

(** What every iteration keeps: it ends normally, the file and the
    trace only grow, and no document id leaves the collection. *)
Lemma process_url_grows url w :
  ∃ w', process_url E url w = (Ok (), w')
        ∧ processed_urls_file w `prefix_of` processed_urls_file w'
        ∧ trace w `prefix_of` trace w'
        ∧ dom (jobs w) ⊆ dom (jobs w').
Proof.
  destruct (process_url_cases url w)
    as [[_ ->]|[(f & _ & _ & _ & ->)|(f & d & _ & _ & _ & _ & [[_ ->]|[_ ->]])]];
    eexists; (split; [done|]); cbn [processed_urls_file trace jobs];
    repeat split; try done; try (by apply prefix_app_r);
    try (by eexists).
  rewrite dom_insert_L. apply union_subseteq_r.
Qed.

Lemma for_each_process_url_grows urls w :
  ∃ w', for_each urls (process_url E) w = (Ok (), w')
        ∧ processed_urls_file w `prefix_of` processed_urls_file w'
        ∧ trace w `prefix_of` trace w'
        ∧ dom (jobs w) ⊆ dom (jobs w').
Proof.
  revert w. induction urls as [|url urls IH]; intros w; cbn [for_each].
  { by exists w. }
  unfold mbind, M_bind.
  destruct (process_url_grows url w) as (w1 & -> & Hf1 & Ht1 & Hj1).
  destruct (IH w1) as (w2 & -> & Hf2 & Ht2 & Hj2).
  exists w2. split; [done|]. repeat split; by etrans.
Qed.

Lemma admission_cases all_urls w :
  admission E all_urls w =
    for_each (filter (λ u, u ∉ processed_set (processed_urls_file w)) all_urls)
             (process_url E) w.
Proof.
  unfold admission. destruct (decide (all_urls = [])) as [->|]; [done|].
  unfold mbind, M_bind, load_processed_urls.
  by destruct (decide (filter _ all_urls = [])) as [->|].
Qed.

End admission_more.

(** X9.  The admission of a list of candidates always ends normally,
    and it only adds: the lines of the processed file and the events
    logged before are kept in place, and no document id leaves the
    collection. *)
Theorem admission_only_adds (E : env) (all_urls : list string) (w : world) :
  ∃ w', admission E all_urls w = (Ok (), w')
        ∧ processed_urls_file w `prefix_of` processed_urls_file w'
        ∧ trace w `prefix_of` trace w'
        ∧ dom (jobs w) ⊆ dom (jobs w').
Proof. rewrite admission_cases. apply for_each_process_url_grows. Qed.

(** X10.  When the gate answers that the URL is already stored, or when
    no scraper handles its domain, the iteration only marks the URL as
    processed: it scrapes nothing and writes nothing. *)
Theorem existing_or_unsupported_is_only_marked
    (E : env) (url : string) (w : world) :
  (job_exists_for_url E url w).1 = Ok true ∨ scraper_for url = None →
  process_url E url w =
    (Ok (), mkworld (jobs w) (processed_urls_file w ++ [strip url])
              (trace w ++ [EvExists url; EvSeen url])).
Proof.
  intros Hcase.
  destruct (process_url_cases E url w)
    as [[_ ->]|[(f & Hg & Hf & _)|(f & d & Hg & Hf & _)]]; [done|..];
    destruct Hcase; congruence.
Qed.

Lemma existing_or_unsupported_is_only_marked_witness :
  process_url (outside "Acme" false (Some 200)) page Scenarios.known_world =
    (Ok (), mkworld (jobs Scenarios.known_world)
              (processed_urls_file Scenarios.known_world ++ [strip page])
              (trace Scenarios.known_world ++ [EvExists page; EvSeen page])).
Proof.
  apply (existing_or_unsupported_is_only_marked
           (outside "Acme" false (Some 200)) page Scenarios.known_world).
  left. reflexivity.
Defined.

(** X11.  What [append_processed_url] writes, [load_processed_urls]
    reads back: for a URL without a line end in it, the set after the
    append is the set of before with the trimmed URL added, unless the
    trimmed URL is empty. *)
Theorem append_then_load (url : string) (w : world) :
  no_newline url = true →
  (append_processed_url url;; load_processed_urls) w
  = (Ok (processed_set (processed_urls_file w)
         ∪ (if decide (strip url = "") then ∅ else {[ strip url ]})),
     (append_processed_url url w).2).
Proof.
  intros Hurl.
  unfold mbind, M_bind, load_processed_urls. rewrite append_processed_url_run.
  cbn [snd processed_urls_file].
  by rewrite processed_set_app, processed_set_strip.
Qed.

Lemma append_then_load_witness :
  (append_processed_url (" " +:+ page);; load_processed_urls) seen_world
  = (Ok (processed_set (processed_urls_file seen_world)
         ∪ (if decide (strip (" " +:+ page) = "") then ∅
            else {[ strip (" " +:+ page) ]})),
     (append_processed_url (" " +:+ page) seen_world).2).
Proof.
  apply (append_then_load (" " +:+ page) seen_world). vm_compute. reflexivity.
Defined.

(** A URL with a line feed in it is read back as two entries. *)
Example append_two_lines :
  strip Scenarios.two_lines = Scenarios.two_lines
  ∧ ((append_processed_url Scenarios.two_lines;; load_processed_urls)
       fresh_world).1
    = Ok {[ "a"; "b" ]}.
Proof.
  split; [vm_compute; reflexivity|].
  unfold mbind, M_bind, load_processed_urls. rewrite append_processed_url_run.
  cbn [fst snd processed_urls_file]. vm_compute. reflexivity.
Qed.

Import Runs.

(** ** The order of the calls of a run *)

Section call_order.
Context (E : env).

Lemma requires_prepend ev l before :
  requires E ev before → requires E ev (l ++ before).
Proof.
  destruct ev as [u|u|u job|job|u]; cbn [requires]; [done| | | |done].
  - intros [[pre ->] ?]. split; [|done]. exists (l ++ pre). by rewrite app_assoc.
  - intros [[pre ->] ?]. split; [|done]. exists (l ++ pre). by rewrite app_assoc.
  - intros [(pre & u & ->) ?]. split; [|done]. exists (l ++ pre), u.
    by rewrite app_assoc.
Qed.

Lemma in_order_app evs1 evs2 :
  in_order E evs1 → in_order E evs2 → in_order E (evs1 ++ evs2).
Proof.
  intros H1 H2 n ev Hn. apply lookup_app_Some in Hn as [Hn|[Hlen Hn]].
  - rewrite take_app_le by (apply lookup_lt_Some in Hn; lia). by apply H1.
  - rewrite take_app_ge by done. apply requires_prepend. by apply H2.
Qed.

Lemma in_order_nil : in_order E [].
Proof. by intros n ev Hn. Qed.

(** The events of one iteration are in order. *)
Lemma process_url_in_order url w :
  ∃ w' evs, process_url E url w = (Ok (), w')
            ∧ trace w' = trace w ++ evs ∧ in_order E evs.
Proof.
  destruct (process_url_cases E url w)
    as [[_ ->]|[(f & _ & Hf & _ & ->)
       |(f & d & _ & Hf & Hd & Hm & [[Hadd ->]|[Hadd ->]])]];
    eexists; eexists; (split; [done|]); (split; [done|]).
  - intros [|[|n]] ev [= <-]; done.
  - intros [|[|[|n]]] ev [= <-]; cbn; [done| |done].
    split; [by exists []|congruence].
  - intros [|[|[|n]]] ev [= <-]; cbn; [done| |].
    + split; [by exists []|congruence].
    + split; [by exists []|]. split; [by exists f|done].
  - intros [|[|[|[|[|n]]]]] ev [= <-]; cbn; [done| | | |done].
    + split; [by exists []|congruence].
    + split; [by exists []|]. split; [by exists f|done].
    + split; [|done]. by exists [EvExists url; EvScrape url], url.
Qed.

Lemma for_each_process_url_in_order urls w :
  ∃ evs, trace (for_each urls (process_url E) w).2 = trace w ++ evs
         ∧ in_order E evs.
Proof.
  revert w. induction urls as [|url urls IH]; intros w; cbn [for_each].
  { exists []. cbn. split; [by rewrite app_nil_r|apply in_order_nil]. }
  unfold mbind, M_bind.
  destruct (process_url_in_order url w) as (w1 & evs1 & -> & Ht1 & Ho1).
  destruct (IH w1) as (evs2 & Ht2 & Ho2).
  exists (evs1 ++ evs2). rewrite Ht2, Ht1, app_assoc. split; [done|].
  by apply in_order_app.
Qed.

(** Once an iteration has marked its URL, or logged a failed write for
    it, the rest of the loop keeps that. *)
Lemma marked_or_failed_kept url urls w :
  let w' := (for_each urls (process_url E) w).2 in
  (strip url ∈ processed_urls_file w →
   strip url ∈ processed_urls_file w')
  ∧ ∀ ev, ev ∈ trace w → ev ∈ trace w'.
Proof.
  destruct (for_each_process_url_grows E urls w) as (w' & Hrun & [k Hf] & [t Ht] & _).
  cbn zeta. rewrite Hrun. cbn [snd]. rewrite Hf, Ht. split.
  - intros ?. apply elem_of_app. by left.
  - intros ev ?. apply elem_of_app. by left.
Qed.

Lemma for_each_marks_or_fails urls w u :
  u ∈ urls →
  let w' := (for_each urls (process_url E) w).2 in
  strip u ∈ processed_urls_file w'
  ∨ ∃ d, EvAdd u d ∈ trace w' ∧ add_raises E d = true.
Proof.
  intros Hu. apply list_elem_of_split in Hu as (l1 & l2 & ->).
  cbn zeta. rewrite for_each_app.
  destruct (for_each_process_url_grows E l1 w) as (w1 & -> & _).
  cbn [for_each]. unfold mbind, M_bind.
  destruct (marked_or_failed_kept u l2 (process_url E u w1).2) as [Hkeep Hev].
  cbn zeta in Hkeep, Hev.
  destruct (process_url_cases E u w1)
    as [[_ Hrun]|[(f & _ & _ & _ & Hrun)
       |(f & d & _ & _ & _ & _ & [[Hadd Hrun]|[Hadd Hrun]])]];
    rewrite Hrun in *; cbn [snd processed_urls_file trace] in Hkeep, Hev.
  - left. apply Hkeep, elem_of_app. right. left.
  - left. apply Hkeep, elem_of_app. right. left.
  - right. exists d. split; [|done]. apply Hev, elem_of_app. right.
    right. right. left.
  - left. apply Hkeep, elem_of_app. right. left.
Qed.

End call_order.

(** X12.  The calls of an admission come in order: every scrape comes
    right after the gate query for the same URL, whose domain has a
    scraper; every store write comes right after the scrape of its URL,
    and writes the record that scraper returned, which has a company;
    every notification comes right after a store write of the same
    record that went through. *)
Theorem admission_calls_in_order
    (E : env) (all_urls : list string) (w : world) :
  ∃ evs, trace (admission E all_urls w).2 = trace w ++ evs ∧ in_order E evs.
Proof. rewrite admission_cases. apply for_each_process_url_in_order. Qed.

(** X13.  After an admission every candidate that is not empty and has
    no white space in it, as every URL that the pattern matches, is in
    the processed set, unless the store write of its iteration
    failed. *)
Theorem every_candidate_is_marked_or_failed
    (E : env) (all_urls : list string) (w : world) (u : string) :
  u ∈ all_urls →
  no_space u = true →
  u ≠ "" →
  let w' := (admission E all_urls w).2 in
  u ∈ processed_set (processed_urls_file w')
  ∨ ∃ d, EvAdd u d ∈ trace w' ∧ add_raises E d = true.
Proof.
  intros Hu Hclean Hne. cbn zeta. rewrite admission_cases.
  set (new_urls := filter _ all_urls).
  destruct (decide (u ∈ processed_set (processed_urls_file w))) as [Hseen|Hnew].
  { left.
    destruct (for_each_process_url_grows E new_urls w) as (w' & -> & Hf & _).
    by apply (processed_set_prefix _ _ Hf). }
  destruct (for_each_marks_or_fails E new_urls w u) as [Hm|Hfail].
  { apply list_elem_of_filter. by split. }
  - left. rewrite (strip_no_space u Hclean) in Hm.
    by apply processed_set_entry.
  - by right.
Qed.

Lemma every_candidate_is_marked_or_failed_witness :
  let w' := (admission (outside "Acme" false (Some 200)) [page] fresh_world).2 in
  page ∈ processed_set (processed_urls_file w')
  ∨ ∃ d, EvAdd page d ∈ trace w'
         ∧ add_raises (outside "Acme" false (Some 200)) d = true.
Proof.
  apply (every_candidate_is_marked_or_failed (outside "Acme" false (Some 200))
           [page] fresh_world page).
  - apply list_elem_of_here.
  - vm_compute. reflexivity.
  - discriminate.
Defined.

(** ** Dates written and read back *)

Section date_round_trip.

Lemma month_and_day_read_back m dd :
  1 ≤ m ≤ 12 → 1 ≤ dd ≤ 31 →
  parse_month (chars (pad2 m +:+ "-" +:+ pad2 dd)) = Some (m, chars (pad2 dd))
  ∧ parse_day (chars (pad2 dd)) = Some dd.
Proof.
  intros Hm Hd.
  assert (Forall (λ m, Forall (λ dd,
            parse_month (chars (pad2 m +:+ "-" +:+ pad2 dd))
              = Some (m, chars (pad2 dd))
            ∧ parse_day (chars (pad2 dd)) = Some dd) (seqZ 1 31)) (seqZ 1 12))
    as Hall.
  { apply (bool_decide_unpack _). vm_compute. exact I. }
  rewrite Forall_forall in Hall. specialize (Hall m).
  rewrite Forall_forall in Hall. apply Hall; apply elem_of_seqZ; lia.
Qed.

(** [strptime] reads back the date that [strftime] wrote. *)
Lemma strptime_strftime d :
  valid_date d = true → strptime_ymd (strftime_ymd d) = Some d.
Proof.
  intros Hv. pose proof Hv as Hvalid. unfold valid_date in Hv.
  destruct d as [y m dd]. cbn [year month day] in Hv.
  assert (1 ≤ y ≤ 9999 ∧ 1 ≤ m ≤ 12 ∧ 1 ≤ dd ≤ days_in_month y m) as (Hy & Hm & Hd).
  { repeat (apply andb_prop in Hv as [Hv ?]). lia. }
  assert (dd ≤ 31).
  { pose proof (days_in_month_bounds y m). lia. }
  destruct (month_and_day_read_back m dd) as [Hpm Hpd]; [lia..|].
  unfold strptime_ymd, strftime_ymd, pad4. cbn [year month day].
  change (String.list_ascii_of_string
            (String ?a (String ?b (pad2 y)) +:+ "-" +:+ ?t))
    with (a :: b :: String.list_ascii_of_string (pad2 y +:+ "-" +:+ t)).
  unfold pad2 at 1.
  change (String.list_ascii_of_string
            (String ?a (String ?b "") +:+ "-" +:+ ?t))
    with (a :: b :: "-"%char :: chars t).
  cbn beta iota. rewrite !digit_digit_char. cbn [mbind option_bind].
  rewrite Hpm. cbn [mbind option_bind]. rewrite Hpd. cbn [mbind option_bind].
  rewrite year_digits by lia. by rewrite Hvalid.
Qed.

Lemma is_space_digit_char n : is_space (digit_char n) = false.
Proof.
  unfold digit_char. pose proof (Z.mod_pos_bound n 10 eq_refl) as Hx.
  set (x := n mod 10) in *. clearbody x.
  assert (x = 0 ∨ x = 1 ∨ x = 2 ∨ x = 3 ∨ x = 4 ∨ x = 5 ∨ x = 6 ∨ x = 7
          ∨ x = 8 ∨ x = 9) as Hcases by lia.
  repeat (destruct Hcases as [->|Hcases]; [reflexivity|]). by subst x.
Qed.

Lemma no_space_strftime_ymd d : no_space (strftime_ymd d) = true.
Proof.
  cbv [strftime_ymd pad4 pad2 String.append no_space].
  by rewrite !is_space_digit_char.
Qed.

(** The purge reads back the date that the scraper wrote. *)
Lemma parse_date_safe_strftime d :
  valid_date d = true → parse_date_safe (PStr (strftime_ymd d)) = Some d.
Proof.
  intros Hv. unfold parse_date_safe. cbn [or_empty].
  rewrite (strip_no_space _ (no_space_strftime_ymd d)).
  rewrite decide_False; [by apply strptime_strftime|].
  unfold strftime_ymd, pad4. discriminate.
Qed.

End date_round_trip.

(** ** Fetching a page *)

Section fetching.
Context (get : string → nat → option Pages.response) (url : string).

Lemma try_headers_spec hs :
  ∃ rest, hs = (Pages.try_headers get url hs).2 ++ rest
  ∧ match (Pages.try_headers get url hs).1 with
    | Some resp =>
        Pages.status_code resp = 200
        ∧ ∃ failed h, (Pages.try_headers get url hs).2 = failed ++ [h]
            ∧ get url h = Some resp
            ∧ Forall (request_fails get url) failed
    | None => rest = [] ∧ Forall (request_fails get url) hs
    end.
Proof.
  induction hs as [|h hs (rest & Hrest & IH)]; cbn [Pages.try_headers].
  { exists []. by split. }
  destruct (get url h) as [resp|] eqn:Hget.
  - destruct (Pages.status_code resp =? 200) eqn:Hs.
    + exists hs. split; [done|]. cbn [fst snd]. split; [lia|].
      exists [], h. by split.
    + destruct (Pages.try_headers get url hs) as [r tried]. cbn [fst snd] in *.
      exists rest. split; [by rewrite Hrest at 1|].
      assert (request_fails get url h)
        by (unfold request_fails; rewrite Hget; intros ? [= <-]; lia).
      destruct r as [resp'|].
      * destruct IH as (? & failed & h' & -> & ? & ?). split; [done|].
        exists (h :: failed), h'. split; [done|]. split; [done|].
        by constructor.
      * destruct IH as [-> ?]. split; [done|]. by constructor.
  - destruct (Pages.try_headers get url hs) as [r tried]. cbn [fst snd] in *.
    exists rest. split; [by rewrite Hrest at 1|].
    destruct r as [resp'|].
    + destruct IH as (? & failed & h' & -> & ? & ?). split; [done|].
      exists (h :: failed), h'. split; [done|]. split; [done|].
      constructor; [|done]. unfold request_fails. by rewrite Hget.
    + destruct IH as [-> ?]. split; [done|]. constructor; [|done].
      unfold request_fails. by rewrite Hget.
Qed.

End fetching.

(** ** The record a scraper returns *)

Section finishing.
Import Pages.

Lemma apply_default_lookup_ne jd e k :
  e.1 ≠ k → apply_default jd e !! k = jd !! k.
Proof.
  intros Hne. unfold apply_default. destruct (falsy _); [|done].
  by rewrite lookup_insert_ne.
Qed.

Lemma foldl_apply_default_other ds jd k :
  k ∉ ds.*1 → foldl apply_default jd ds !! k = jd !! k.
Proof.
  revert jd. induction ds as [|e ds IH]; intros jd Hk; [done|].
  cbn [foldl]. apply not_elem_of_cons in Hk as [Hne Hk].
  rewrite IH by done. by apply apply_default_lookup_ne.
Qed.

(** A defaulted field ends up with its own value when that is a
    non-empty string, and with the default otherwise. *)
Lemma foldl_apply_default_field ds jd k v :
  NoDup ds.*1 → (k, v) ∈ ds →
  foldl apply_default jd ds !! k
  = if falsy (get jd k) then Some (PStr v) else jd !! k.
Proof.
  revert jd. induction ds as [|e ds IH]; intros jd Hnd Hin.
  { by apply elem_of_nil in Hin. }
  cbn [foldl]. cbn [fmap list_fmap] in Hnd. apply NoDup_cons in Hnd as [He Hnd].
  apply elem_of_cons in Hin as [<-|Hin].
  - rewrite foldl_apply_default_other by done. unfold apply_default. cbn [fst snd].
    destruct (falsy (get jd k)); [|done]. by rewrite lookup_insert_eq.
  - assert (e.1 ≠ k) as Hne.
    { intros <-. apply He, list_elem_of_fmap. by exists (e.1, v). }
    rewrite IH by done. unfold get.
    by rewrite (apply_default_lookup_ne jd e k Hne).
Qed.

Lemma falsy_false v : falsy v = false → ∃ s, v = PStr s ∧ s ≠ "".
Proof.
  destruct v as [|s]; [done|]. cbn. destruct (decide (s = "")); [done|].
  by exists s.
Qed.

Lemma defaults_keys : defaults.*1 = scraped_fields.
Proof. reflexivity. Qed.

Ltac in_list :=
  repeat first [apply list_elem_of_here | apply list_elem_of_further].

Lemma NoDup_scraped_fields : NoDup scraped_fields.
Proof. apply (bool_decide_unpack _). vm_compute. exact I. Qed.

Lemma finish_lookup_other url jd k :
  k ≠ "title" → k ∉ scraped_fields →
  finish url jd !! k = <["moreInfoLink" := PStr url]> jd !! k.
Proof.
  intros Ht Hk. unfold finish. rewrite lookup_insert_ne by done.
  by rewrite foldl_apply_default_other by (by rewrite defaults_keys).
Qed.

Lemma finish_field url jd k :
  k ∈ scraped_fields →
  ∃ s, finish url jd !! k = Some (PStr s) ∧ s ≠ ""
       ∧ (if falsy (get jd k) then s = "N/A" else jd !! k = Some (PStr s)).
Proof.
  intros Hk. unfold finish.
  assert (k ≠ "title" ∧ k ≠ "moreInfoLink") as [Ht Hm].
  { split; intros ->; revert Hk; apply (bool_decide_unpack _);
      vm_compute; exact I. }
  rewrite lookup_insert_ne by done.
  assert ((k, "N/A") ∈ defaults) as Hin.
  { unfold scraped_fields in Hk. unfold defaults.
    repeat (apply elem_of_cons in Hk as [->|Hk]; [in_list|]).
    by apply elem_of_nil in Hk. }
  rewrite (foldl_apply_default_field defaults _ k "N/A")
    by (rewrite ?defaults_keys; auto using NoDup_scraped_fields).
  unfold get. rewrite lookup_insert_ne by done. fold (get jd k).
  destruct (falsy (get jd k)) eqn:Hf; [by exists "N/A"|].
  apply falsy_false in Hf as (s & Hs & Hne). exists s. unfold get in Hs.
  destruct (jd !! k) as [v|]; cbn in Hs; [|done]. by subst v.
Qed.

Lemma finish_title url jd :
  ∃ c t, finish url jd !! "company" = Some (PStr c)
         ∧ finish url jd !! "job-title" = Some (PStr t)
         ∧ finish url jd !! "title" = Some (PStr (c +:+ " | " +:+ t)).
Proof.
  destruct (finish_field url jd "company") as (c & Hc & _);
    [unfold scraped_fields; in_list|].
  destruct (finish_field url jd "job-title") as (t & Ht & _);
    [unfold scraped_fields; in_list|].
  exists c, t. split; [done|]. split; [done|].
  unfold finish in *. rewrite lookup_insert_ne in Hc, Ht by done.
  rewrite lookup_insert_eq. unfold get_or. by rewrite Hc, Ht.
Qed.

Lemma set_found_lookup_ne k v jd k' :
  k ≠ k' → set_found k v jd !! k' = jd !! k'.
Proof. intros. unfold set_found. destruct v; [by rewrite lookup_insert_ne|done]. Qed.

Lemma extracted_date dp page : extracted dp page !! "date-posted" = Some (PStr dp).
Proof.
  unfold extracted.
  rewrite !lookup_insert_ne, !set_found_lookup_ne by done.
  apply lookup_singleton_eq.
Qed.

Lemma extracted_company dp page :
  extracted dp page !! "company" = PStr <$> found_company page.
Proof.
  unfold extracted.
  rewrite !lookup_insert_ne, !set_found_lookup_ne by done.
  unfold set_found. destruct (found_company page); [by rewrite lookup_insert_eq|].
  by rewrite lookup_singleton_ne.
Qed.

(** The company check of the admission loop on a finished record. *)
Lemma finish_company_missing url dp page :
  company_missing (finish url (extracted dp page)) ↔ no_company page.
Proof.
  destruct (finish_field url (extracted dp page) "company") as (s & Hs & Hne & Hcase);
    [unfold scraped_fields; in_list|].
  unfold company_missing, company_val, no_company, get in *.
  rewrite Hs. rewrite extracted_company in Hcase. cbn [default or_empty].
  destruct (found_company page) as [c|]; cbn in Hcase.
  - destruct (decide (c = "")) as [->|Hc].
    + subst s. split; [by left|]. intros _. by right.
    + by injection Hcase as ->.
  - subst s. split; [done|]. intros _. by right.
Qed.

(** What a scraper returns, when it returns a record. *)
Lemma scraper_result W url d :
  scrape_job_data_fresheropenings W url = Some d
  ∨ scrape_job_data_freshers_recruitment W url = Some d →
  ∃ dp page, d = finish url (extracted dp page).
Proof.
  unfold scrape_job_data_fresheropenings, scrape_job_data_freshers_recruitment.
  destruct (fetch_page (session_get W) url).1 as [resp|]; [|by intros [?|?]].
  destruct (negb _); [by intros [?|?]|].
  intros [[= <-]|[= <-]]; eauto.
Qed.

(** The same for the scraper that the admission loop picks. *)
Lemma picked_scraper_result W E url f d :
  scraper_for url = Some f → f (with_scrapers W E) url = Some d →
  (scrape_job_data_fresheropenings W url = Some d
   ∨ scrape_job_data_freshers_recruitment W url = Some d)
  ∧ ∃ resp dp, (fetch_page (session_get W) url).1 = Some resp
               ∧ d = finish url (extracted dp (page_read W url resp)).
Proof.
  unfold scraper_for, page_read.
  destruct (contains "fresheropenings.com" url).
  - intros [= <-] Hd.
    change (Pages.scrape_job_data_fresheropenings W url = Some d) in Hd.
    split; [by left|]. revert Hd.
    unfold scrape_job_data_fresheropenings.
    destruct (fetch_page (session_get W) url).1 as [resp|]; [|done].
    destruct (negb _); [done|]. intros [= <-]. exists resp. eexists. by split.
  - destruct (contains _ url); [|done].
    intros [= <-] Hd.
    change (Pages.scrape_job_data_freshers_recruitment W url = Some d) in Hd.
    split; [by right|]. revert Hd.
    unfold scrape_job_data_freshers_recruitment.
    destruct (fetch_page (session_get W) url).1 as [resp|]; [|done].
    destruct (negb _); [done|]. intros [= <-]. exists resp. eexists. by split.
Qed.

Lemma finish_moreInfoLink url jd :
  finish url jd !! "moreInfoLink" = Some (PStr url).
Proof.
  rewrite finish_lookup_other; [apply lookup_insert_eq|done|].
  apply (bool_decide_unpack _). vm_compute. exact I.
Qed.

Lemma scraped_moreInfoLink W url d :
  scrape_job_data_fresheropenings W url = Some d
  ∨ scrape_job_data_freshers_recruitment W url = Some d →
  d !! "moreInfoLink" = Some (PStr url).
Proof.
  intros (dp & page & ->)%scraper_result. apply finish_moreInfoLink.
Qed.

End finishing.

(** ** The scrapers, and the two scripts together *)

Import Pages.

(** X14.  The date that a scraper writes with [strftime("%Y-%m-%d")] is
    the date that [parse_date_safe] reads back, and so the date the purge
    and the age cleanup see for the record; for every date of the
    calendar from the year 1000 on. *)
Theorem written_date_is_read_back (d : Py.date) :
  valid_date d = true →
  1000 ≤ year d →
  parse_date_safe (PStr (strftime_ymd d)) = Some d
  ∧ datePosted {[ "date-posted" := PStr (strftime_ymd d) ]} = Some d.
Proof.
  intros Hv _. split; [by apply parse_date_safe_strftime|].
  unfold datePosted, mk_info. cbn [date snd]. unfold get_or.
  rewrite lookup_singleton_eq. by apply parse_date_safe_strftime.
Qed.

Lemma written_date_is_read_back_witness :
  parse_date_safe (PStr (strftime_ymd Examples.today)) = Some Examples.today
  ∧ datePosted {[ "date-posted" := PStr (strftime_ymd Examples.today) ]}
    = Some Examples.today.
Proof.
  apply (written_date_is_read_back Examples.today).
  - reflexivity.
  - vm_compute. discriminate.
Defined.

(** X15.  [fetch_page] tries the header sets in order and stops at the
    first answer with status 200, which it returns; it returns nothing
    exactly when the request fails with every header set.  A header set
    is tried only when all the ones before it have failed. *)
Theorem fetch_page_stops_at_first_200
    (get : string → nat → option response) (url : string) :
  ∃ rest, headers_list = (fetch_page get url).2 ++ rest
  ∧ match (fetch_page get url).1 with
    | Some resp =>
        status_code resp = 200
        ∧ ∃ failed h, (fetch_page get url).2 = failed ++ [h]
            ∧ get url h = Some resp
            ∧ Forall (request_fails get url) failed
    | None => rest = [] ∧ Forall (request_fails get url) headers_list
    end.
Proof. apply try_headers_spec. Qed.

(** X16.  Each scraper returns no record exactly when the request for
    the page fails with every header set: once a page is fetched, a
    record is always returned. *)
Theorem scraper_fails_iff_every_request_fails (W : web) (url : string) :
  (Pages.scrape_job_data_fresheropenings W url = None
   ↔ Forall (request_fails (session_get W) url) headers_list)
  ∧ (Pages.scrape_job_data_freshers_recruitment W url = None
     ↔ Forall (request_fails (session_get W) url) headers_list).
Proof.
  unfold Pages.scrape_job_data_fresheropenings,
    Pages.scrape_job_data_freshers_recruitment, fetch_page.
  destruct (try_headers_spec (session_get W) url headers_list)
    as (rest & Hrest & H).
  destruct (try_headers (session_get W) url headers_list) as [[resp|] tried];
    cbn [fst snd] in *.
  - destruct H as (Hs & failed & h & -> & Hget & _).
    assert (¬ Forall (request_fails (session_get W) url) headers_list) as Hno.
    { intros Hall. rewrite Forall_forall in Hall.
      apply (Hall h) with resp; [|done..].
      rewrite Hrest. apply elem_of_app. left. apply elem_of_app. right. left. }
    rewrite Hs. cbn. split; (split; [done|by intros ?%Hno]).
  - destruct H as [_ Hall]. done.
Qed.

(** X17.  A record returned by a scraper is complete: its
    [moreInfoLink] is the URL it was asked for, its [date-posted] is a
    string, each of the six fields company, job-title, experience,
    location, apply-link and desc is a non-empty string, and its title is
    the company and the job title joined by a bar. *)
Theorem scraped_record_is_complete (W : web) (url : string) (d : dict) :
  Pages.scrape_job_data_fresheropenings W url = Some d
  ∨ Pages.scrape_job_data_freshers_recruitment W url = Some d →
  d !! "moreInfoLink" = Some (PStr url)
  ∧ (∃ s, d !! "date-posted" = Some (PStr s))
  ∧ (∀ k, k ∈ scraped_fields → ∃ s, d !! k = Some (PStr s) ∧ s ≠ "")
  ∧ ∃ c t, d !! "company" = Some (PStr c) ∧ d !! "job-title" = Some (PStr t)
           ∧ d !! "title" = Some (PStr (c +:+ " | " +:+ t)).
Proof.
  intros (dp & page & ->)%scraper_result. split; [|split; [|split]].
  - rewrite finish_lookup_other; [apply lookup_insert_eq|done|].
    apply (bool_decide_unpack _). vm_compute. exact I.
  - exists dp. rewrite finish_lookup_other.
    + rewrite lookup_insert_ne by done. apply extracted_date.
    + done.
    + apply (bool_decide_unpack _). vm_compute. exact I.
  - intros k Hk.
    destruct (finish_field url (extracted dp page) k Hk) as (s & ? & ? & _).
    by exists s.
  - apply finish_title.
Qed.

Lemma scraped_record_is_complete_witness :
  Scenarios.acme_record !! "moreInfoLink" = Some (PStr page)
  ∧ (∃ s, Scenarios.acme_record !! "date-posted" = Some (PStr s))
  ∧ (∀ k, k ∈ scraped_fields →
       ∃ s, Scenarios.acme_record !! k = Some (PStr s) ∧ s ≠ "")
  ∧ ∃ c t, Scenarios.acme_record !! "company" = Some (PStr c)
           ∧ Scenarios.acme_record !! "job-title" = Some (PStr t)
           ∧ Scenarios.acme_record !! "title" = Some (PStr (c +:+ " | " +:+ t)).
Proof.
  apply (scraped_record_is_complete (Scenarios.site Scenarios.acme_page) page
           Scenarios.acme_record).
  left. vm_compute. reflexivity.
Defined.

(** X18.  A page on which the scraper finds no company, a blank one or
    the placeholder N/A is never stored: the iteration leaves the
    collection as it is and marks the URL as processed. *)
Theorem page_without_company_is_not_stored
    (W : web) (E : env) (url : string) (w : world) :
  (∀ resp, (fetch_page (session_get W) url).1 = Some resp →
           no_company (page_read W url resp)) →
  let w' := (process_url (with_scrapers W E) url w).2 in
  jobs w' = jobs w ∧ marked_seen w w' url.
Proof.
  intros Hpage. cbn zeta. unfold marked_seen.
  destruct (process_url_cases (with_scrapers W E) url w)
    as [[_ ->]|[(f & _ & _ & _ & ->)|(f & d & _ & Hf & Hd & Hm & _)]];
    [done..|].
  exfalso. apply Hm.
  destruct (picked_scraper_result W E url f d Hf Hd)
    as (_ & resp & dp & Hfetch & ->).
  apply finish_company_missing. by apply Hpage.
Qed.

Lemma page_without_company_is_not_stored_witness :
  let w' := (process_url (with_scrapers (Scenarios.site Scenarios.bare_page)
                            (outside "Acme" false (Some 200)))
               page fresh_world).2 in
  jobs w' = jobs fresh_world ∧ marked_seen fresh_world w' page.
Proof.
  apply (page_without_company_is_not_stored (Scenarios.site Scenarios.bare_page)
           (outside "Acme" false (Some 200)) page fresh_world).
  intros resp _. vm_compute. exact I.
Defined.

(** X19.  When an iteration with the two scrapers has written a
    record for a URL, then in every later state of the world in which
    what that iteration wrote is still stored, whatever has become of
    the processed file and whatever else the store holds, an iteration
    for the URL whose existence query does not raise finds the record:
    it scrapes nothing and writes nothing, and only marks the URL. *)
Theorem stored_page_is_found_by_the_gate
    (W : web) (E E2 : env) (url : string) (w w2 : world) :
  query_raises E2 url = false →
  let w1 := (process_url (with_scrapers W E) url w).2 in
  jobs w1 ≠ jobs w →
  map_Forall (λ i data, jobs w !! i ≠ Some data → jobs w2 !! i = Some data)
    (jobs w1) →
  process_url E2 url w2 =
    (Ok (), mkworld (jobs w2) (processed_urls_file w2 ++ [strip url])
              (trace w2 ++ [EvExists url; EvSeen url])).
Proof.
  intros Hq. cbn zeta.
  destruct (process_url_cases (with_scrapers W E) url w)
    as [[_ ->]|[(f & _ & _ & _ & ->)
       |(f & d & _ & Hf & Hd & _ & [[_ ->]|[_ ->]])]];
    cbn [snd jobs]; [done..|]. intros Hnew Hkept.
  destruct (picked_scraper_result W E url f d Hf Hd) as [Hs _].
  set (k := auto_id (with_scrapers W E) (jobs w)) in *.
  assert (jobs w2 !! k = Some d) as Hk.
  { apply (Hkept k d); [apply lookup_insert_eq|].
    intros Hold. apply Hnew. by apply insert_id. }
  destruct (process_url_cases E2 url w2)
    as [[_ ->]|[(g & Hg & _)|(g & d' & Hg & _)]]; [done|exfalso..];
    destruct (job_exists_for_url_run E2 url w2) as (b & Hrun & Hb);
    rewrite Hrun in Hg; cbn [fst] in Hg; injection Hg as ->;
    (assert (false = true) as Habs; [|done]); apply Hb; (split; [done|]);
    exists k, d; (split; [done|]);
    apply scraped_moreInfoLink in Hs; done.
Qed.

Lemma stored_page_is_found_by_the_gate_witness :
  process_url (outside "Acme" false (Some 200)) page Scenarios.later_world
  = (Ok (), mkworld (jobs Scenarios.later_world)
              (processed_urls_file Scenarios.later_world ++ [strip page])
              (trace Scenarios.later_world ++ [EvExists page; EvSeen page])).
Proof.
  apply (stored_page_is_found_by_the_gate (Scenarios.site Scenarios.acme_page)
           (outside "Acme" false (Some 200)) (outside "Acme" false (Some 200))
           page fresh_world Scenarios.later_world).
  - reflexivity.
  - apply (bool_decide_unpack _). vm_compute. exact I.
  - apply (bool_decide_unpack _). vm_compute. exact I.
Defined.

(** X20.  The two scripts together: the record that
    [scrape_job_data_fresheropenings] builds carries the date of the day
    it was scraped, from the year 1000 on, so the purge treats it as
    recent and deletes it when it runs on that day or on one of the two
    days after, provided the delete goes through. *)
Theorem record_of_today_is_purged
    (W : web) (url : string) (data : dict)
    (now : Py.date) (dr : string → bool) (jobs : collection) (i : string) :
  Pages.scrape_job_data_fresheropenings W url = Some data →
  valid_date (Pages.today W) = true →
  1000 ≤ year (Pages.today W) →
  toordinal now - 2 ≤ toordinal (Pages.today W) →
  jobs !! i = Some data →
  dr i = false →
  datePosted data = Some (Pages.today W)
  ∧ (Cleanup.main now dr jobs).1 !! i = None.
Proof.
  intros Hs Hv _ Hnow Hi Hdr.
  assert (datePosted data = Some (Pages.today W)) as Hdp.
  { unfold Pages.scrape_job_data_fresheropenings in Hs.
    destruct (fetch_page _ url).1 as [resp|]; [|done].
    destruct (negb _); [done|]. injection Hs as <-.
    unfold datePosted, mk_info. cbn [date snd]. unfold get_or.
    rewrite finish_lookup_other.
    - rewrite lookup_insert_ne by done. rewrite extracted_date. cbn [default].
      by apply parse_date_safe_strftime.
    - done.
    - apply (bool_decide_unpack _). vm_compute. exact I. }
  split; [done|]. apply (main_lookup_None now dr jobs i data Hi).
  split; [|done]. left. apply recent_true. exists (Pages.today W).
  split; [done|lia].
Qed.

Lemma record_of_today_is_purged_witness :
  datePosted Scenarios.acme_record = Some Examples.today
  ∧ (Cleanup.main (mkdate 2024 3 12) deletes_succeed
       {[ "k" := Scenarios.acme_record ]}).1 !! "k" = None.
Proof.
  apply (record_of_today_is_purged (Scenarios.site Scenarios.acme_page) page
           Scenarios.acme_record (mkdate 2024 3 12) deletes_succeed
           {[ "k" := Scenarios.acme_record ]} "k").
  - vm_compute. reflexivity.
  - reflexivity.
  - vm_compute. discriminate.
  - vm_compute. discriminate.
  - vm_compute. reflexivity.
  - reflexivity.
Defined.

(** X21.  The notification for a record returned by a scraper: its text
    names the company and the job title of the record, never the
    stand-ins of the notifier, and its link is the apply link of the
    record, a non-empty string; the fall-backs to [moreInfoLink] and to
    [#] are never used, so a page without an apply link is announced
    with the placeholder the scraper put there. *)
Theorem notification_of_scraped_record (W : web) (url : string) (d : dict) :
  Pages.scrape_job_data_fresheropenings W url = Some d
  ∨ Pages.scrape_job_data_freshers_recruitment W url = Some d →
  ∃ c t a,
    d !! "company" = Some (PStr c) ∧ d !! "job-title" = Some (PStr t)
    ∧ d !! "apply-link" = Some (PStr a) ∧ a ≠ ""
    ∧ apply_link d = PStr a
    ∧ notification_message d
      = c +:+ " has openings for " +:+ t +:+ ". Click now to apply!".
Proof.
  intros (dp & page & ->)%scraper_result.
  set (d := finish url (extracted dp page)).
  destruct (finish_field url (extracted dp page) "company") as (c & Hc & _);
    [unfold scraped_fields;
     repeat first [apply list_elem_of_here | apply list_elem_of_further]|].
  destruct (finish_field url (extracted dp page) "job-title") as (t & Ht & _);
    [unfold scraped_fields;
     repeat first [apply list_elem_of_here | apply list_elem_of_further]|].
  destruct (finish_field url (extracted dp page) "apply-link")
    as (a & Ha & Hne & _); [unfold scraped_fields;
     repeat first [apply list_elem_of_here | apply list_elem_of_further]|].
  fold d in Hc, Ht, Ha. exists c, t, a.
  split; [done|]. split; [done|]. split; [done|]. split; [done|]. split.
  - assert (Hf : falsy (PStr a) = false).
    { cbn [falsy]. by destruct (decide (a = "")). }
    assert (Hg : get d "apply-link" = PStr a) by (unfold get; by rewrite Ha).
    clearbody d. unfold apply_link, py_or. rewrite Hg, Hf. by rewrite Hf.
  - unfold notification_message, get_or. by rewrite Hc, Ht.
Qed.

Lemma notification_of_scraped_record_witness :
  ∃ c t a,
    Scenarios.acme_record !! "company" = Some (PStr c)
    ∧ Scenarios.acme_record !! "job-title" = Some (PStr t)
    ∧ Scenarios.acme_record !! "apply-link" = Some (PStr a) ∧ a ≠ ""
    ∧ apply_link Scenarios.acme_record = PStr a
    ∧ notification_message Scenarios.acme_record
      = c +:+ " has openings for " +:+ t +:+ ". Click now to apply!".
Proof.
  apply (notification_of_scraped_record (Scenarios.site Scenarios.acme_page)
           page Scenarios.acme_record).
  left. vm_compute. reflexivity.
Defined.

Import Channel.

(** ** The URL pattern *)

Section url_pattern.

Lemma scheme_then_char_nil a t :
  scheme_then_char "" (String a t) = negb (is_space a).
Proof. done. Qed.

Lemma scheme_then_char_cons x sch a t :
  scheme_then_char (String x sch) (String a t)
  = if Ascii.eqb x a then scheme_then_char sch t else false.
Proof. unfold scheme_then_char. cbn. by destruct (Ascii.eqb x a). Qed.

(** A match that is followed by an end or by white space does not owe
    its start to what follows. *)
Lemma scheme_then_char_cut sch pre s :
  no_space sch = true → starts_with_space s →
  scheme_then_char sch (pre +:+ s) = true → scheme_then_char sch pre = true.
Proof.
  intros Hsch Hs. revert pre Hsch.
  induction sch as [|x sch IH]; intros pre Hsch.
  - destruct pre as [|a p]; [|done].
    destruct Hs as [->|(c & p & -> & Hc)]; [done|].
    change (negb (is_space c) = true → scheme_then_char "" "" = true).
    by rewrite Hc.
  - cbn [no_space] in Hsch. apply andb_prop in Hsch as [Hx Hsch].
    destruct pre as [|a p].
    + destruct Hs as [->|(c & p & -> & Hc)]; [done|].
      rewrite string_app_nil_l, scheme_then_char_cons.
      destruct (Ascii.eqb_spec x c) as [->|]; [|done].
      by rewrite Hc in Hx.
    + rewrite string_app_cons, !scheme_then_char_cons.
      destruct (Ascii.eqb x a); [|done].
      by apply IH.
Qed.

Lemma scheme_then_char_app sch u s :
  scheme_then_char sch u = true → scheme_then_char sch (u +:+ s) = true.
Proof.
  revert u. induction sch as [|x sch IH]; intros [|a p]; try done.
  rewrite string_app_cons, !scheme_then_char_cons. destruct (Ascii.eqb x a); [|done]. apply IH.
Qed.

Lemma starts_url_cut pre s :
  starts_with_space s → starts_url (pre +:+ s) = true → starts_url pre = true.
Proof.
  intros Hs. unfold starts_url. intros [H|H]%orb_prop.
  - by rewrite (scheme_then_char_cut "http://" pre s).
  - rewrite (scheme_then_char_cut "https://" pre s) by done. apply orb_true_r.
Qed.

Lemma starts_url_app u s : starts_url u = true → starts_url (u +:+ s) = true.
Proof.
  unfold starts_url. intros [H|H]%orb_prop.
  - by rewrite scheme_then_char_app.
  - rewrite (scheme_then_char_app "https://") by done. apply orb_true_r.
Qed.

Lemma starts_url_head c s : starts_url (String c s) = true → c = "h"%char.
Proof.
  unfold starts_url.
  change (scheme_then_char "http://" (String c s))
    with (scheme_then_char (String "h" "ttp://") (String c s)).
  change (scheme_then_char "https://" (String c s))
    with (scheme_then_char (String "h" "ttps://") (String c s)).
  rewrite !scheme_then_char_cons.
  destruct (Ascii.eqb_spec "h" c) as [<-|]; [done|]. by intros [?|?]%orb_prop.
Qed.

Lemma starts_url_nonempty u : starts_url u = true → u ≠ "".
Proof. by intros H ->. Qed.

Lemma rev_cons_string c m : String.rev (String c m) = String.rev m +:+ String c "".
Proof. unfold String.rev. cbn [String.rev_app]. by rewrite rev_app_spec. Qed.

(** Every match is free of white space and starts as the pattern says. *)
Lemma scan_urls_sound s cur u :
  match cur with
  | Some m => no_space m = true ∧ starts_url (String.rev m +:+ s) = true
  | None => True
  end →
  u ∈ scan_urls cur s → url_like u.
Proof.
  revert cur. induction s as [|c s IH]; intros cur Hcur; cbn [scan_urls].
  - destruct cur as [m|]; [|by intros ?%elem_of_nil].
    intros ->%list_elem_of_singleton. destruct Hcur as [Hm Hs]. split.
    + unfold String.rev. by rewrite no_space_rev_app, Hm.
    + by rewrite string_app_nil_r in Hs.
  - destruct cur as [m|].
    + destruct Hcur as [Hm Hs]. destruct (is_space c) eqn:Hc.
      * intros [->|Hu]%elem_of_cons; [|by apply (IH None)]. split.
        -- unfold String.rev. by rewrite no_space_rev_app, Hm.
        -- apply (starts_url_cut _ (String c s)); [right; eauto|done].
      * apply IH. split; [cbn [no_space]; by rewrite Hc, Hm|].
        by rewrite rev_cons_string, string_app_assoc.
    + destruct (starts_url (String c s)) eqn:Hs; [|by apply (IH None)].
      apply IH. pose proof (starts_url_head c s Hs) as ->. by split.
Qed.

(** Inside a match, characters that are not white space are taken. *)
Lemma scan_urls_push v m s :
  no_space v = true →
  scan_urls (Some m) (v +:+ s) = scan_urls (Some (String.rev_app v m)) s.
Proof.
  revert m. induction v as [|c v IH]; intros m Hv; [done|].
  cbn [no_space] in Hv. apply andb_prop in Hv as [Hc Hv].
  change (String c v +:+ s) with (String c (v +:+ s)). cbn [scan_urls].
  destruct (is_space c); [done|]. cbn [String.rev_app]. by apply IH.
Qed.

(** After white space no match is open. *)
Lemma scan_urls_resume pre cur t :
  ends_with_space pre →
  ∃ l, scan_urls cur (pre +:+ t)
       = l ++ scan_urls (if decide (pre = "") then cur else None) t.
Proof.
  intros [->|(p & sp & -> & Hsp)]; [by exists []|].
  rewrite decide_False by (by destruct p).
  rewrite string_app_assoc.
  change (String sp "" +:+ t) with (String sp t).
  revert cur. induction p as [|c p IH]; intros cur.
  - change ("" +:+ String sp t) with (String sp t). cbn [scan_urls].
    rewrite Hsp. destruct cur as [m|]; [by exists [String.rev m]|].
    destruct (starts_url (String sp t)) eqn:Hs; [|by exists []].
    apply starts_url_head in Hs as ->. done.
  - change (String c p +:+ String sp t) with (String c (p +:+ String sp t)).
    cbn [scan_urls]. destruct cur as [m|].
    + destruct (is_space c).
      * destruct (IH None) as [l ->]. by exists (String.rev m :: l).
      * apply IH.
    + destruct (starts_url _); apply IH.
Qed.

(** A URL that stands between white space, or at an end of the text, is
    matched as it stands. *)
Lemma findall_urls_complete pre u post :
  ends_with_space pre → url_like u → starts_with_space post →
  u ∈ findall_urls (pre +:+ u +:+ post).
Proof.
  intros Hpre [Hu Hs] Hpost. unfold findall_urls.
  destruct (scan_urls_resume pre None (u +:+ post) Hpre) as [l ->].
  apply elem_of_app. right.
  assert (scan_urls (if decide (pre = "") then None else None) (u +:+ post)
          = scan_urls None (u +:+ post)) as -> by (by destruct (decide _)).
  destruct u as [|c v]; [done|].
  change (String c v +:+ post) with (String c (v +:+ post)). cbn [scan_urls].
  change (String c (v +:+ post)) with (String c v +:+ post).
  rewrite (starts_url_app _ post Hs).
  cbn [no_space] in Hu. apply andb_prop in Hu as [Hc Hv].
  rewrite scan_urls_push by done.
  assert (String.rev (String.rev_app v (String c "")) = String c v) as Hrev.
  { unfold String.rev. rewrite rev_app_rev_app. cbn [String.rev_app].
    by rewrite string_app_nil_r. }
  destruct Hpost as [->|(sp & p & -> & Hsp)]; cbn [scan_urls].
  - rewrite Hrev. left.
  - rewrite Hsp, Hrev. left.
Qed.

End url_pattern.

(** ** Reading the channel *)

Section channel_facts.

Lemma on_target_scraper u : on_target u → scraper_for u ≠ None.
Proof.
  intros (domain & Hd & Hc). unfold scraper_for.
  unfold TARGET_DOMAINS in Hd.
  apply elem_of_cons in Hd as [->|Hd]; [by rewrite Hc|].
  apply list_elem_of_singleton in Hd as ->.
  destruct (contains "fresheropenings.com" u); [done|]. by rewrite Hc.
Qed.

Lemma keep_target_elem urls found u :
  u ∈ keep_target urls found ↔
  u ∈ urls ∨ (u = strip found ∧ on_target u).
Proof.
  unfold keep_target, on_target.
  destruct (existsb _ TARGET_DOMAINS) eqn:Hex.
  - rewrite elem_of_union, elem_of_singleton. split; [|tauto].
    intros [?| ->]; [by left|right]. split; [done|].
    apply existsb_exists in Hex as (domain & Hd%list_elem_of_In & ?). eauto.
  - split; [by left|]. intros [?|[-> (domain & Hd & Hc)]]; [done|].
    assert (existsb (λ domain, contains domain (strip found)) TARGET_DOMAINS
            = true) as Habs; [|congruence].
    apply existsb_exists. exists domain. by rewrite <- list_elem_of_In.
Qed.

Lemma foldl_keep_target_elem founds urls u :
  u ∈ foldl keep_target urls founds ↔
  u ∈ urls ∨ ∃ found, found ∈ founds ∧ u = strip found ∧ on_target u.
Proof.
  revert urls. induction founds as [|f founds IH]; intros urls; cbn [foldl].
  { split; [by left|]. by intros [?|(? & ?%elem_of_nil & _)]. }
  rewrite IH, keep_target_elem. split.
  - intros [[?|[-> ?]]|(found & ? & ?)]; [by left|right..].
    + exists f. split; [left|done].
    + exists found. split; [by right|done].
  - intros [?|(found & [->|?]%elem_of_cons & ?)]; [by left; left|by left; right|].
    right. by exists found.
Qed.

Lemma scan_message_elem urls message u :
  u ∈ scan_message urls message ↔
  u ∈ urls ∨ ∃ text found, message = PStr text ∧ found ∈ findall_urls text
                           ∧ u = strip found ∧ on_target u.
Proof.
  unfold scan_message. destruct message as [|text].
  { split; [by left|]. by intros [?|(? & ? & ? & _)]. }
  destruct (decide (text = "")) as [->|Hne].
  { split; [by left|]. intros [?|(? & ? & [= <-] & ?%elem_of_nil & _)]; done. }
  rewrite foldl_keep_target_elem. split.
  - intros [?|(found & ? & ?)]; [by left|right]. by exists text, found.
  - intros [?|(? & found & [= <-] & ? & ?)]; [by left|right]. by exists found.
Qed.

Lemma foldl_scan_message_elem messages urls u :
  u ∈ foldl scan_message urls messages ↔
  u ∈ urls ∨ ∃ text found, PStr text ∈ messages ∧ found ∈ findall_urls text
                           ∧ u = strip found ∧ on_target u.
Proof.
  revert urls. induction messages as [|m messages IH]; intros urls; cbn [foldl].
  { split; [by left|]. by intros [?|(? & ? & ?%elem_of_nil & _)]. }
  rewrite IH, scan_message_elem. split.
  - intros [[?|(text & found & -> & ?)]|(text & found & ? & ?)];
      [by left|right..].
    + exists text, found. split; [left|done].
    + exists text, found. split; [by right|done].
  - intros [?|(text & found & [<-|?]%elem_of_cons & ?)];
      [by left; left|left; right|right].
    + by exists text, found.
    + by exists text, found.
Qed.

(** What the reading of the channel returns. *)
Lemma fetch_job_urls_elem messages raises u :
  u ∈ fetch_job_urls_from_group messages raises ↔
  raises = false
  ∧ ∃ text, PStr text ∈ messages ∧ u ∈ findall_urls text ∧ on_target u.
Proof.
  unfold fetch_job_urls_from_group. destruct raises.
  { split; [by intros ?%elem_of_nil|]. by intros [? _]. }
  rewrite elem_of_elements, foldl_scan_message_elem. split.
  - intros [?%elem_of_empty|(text & found & Hm & Hf & -> & Ht)]; [done|].
    split; [done|]. exists text. split; [done|].
    assert (url_like found) as [Hns _] by (by apply (scan_urls_sound text None)).
    by rewrite (strip_no_space found Hns) in *.
  - intros [_ (text & Hm & Hf & Ht)]. right. exists text, u.
    assert (url_like u) as [Hns _] by (by apply (scan_urls_sound text None)).
    by rewrite (strip_no_space u Hns).
Qed.

End channel_facts.

(** ** Choosing the dialog *)

Section dialogs.

Lemma strong_fuzzy d : strong d = true → fuzzy d = true.
Proof.
  unfold strong, fuzzy, is_strong, is_fuzzy. by intros [? _]%andb_prop.
Qed.

Lemma nameless_not_fuzzy d : or_empty (dialog_name d) = "" → fuzzy d = false.
Proof. unfold fuzzy. by intros ->. Qed.

(** The loop: it stops at the first strong match, with the fuzzy
    candidates met before it. *)
Lemma scan_dialogs_spec acc ds :
  scan_dialogs acc ds =
    match list_find (λ d, strong d = true) ds with
    | Some (i, d) =>
        (Some d, acc ++ filter (λ d, fuzzy d = true) (take i ds))
    | None => (None, acc ++ filter (λ d, fuzzy d = true) ds)
    end.
Proof.
  revert acc. induction ds as [|d ds IH]; intros acc; cbn [scan_dialogs].
  { cbn. by rewrite app_nil_r. }
  cbn [list_find].
  destruct (decide (or_empty (dialog_name d) = "")) as [Hn|Hn].
  { pose proof (nameless_not_fuzzy d Hn) as Hf.
    assert (strong d ≠ true) as Hs by (intros ?%strong_fuzzy; congruence).
    rewrite decide_False by done. rewrite IH.
    destruct (list_find _ ds) as [[i x]|]; cbn [fmap option_fmap option_map prod_map fst snd id take]; by rewrite filter_cons_False by congruence. }
  fold (strong d). fold (fuzzy d).
  destruct (strong d) eqn:Hs.
  { rewrite decide_True by done. cbn. by rewrite app_nil_r. }
  rewrite decide_False by done.
  destruct (fuzzy d) eqn:Hf; rewrite IH;
    destruct (list_find _ ds) as [[i x]|]; cbn [fmap option_fmap option_map prod_map fst snd id take];
    rewrite ?filter_cons_True, ?filter_cons_False by congruence;
    by rewrite <- ?app_assoc.
Qed.

End dialogs.

(** X22.  The URLs that [fetch_job_urls_from_group] returns are pairwise
    distinct, and each of them occurs as a match of the URL pattern in a
    message, has no white space, starts with [http://] or [https://],
    is left as it is by [strip], and names a target domain, so that a
    scraper handles it: the branch of [main] for unsupported domains is
    never taken for them. *)
Theorem collected_urls_are_target_urls
    (messages : list pyval) (raises : bool) :
  NoDup (fetch_job_urls_from_group messages raises)
  ∧ ∀ u, u ∈ fetch_job_urls_from_group messages raises →
      url_like u ∧ on_target u ∧ strip u = u ∧ u ≠ ""
      ∧ scraper_for u ≠ None
      ∧ ∃ text, PStr text ∈ messages ∧ u ∈ findall_urls text.
Proof.
  split.
  { unfold fetch_job_urls_from_group. destruct raises; [constructor|].
    apply NoDup_elements. }
  intros u (_ & text & Hm & Hf & Ht)%fetch_job_urls_elem.
  assert (url_like u) as Hu by (by apply (scan_urls_sound text None)).
  split; [done|]. split; [done|]. destruct Hu as [Hns Hs].
  split; [by apply strip_no_space|]. split; [by apply starts_url_nonempty|].
  split; [by apply on_target_scraper|]. by exists text.
Qed.

(** X23.  No target URL is missed: when the iteration over the messages
    does not raise, a URL of a target domain that stands in a message
    between white space, or at an end of the text, is among the URLs
    returned. *)
Theorem delimited_target_url_is_collected
    (messages : list pyval) (pre u post : string) :
  PStr (pre +:+ u +:+ post) ∈ messages →
  ends_with_space pre →
  starts_with_space post →
  url_like u →
  on_target u →
  u ∈ fetch_job_urls_from_group messages false.
Proof.
  intros Hm Hpre Hpost Hu Ht. apply fetch_job_urls_elem. split; [done|].
  exists (pre +:+ u +:+ post). split; [done|]. split; [|done].
  by apply findall_urls_complete.
Qed.

Lemma delimited_target_url_is_collected_witness :
  page ∈ fetch_job_urls_from_group [PNone; PStr Scenarios.message] false.
Proof.
  apply (delimited_target_url_is_collected [PNone; PStr Scenarios.message]
           "New opening: " page " apply now").
  - apply list_elem_of_further, list_elem_of_here.
  - right. exists "New opening:", " "%char. split; reflexivity.
  - right. exists " "%char, "apply now". split; reflexivity.
  - split; reflexivity.
  - exists "fresheropenings.com". split; [apply list_elem_of_here|reflexivity].
Defined.

(** X24.  [resolve_target_dialog] returns the first dialog whose name
    passes the strong test, whatever comes before it; when no name does,
    it returns the dialog whose name passes the fuzzy test if there is
    exactly one, and nothing otherwise. *)
Theorem resolve_target_dialog_spec (dialogs : list dialog) :
  resolve_target_dialog dialogs =
    match list_find (λ d, strong d = true) dialogs with
    | Some (_, d) => Some d
    | None =>
        match filter (λ d, fuzzy d = true) dialogs with
        | [d] => Some d
        | _ => None
        end
    end.
Proof.
  unfold resolve_target_dialog. rewrite scan_dialogs_spec.
  by destruct (list_find _ dialogs) as [[i d]|].
Qed.

(** X25.  A whole run of [main], from the dialogs on: every existence
    query, scrape and store write is for a URL that was matched in a
    message of the resolved dialog, has no white space, starts with
    [http://] or [https://] and names a target domain. *)
Theorem run_only_touches_target_urls
    (E : env) (now : datetime) (dialogs : list dialog)
    (messages : dialog → list pyval) (raises : dialog → bool) (w : world) :
  ∃ evs, trace (Channel.main E now dialogs messages raises w).2 = trace w ++ evs
    ∧ Forall (λ ev, ∀ u, concerns u ev →
                url_like u ∧ on_target u
                ∧ ∃ d text, resolve_target_dialog dialogs = Some d
                            ∧ PStr text ∈ messages d
                            ∧ u ∈ findall_urls text) evs.
Proof.
  unfold Channel.main, Scraper.main, mbind, M_bind.
  rewrite delete_old_jobs_run.
  destruct (compute_cutoff now (PInt 3)) as [cutoff|e].
  2:{ exists []. cbn. rewrite app_nil_r. by split. }
  destruct (for_each_delete_sound E cutoff (stream (jobs w)) w)
    as (_ & Ht & _).
  set (w0 := (for_each (stream (jobs w)) _ w).2) in *.
  destruct (resolve_target_dialog dialogs) as [d|]; cbn [fmap option_fmap option_map].
  2:{ exists []. cbn. rewrite app_nil_r. by split. }
  rewrite admission_cases, <- Ht.
  destruct (for_each_process_url_events E
              (filter (λ u, u ∉ processed_set (processed_urls_file w0))
                 (fetch_job_urls_from_group (messages d) (raises d))) w0)
    as (evs & Hevs & Hall).
  exists evs. split; [done|]. eapply Forall_impl; [exact Hall|].
  intros ev (url & [_ Hin]%list_elem_of_filter & Hof) u Hc.
  assert (u = url) as ->
    by (destruct ev; cbn in Hof, Hc; first [done|congruence]).
  apply fetch_job_urls_elem in Hin as (_ & text & Hm & Hf & Ht').
  split; [by apply (scan_urls_sound text None)|]. split; [done|].
  by exists d, text.
Qed.
